(** * Leftmost Skeleton Trees (lst.c): a shallow embedding and its properties

    The development follows [src/lst.c] function by function.

    Modelling conventions.
    - [lst_index_t] and [stack_index_t] are C [int]s.  They are modelled by
      [Z]; signed overflow is undefined in C, so the model describes the
      executions in which no index leaves the range of [int].  The macro
      [index_reduce] is a bitwise and, written with [Z.land].
    - A [void *] is an address, modelled by [Z]; [NULL] is [0].
    - The element array [p] and the pivot stack's [data] are lists indexed
      from 0.  [stack_pop] only lowers [depth]: the entries above the top
      stay in [data], and the code reads them again (see [_lst_insert] and
      [_lst_extract]), so the model keeps them.
    - The handle field of a user record ([item_index]) lives in user memory;
      the field [index_of] of the state maps the address of a record to the
      value of its handle field.
    - [lst_move] stores the handle field through [data].  Storing through
      [NULL] is undefined in C; the model updates [index_of NULL] then.  The
      cells of the occupied range hold the inserted records, so this concerns
      only a call that moves the content of a cell outside of that range, as
      [lst_extract] of a record that is not resident may do.  What is stated
      about [lst_extract] of such a record is stated for the case that the
      call returns.
    - [rand()] reads the next draw of the field [rand_state].
    - [realloc] and [calloc] are taken to succeed; fresh cells are zero.
    - Loops whose termination depends on the contents of the array
      (the scans of the Hoare partition, the recursive descents) take a
      [fuel] argument and return [None] when it runs out. *)

From Stdlib Require Import ZArith List Lia Bool Permutation Sorted.
Import ListNotations.
Open Scope Z_scope.

(** ** Data model *)

Definition ptr := Z.
Definition NULL : ptr := 0.

Definition INITIAL_CAPACITY : Z := 2048.
Definition INITIAL_STACK_CAPACITY : Z := 32.

Record pivot_stack_t := mk_stack {
  depth : Z;
  size : Z;
  data : list Z
}.

Record lst_t := mk_lst {
  capacity : Z;
  idx : Z;
  num_elements : Z;
  p : list ptr;
  s : pivot_stack_t;
  index_of : ptr -> Z;
  rand_state : list nat
}.

Definition with_capacity (lst : lst_t) (c : Z) : lst_t :=
  mk_lst c (idx lst) (num_elements lst) (p lst) (s lst) (index_of lst) (rand_state lst).
Definition with_idx (lst : lst_t) (i : Z) : lst_t :=
  mk_lst (capacity lst) i (num_elements lst) (p lst) (s lst) (index_of lst) (rand_state lst).
Definition with_num_elements (lst : lst_t) (n : Z) : lst_t :=
  mk_lst (capacity lst) (idx lst) n (p lst) (s lst) (index_of lst) (rand_state lst).
Definition with_p (lst : lst_t) (a : list ptr) : lst_t :=
  mk_lst (capacity lst) (idx lst) (num_elements lst) a (s lst) (index_of lst) (rand_state lst).
Definition with_s (lst : lst_t) (st : pivot_stack_t) : lst_t :=
  mk_lst (capacity lst) (idx lst) (num_elements lst) (p lst) st (index_of lst) (rand_state lst).
Definition with_index_of (lst : lst_t) (f : ptr -> Z) : lst_t :=
  mk_lst (capacity lst) (idx lst) (num_elements lst) (p lst) (s lst) f (rand_state lst).
Definition with_rand_state (lst : lst_t) (r : list nat) : lst_t :=
  mk_lst (capacity lst) (idx lst) (num_elements lst) (p lst) (s lst) (index_of lst) r.

(** Writing one cell of an array; a write outside the array (undefined in C)
    leaves the list as it is. *)
Fixpoint array_set {A : Type} (l : list A) (i : nat) (v : A) : list A :=
  match l with
  | [] => []
  | x :: t => match i with
              | O => v :: t
              | S i' => x :: array_set t i' v
              end
  end.

(** [for (i = lo; i < lo + count; i++) a = body(i, a);] *)
Fixpoint for_loop {A : Type} (body : Z -> A -> A) (i : Z) (count : nat) (a : A) : A :=
  match count with
  | O => a
  | S c => for_loop body (i + 1) c (body i a)
  end.

(** ** The pivot stack *)

Definition stack_alloc : pivot_stack_t :=
  mk_stack 0 INITIAL_STACK_CAPACITY (repeat 0 (Z.to_nat INITIAL_STACK_CAPACITY)).

Definition stack_expand (st : pivot_stack_t) : pivot_stack_t :=
  let n_size := 2 * size st in
  mk_stack (depth st) n_size (data st ++ repeat 0 (Z.to_nat (n_size - size st))).

Definition stack_push (st : pivot_stack_t) (pivot : Z) : pivot_stack_t :=
  let st := if depth st =? size st then stack_expand st else st in
  mk_stack (depth st + 1) (size st) (array_set (data st) (Z.to_nat (depth st)) pivot).

Definition stack_pop (st : pivot_stack_t) (n : Z) : pivot_stack_t :=
  mk_stack (depth st - n) (size st) (data st).

Definition stack_depth (st : pivot_stack_t) : Z := depth st.

Definition stack_item (st : pivot_stack_t) (index : Z) : Z :=
  nth (Z.to_nat index) (data st) 0.

Definition stack_set (st : pivot_stack_t) (index : Z) (new_value : Z) : pivot_stack_t :=
  mk_stack (depth st) (size st) (array_set (data st) (Z.to_nat index) new_value).

(** ** Index arithmetic and element access *)

Definition index_reduce (lst : lst_t) (index : Z) : Z :=
  Z.land index (capacity lst - 1).

Definition is_equivalent (lst : lst_t) (index1 index2 : Z) : bool :=
  index_reduce lst (index1 - index2) =? 0.

Definition item (lst : lst_t) (index : Z) : ptr :=
  nth (Z.to_nat (index_reduce lst index)) (p lst) NULL.

Definition set_item (lst : lst_t) (index : Z) (v : ptr) : lst_t :=
  with_p lst (array_set (p lst) (Z.to_nat (index_reduce lst index)) v).

Definition item_index (lst : lst_t) (data : ptr) : Z := index_of lst data.

Definition set_item_index (lst : lst_t) (data : ptr) (v : Z) : lst_t :=
  with_index_of lst (fun q => if q =? data then v else index_of lst q).

Definition pivot_item (lst : lst_t) (index : Z) : ptr :=
  item lst (stack_item (s lst) index).

Definition rand (lst : lst_t) : Z * lst_t :=
  match rand_state lst with
  | [] => (0, lst)
  | r :: rs => (Z.of_nat r, with_rand_state lst rs)
  end.

Definition _lst_alloc (mem : ptr -> Z) (seed : list nat) : lst_t :=
  mk_lst INITIAL_CAPACITY 0 0 (repeat NULL (Z.to_nat INITIAL_CAPACITY))
         (stack_push stack_alloc 0) mem seed.

Definition lst_length (lst : lst_t) (stack_index : Z) : Z :=
  stack_depth (s lst) - stack_index.

Definition is_bucket (lst : lst_t) (stack_index : Z) : bool :=
  lst_length lst stack_index =? 1.

Definition lst_size (lst : lst_t) (stack_index : Z) : Z :=
  if stack_index =? 0 then num_elements lst
  else
    let reduced_right := index_reduce lst (stack_item (s lst) stack_index) in
    let reduced_idx := index_reduce lst (idx lst) in
    if reduced_idx <=? reduced_right then reduced_right - reduced_idx
    else (capacity lst - reduced_idx) + reduced_right.

Definition lst_flatten (lst : lst_t) (stack_index : Z) : lst_t :=
  with_s lst (stack_pop (s lst) (stack_depth (s lst) - stack_index)).

(** [item(lst, location) = data; item_index(lst, data) = index_reduce(lst, location);]
    The second store goes through [data]; see the conventions above for a
    null [data]. *)
Definition lst_move (lst : lst_t) (location : Z) (data : ptr) : lst_t :=
  let lst := set_item lst location data in
  set_item_index lst data (index_reduce lst location).

(** ** bucket_add *)

Definition bucket_add_body (rindex : Z) (lst : lst_t) : lst_t :=
  let prev_pivot_index := stack_item (s lst) (rindex + 1) in
  let new_space := stack_item (s lst) rindex in
  let empty_bucket := (new_space - prev_pivot_index) =? 1 in
  let lst := with_s lst (stack_set (s lst) rindex (new_space + 1)) in
  let lst := if negb empty_bucket
             then lst_move lst new_space (item lst (prev_pivot_index + 1))
             else lst in
  lst_move lst (prev_pivot_index + 1) (item lst prev_pivot_index).

Definition bucket_add (lst : lst_t) (stack_index : Z) (data : ptr) : lst_t :=
  let lst := for_loop bucket_add_body 0 (Z.to_nat stack_index) lst in
  let new_space := stack_item (s lst) stack_index in
  let lst := with_s lst (stack_set (s lst) stack_index (new_space + 1)) in
  let lst := lst_move lst new_space data in
  with_num_elements lst (num_elements lst + 1).

(** ** lst_indices_reduce and lst_expand *)

Definition lst_indices_reduce (lst : lst_t) : lst_t :=
  let reduced_idx := index_reduce lst (idx lst) in
  let depth := stack_depth (s lst) in
  let lst := for_loop
               (fun i l => with_s l (stack_set (s l) i
                                       (reduced_idx + stack_item (s l) i - idx l)))
               0 (Z.to_nat depth) lst in
  with_idx lst reduced_idx.

Definition lst_expand_body (old_capacity : Z) (i : Z) (lst : lst_t) : lst_t :=
  let to_be_moved := item lst i in
  let new_index := item_index lst to_be_moved + old_capacity in
  lst_move lst new_index to_be_moved.

Definition lst_expand (lst : lst_t) : lst_t :=
  let n_capacity := 2 * capacity lst in
  let old_capacity := capacity lst in
  let lst := with_p lst (p lst ++ repeat NULL (Z.to_nat (n_capacity - old_capacity))) in
  let lst := with_capacity lst n_capacity in
  let lst := lst_indices_reduce lst in
  for_loop (lst_expand_body old_capacity) 0 (Z.to_nat (idx lst)) lst.

Definition bucket_lwb (lst : lst_t) (stack_index : Z) : Z :=
  if is_bucket lst stack_index then idx lst
  else stack_item (s lst) (stack_index + 1) + 1.

Definition bucket_upb (lst : lst_t) (stack_index : Z) : Z :=
  stack_item (s lst) stack_index - 1.

(** ** bucket_delete *)

(** The [for (;;)] loop of [bucket_delete]; it runs once for each stack index
    from [stack_index] down to 0, so the recursion is on that index. *)
Fixpoint bucket_delete_loop (stack_index : nat) (lst : lst_t) (location : Z) : lst_t :=
  let k := Z.of_nat stack_index in
  let top := bucket_upb lst k in
  let lst := if negb (is_equivalent lst location top)
             then lst_move lst location (item lst top)
             else lst in
  let lst := with_s lst (stack_set (s lst) k top) in
  match stack_index with
  | O => lst
  | S k' =>
      let lst := lst_move lst top (item lst (top + 1)) in
      bucket_delete_loop k' lst (top + 1)
  end.

Definition bucket_delete (lst : lst_t) (stack_index : Z) (data : ptr) : lst_t :=
  let location := item_index lst data in
  let lst :=
    if is_equivalent lst location (idx lst) then
      let lst := with_idx lst (idx lst + 1) in
      if is_equivalent lst (idx lst) 0 then lst_indices_reduce lst else lst
    else bucket_delete_loop (Z.to_nat stack_index) lst location in
  let lst := with_num_elements lst (num_elements lst - 1) in
  set_item_index lst data (-1).

(** ** The operations that need the comparator *)

Section WithComparator.

Variable cmp : ptr -> ptr -> Z.

(** [while (lst->cmp(item(lst, --h), pivot) > 0) ;] *)
Fixpoint scan_down (fuel : nat) (lst : lst_t) (h : Z) (pivot : ptr) : option Z :=
  match fuel with
  | O => None
  | S f =>
      let h := h - 1 in
      if cmp (item lst h) pivot >? 0 then scan_down f lst h pivot else Some h
  end.

(** [while (lst->cmp(item(lst, ++l), pivot) < 0) ;] *)
Fixpoint scan_up (fuel : nat) (lst : lst_t) (l : Z) (pivot : ptr) : option Z :=
  match fuel with
  | O => None
  | S f =>
      let l := l + 1 in
      if cmp (item lst l) pivot <? 0 then scan_up f lst l pivot else Some l
  end.

(** The [for (;;)] loop of [partition]; returns the state and the final [h]. *)
Fixpoint hoare_loop (fuel : nat) (lst : lst_t) (l h : Z) (pivot : ptr)
  : option (lst_t * Z) :=
  match fuel with
  | O => None
  | S f =>
      match scan_down f lst h pivot with
      | None => None
      | Some h =>
          match scan_up f lst l pivot with
          | None => None
          | Some l =>
              if l >=? h then Some (lst, h)
              else
                let temp := item lst l in
                let lst := lst_move lst l (item lst h) in
                let lst := lst_move lst h temp in
                hoare_loop f lst l h pivot
          end
      end
  end.

Definition partition (fuel : nat) (lst : lst_t) (stack_index : Z) : option lst_t :=
  let low := bucket_lwb lst stack_index in
  let high := bucket_upb lst stack_index in
  if is_equivalent lst low high then
    Some (with_s lst (stack_push (s lst) low))
  else
    let (r, lst) := rand lst in
    let pivot_index := low + Z.rem r (high + 1 - low) in
    let pivot := item lst pivot_index in
    let lst := if negb (pivot_index =? low)
               then lst_move (lst_move lst pivot_index (item lst low)) low pivot
               else lst in
    match hoare_loop fuel lst (low - 1) (high + 1) pivot with
    | None => None
    | Some (lst, h) =>
        let pivot_index := item_index lst pivot in
        let pivot_index :=
          if pivot_index >=? index_reduce lst low
          then low + pivot_index - index_reduce lst low
          else high - (index_reduce lst high - pivot_index) in
        let lst := if pivot_index <? h
                   then lst_move (lst_move lst pivot_index (item lst h)) h pivot
                   else lst in
        let '(lst, h) :=
          if pivot_index >? h
          then
            let h := h + 1 in
            (lst_move (lst_move lst pivot_index (item lst h)) h pivot, h)
          else (lst, h) in
        Some (with_s lst (stack_push (s lst) h))
    end.

Fixpoint _lst_pop (fuel : nat) (lst : lst_t) (stack_index : Z) : option (ptr * lst_t) :=
  match fuel with
  | O => None
  | S f =>
      match (if is_bucket lst stack_index then partition f lst stack_index else Some lst) with
      | None => None
      | Some lst =>
          let stack_index := stack_index + 1 in
          if lst_size lst stack_index =? 0 then
            let min := pivot_item lst stack_index in
            let lst := lst_flatten lst stack_index in
            let lst := bucket_delete lst stack_index min in
            Some (min, lst)
          else _lst_pop f lst stack_index
      end
  end.

Fixpoint _lst_peek (fuel : nat) (lst : lst_t) (stack_index : Z) : option (ptr * lst_t) :=
  match fuel with
  | O => None
  | S f =>
      match (if is_bucket lst stack_index then partition f lst stack_index else Some lst) with
      | None => None
      | Some lst =>
          let stack_index := stack_index + 1 in
          if lst_size lst stack_index =? 0 then Some (pivot_item lst stack_index, lst)
          else _lst_peek f lst stack_index
      end
  end.

Fixpoint _lst_extract (fuel : nat) (lst : lst_t) (stack_index : Z) (data : ptr)
  : option lst_t :=
  match fuel with
  | O => None
  | S f =>
      if is_bucket lst stack_index then Some (bucket_delete lst stack_index data)
      else
        let stack_index := stack_index + 1 in
        let c := cmp data (pivot_item lst stack_index) in
        if c <? 0 then _lst_extract f lst stack_index data
        else if c >? 0 then Some (bucket_delete lst (stack_index - 1) data)
        else
          let lst := lst_flatten lst stack_index in
          Some (bucket_delete lst stack_index data)
  end.

Fixpoint _lst_insert (fuel : nat) (lst : lst_t) (stack_index : Z) (data : ptr)
  : option lst_t :=
  match fuel with
  | O => None
  | S f =>
      if is_bucket lst stack_index then Some (bucket_add lst stack_index data)
      else
        let stack_index := stack_index + 1 in
        let (r, lst) := rand lst in
        if negb (Z.rem r (lst_size lst stack_index + 1) =? 0) then
          if cmp data (pivot_item lst stack_index) <? 0
          then _lst_insert f lst stack_index data
          else Some (bucket_add lst (stack_index - 1) data)
        else
          let lst := lst_flatten lst stack_index in
          Some (bucket_add lst stack_index data)
  end.

(** ** The public interface *)

Definition lst_pop (fuel : nat) (lst : lst_t) : option (ptr * lst_t) :=
  if num_elements lst =? 0 then Some (NULL, lst)
  else _lst_pop fuel lst 0.

Definition lst_peek (fuel : nat) (lst : lst_t) : option (ptr * lst_t) :=
  if num_elements lst =? 0 then Some (NULL, lst)
  else _lst_peek fuel lst 0.

Definition lst_extract (fuel : nat) (lst : lst_t) (data : ptr) : option (Z * lst_t) :=
  if (num_elements lst =? 0) || (item_index lst data <? 0) then Some (-1, lst)
  else
    match _lst_extract fuel lst 0 data with
    | None => None
    | Some lst => Some (1, lst)
    end.

Definition lst_insert (fuel : nat) (lst : lst_t) (data : ptr) : option (Z * lst_t) :=
  let lst := if num_elements lst =? capacity lst then lst_expand lst else lst in
  let data_index := item_index lst data in
  if (data_index >? 0)
     || ((data_index =? 0) && (num_elements lst >? 0) && (idx lst =? 0)
         && (item lst 0 =? data))
  then Some (-1, lst)
  else
    match _lst_insert fuel lst 0 data with
    | None => None
    | Some lst => Some (1, lst)
    end.

(** ** Client loops

    The loops of the test programs ([lst_test_basic], [lst_iter]): insert
    the records of a list one after the other, requiring every call to
    return 1, and pop [n] times, collecting what the calls return. *)

Fixpoint lst_insert_all (fuel : nat) (lst : lst_t) (records : list ptr) : option lst_t :=
  match records with
  | [] => Some lst
  | x :: rest =>
      match lst_insert fuel lst x with
      | Some (r, lst) => if r =? 1 then lst_insert_all fuel lst rest else None
      | None => None
      end
  end.

Fixpoint lst_pop_n (fuel : nat) (n : nat) (lst : lst_t) : option (list ptr * lst_t) :=
  match n with
  | O => Some ([], lst)
  | S n' =>
      match lst_pop fuel lst with
      | Some (x, lst) =>
          match lst_pop_n fuel n' lst with
          | Some (out, lst) => Some (x :: out, lst)
          | None => None
          end
      | None => None
      end
  end.

End WithComparator.

Definition lst_num_elements (lst : lst_t) : Z := num_elements lst.

(** The iterator functions take the LST by pointer and test it against
    [NULL]: the argument is an [option].  They return the element and the new
    value of [*iter]. *)
Definition lst_iter_init (lst : option lst_t) (iter : Z) : ptr * Z :=
  match lst with
  | None => (NULL, iter)
  | Some l =>
      if num_elements l =? 0 then (NULL, iter)
      else (item l (idx l), idx l)
  end.

Definition lst_iter_next (lst : option lst_t) (iter : Z) : ptr * Z :=
  match lst with
  | None => (NULL, iter)
  | Some l =>
      if iter + 1 >=? stack_item (s l) 0 then (NULL, iter)
      else (item l (iter + 1), iter + 1)
  end.

(** The loop of [lst_iter]: [cur] is the result of the last iterator call;
    the loop body records the element and calls [lst_iter_next]. *)
Fixpoint lst_iter_collect (n : nat) (lst : lst_t) (cur : ptr * Z) : list ptr :=
  match n with
  | O => []
  | S n' => fst cur :: lst_iter_collect n' lst (lst_iter_next (Some lst) (snd cur))
  end.

(** The comparator of the tests, [heap_cmp], on records whose [data] field
    is given by [key]. *)
Definition heap_cmp (key : ptr -> Z) (one two : ptr) : Z :=
  (if key one >? key two then 1 else 0) - (if key two >? key one then 1 else 0).

(** ** The helpers of the tests

    [lst_contains] and [lst_validate] of [lst_tests.c]; the messages that
    [lst_validate] prints are left out. *)

(** [for (int i = 0; i < size; i++) if (item(lst, i + lst->idx) == data) return true;] *)
Fixpoint lst_contains_loop (count : nat) (lst : lst_t) (i : Z) (data : ptr) : bool :=
  match count with
  | O => false
  | S c =>
      if item lst (i + idx lst) =? data then true
      else lst_contains_loop c lst (i + 1) data
  end.

Definition lst_contains (lst : lst_t) (data : ptr) : bool :=
  let size := lst_num_elements lst in
  lst_contains_loop (Z.to_nat size) lst 0 data.

Section Validate.

Variable cmp : ptr -> ptr -> Z.

(** "Bucket sizes must make sense." *)
Definition validate_bucket_sizes (lst : lst_t) (depth : Z) (is_valid : bool) : bool :=
  if negb (num_elements lst =? 0) then
    let '(is_valid, bucket_size_sum) :=
      for_loop
        (fun stack_index (acc : bool * Z) =>
           let '(is_valid, bucket_size_sum) := acc in
           let bucket_size :=
             bucket_upb lst stack_index - bucket_lwb lst stack_index + 1 in
           let is_valid := if bucket_size >? num_elements lst then false else is_valid in
           (is_valid, bucket_size_sum + bucket_size))
        0 (Z.to_nat depth) (is_valid, 0) in
    if negb (bucket_size_sum + depth - 1 =? num_elements lst) then false else is_valid
  else is_valid.

(** "No elements should be NULL." *)
Definition validate_elements (lst : lst_t) (is_valid : bool) : bool :=
  for_loop
    (fun i is_valid => if item lst (idx lst + i) =? NULL then false else is_valid)
    0 (Z.to_nat (num_elements lst)) is_valid.

(** "pivots from left to right (aside from the fictitious one) should be in
    ascending order." *)
Definition validate_pivots_in_order (lst : lst_t) (depth : Z) (pivots_in_order : bool)
  : bool :=
  for_loop
    (fun stack_index pivots_in_order =>
       let current_pivot := pivot_item lst stack_index in
       let next_pivot := pivot_item lst (stack_index + 1) in
       if negb (current_pivot =? NULL) && negb (next_pivot =? NULL)
          && (cmp current_pivot next_pivot <? 0)
       then false else pivots_in_order)
    1 (Z.to_nat (depth - 2)) pivots_in_order.

(** "all non-fictitious pivots must correspond to non-null elements of the
    array." *)
Definition validate_pivots (lst : lst_t) (depth : Z) (is_valid : bool) : bool :=
  for_loop
    (fun stack_index is_valid =>
       if pivot_item lst stack_index =? NULL then false else is_valid)
    1 (Z.to_nat (depth - 1)) is_valid.

(** "the stacked pivot indices should decrease as you ascend from the bottom
    of the pivot stack." *)
Definition validate_pivot_indices (lst : lst_t) (depth : Z)
  (pivot_indices_in_order : bool) : bool :=
  for_loop
    (fun stack_index pivot_indices_in_order =>
       let current_pivot_index := stack_item (s lst) stack_index in
       let previous_pivot_index := stack_item (s lst) (stack_index + 1) in
       if previous_pivot_index >=? current_pivot_index then false
       else pivot_indices_in_order)
    0 (Z.to_nat (depth - 1)) pivot_indices_in_order.

(** "values in buckets shouldn't follow the pivot to the immediate right (if
    it exists) and shouldn't precede the pivot to the immediate left (if it
    exists)." *)
Definition validate_buckets (lst : lst_t) (depth : Z) (is_valid : bool) : bool :=
  for_loop
    (fun stack_index is_valid =>
       let is_valid :=
         if stack_index >? 0 then
           let lwb := if stack_index + 1 =? depth then idx lst
                      else stack_item (s lst) (stack_index + 1) in
           let upb := stack_item (s lst) stack_index in
           let pivot_index := upb in
           let pivot := item lst pivot_index in
           for_loop
             (fun index is_valid =>
                let element := item lst index in
                if negb (element =? NULL) && negb (pivot =? NULL)
                   && (cmp element pivot >? 0)
                then false else is_valid)
             lwb (Z.to_nat (upb - lwb)) is_valid
         else is_valid in
       if stack_index + 1 <? depth then
         let upb := stack_item (s lst) stack_index in
         let lwb := stack_item (s lst) (stack_index + 1) in
         let pivot_index := lwb in
         let pivot := item lst pivot_index in
         for_loop
           (fun index is_valid =>
              let element := item lst index in
              if negb (element =? NULL) && negb (pivot =? NULL)
                 && (cmp pivot element >? 0)
              then false else is_valid)
           lwb (Z.to_nat (upb - lwb)) is_valid
       else is_valid)
    0 (Z.to_nat depth) is_valid.

Definition lst_validate (lst : lst_t) : bool :=
  let depth := stack_depth (s lst) in
  let pivots_in_order := true in
  let pivot_indices_in_order := true in
  let is_valid := true in
  if depth <? 1 then false
  else
    let fake_pivot_index := stack_item (s lst) 0 in
    let reduced_fake_pivot_index := index_reduce lst fake_pivot_index in
    let reduced_end := index_reduce lst (idx lst + num_elements lst) in
    let is_valid :=
      if negb (reduced_fake_pivot_index =? reduced_end) then false else is_valid in
    let is_valid := validate_bucket_sizes lst depth is_valid in
    let is_valid := validate_elements lst is_valid in
    if is_bucket lst 0 then is_valid
    else
      let pivots_in_order := validate_pivots_in_order lst depth pivots_in_order in
      let is_valid := if negb pivots_in_order then false else is_valid in
      let is_valid := validate_pivots lst depth is_valid in
      let pivot_indices_in_order :=
        validate_pivot_indices lst depth pivot_indices_in_order in
      let is_valid := if negb pivot_indices_in_order then false else is_valid in
      validate_buckets lst depth is_valid.

End Validate.

(** * Part I: arrays, loops and index arithmetic *)

Lemma array_set_length {A : Type} (l : list A) (i : nat) (v : A) :
  length (array_set l i v) = length l.
Proof.
  revert i; induction l as [|x t IH]; intros [|i]; simpl; auto.
Qed.

Lemma nth_array_set_eq {A : Type} (l : list A) (i : nat) (v d : A) :
  (i < length l)%nat -> nth i (array_set l i v) d = v.
Proof.
  revert i; induction l as [|x t IH]; intros [|i] H; simpl in *; try lia; auto.
  apply IH; lia.
Qed.

Lemma nth_array_set_neq {A : Type} (l : list A) (i j : nat) (v d : A) :
  i <> j -> nth j (array_set l i v) d = nth j l d.
Proof.
  revert i j; induction l as [|x t IH]; intros [|i] [|j] H; simpl; auto; try lia.
Qed.

Lemma nth_app_repeat {A : Type} (l : list A) (k i : nat) (d : A) :
  nth i (l ++ repeat d k) d = nth i l d.
Proof.
  destruct (Nat.lt_ge_cases i (length l)) as [H|H].
  - now rewrite app_nth1.
  - rewrite app_nth2 by lia. rewrite (nth_overflow l) by lia.
    apply nth_repeat.
Qed.

Lemma for_loop_snoc {A : Type} (body : Z -> A -> A) (i : Z) (n : nat) (a : A) :
  for_loop body i (S n) a = body (i + Z.of_nat n) (for_loop body i n a).
Proof.
  revert i a; induction n as [|n IH]; intros i a.
  - simpl. now rewrite Z.add_0_r.
  - change (for_loop body i (S (S n)) a) with (for_loop body (i + 1) (S n) (body i a)).
    rewrite IH. simpl for_loop. f_equal. lia.
Qed.

(** Loop invariants for [for_loop]. *)
Lemma for_loop_ind {A : Type} (body : Z -> A -> A) (P : Z -> A -> Prop) (n : nat) (a : A) :
  P 0 a ->
  (forall i x, 0 <= i < Z.of_nat n -> P i x -> P (i + 1) (body i x)) ->
  P (Z.of_nat n) (for_loop body 0 n a).
Proof.
  intros H0 Hstep. induction n as [|n IH].
  - exact H0.
  - rewrite for_loop_snoc. rewrite Nat2Z.inj_succ. unfold Z.succ.
    simpl (0 + Z.of_nat n). apply Hstep; [lia|].
    apply IH. intros i x Hi. apply Hstep. lia.
Qed.

Definition pow2 (c : Z) : Prop := exists k, 0 <= k /\ c = 2 ^ k.

Lemma pow2_pos c : pow2 c -> 0 < c.
Proof. intros [k [Hk ->]]. apply Z.pow_pos_nonneg; lia. Qed.

Lemma pow2_double c : pow2 c -> pow2 (2 * c).
Proof.
  intros [k [Hk ->]]. exists (k + 1). split; [lia|].
  rewrite Z.pow_add_r by lia. lia.
Qed.

Lemma land_pow2_mod c j : pow2 c -> Z.land j (c - 1) = j mod c.
Proof.
  intros [k [Hk ->]].
  replace (2 ^ k - 1) with (Z.ones k) by (rewrite Z.ones_equiv; lia).
  now apply Z.land_ones.
Qed.

(** Two logical indices less than a capacity apart occupy different slots. *)
Lemma mod_window_inj c a b :
  0 < c -> Z.abs (a - b) < c -> a mod c = b mod c -> a = b.
Proof.
  intros Hc Hab Hm.
  assert (H : (a - b) mod c = 0).
  { rewrite Zminus_mod, Hm, Z.sub_diag. apply Zmod_0_l. }
  apply Z.mod_divide in H; [|lia]. destruct H as [q Hq].
  assert (q = 0) by nia. lia.
Qed.

Lemma mod_shift c a : 0 < c -> (a + c) mod c = a mod c.
Proof.
  intros Hc. replace (a + c) with (a + 1 * c) by lia. apply Z_mod_plus_full.
Qed.

Lemma mod_unshift c a : 0 < c -> (a - c) mod c = a mod c.
Proof.
  intros Hc. replace (a - c) with (a + (-1) * c) by lia. apply Z_mod_plus_full.
Qed.

(** Recovering a logical index in the window [low, high] from its slot, as
    [partition] does for the pivot. *)
Lemma recover_index c low high j :
  0 < c -> low <= j <= high -> high - low < c ->
  (if j mod c >=? low mod c
   then low + j mod c - low mod c
   else high - (high mod c - j mod c)) = j.
Proof.
  intros Hc Hj Hw.
  pose proof (Z.mod_pos_bound low c Hc) as Hl.
  pose proof (Z.mod_pos_bound j c Hc) as Hjm.
  pose proof (Z.mod_pos_bound high c Hc) as Hh.
  pose proof (Z.div_mod low c ltac:(lia)) as El.
  pose proof (Z.div_mod j c ltac:(lia)) as Ej.
  pose proof (Z.div_mod high c ltac:(lia)) as Eh.
  destruct (j mod c >=? low mod c) eqn:E.
  - apply Z.geb_le in E.
    assert (j / c = low / c) by nia. nia.
  - rewrite Z.geb_leb in E. apply Z.leb_gt in E.
    assert (j / c = low / c + 1) by nia.
    assert (high / c = j / c) by nia. nia.
Qed.

(** * Part II: the representation invariant *)

(** ** The pivot stack as a function of the stack index *)

Lemma stack_item_set (st : pivot_stack_t) (k k' v : Z) :
  Z.of_nat (length (data st)) = size st -> 0 <= k < size st -> 0 <= k' ->
  stack_item (stack_set st k v) k' = if k' =? k then v else stack_item st k'.
Proof.
  intros Hlen Hk Hk'. unfold stack_item, stack_set; simpl.
  destruct (Z.eqb_spec k' k) as [->|Hne].
  - apply nth_array_set_eq. lia.
  - apply nth_array_set_neq. lia.
Qed.

Lemma stack_item_push (st : pivot_stack_t) (v k : Z) :
  Z.of_nat (length (data st)) = size st -> 0 <= depth st <= size st -> 1 <= size st ->
  0 <= k ->
  stack_item (stack_push st v) k = if k =? depth st then v else stack_item st k.
Proof.
  intros Hlen Hd Hs Hk. unfold stack_item, stack_push, stack_expand.
  destruct (Z.eqb_spec (depth st) (size st)) as [E|E]; cbn [depth size data];
    (destruct (Z.eqb_spec k (depth st)) as [->|Hne];
     [ apply nth_array_set_eq; rewrite ?length_app, ?repeat_length; lia
     | rewrite nth_array_set_neq by lia; rewrite ?nth_app_repeat; reflexivity ]).
Qed.

Lemma stack_push_depth st v : depth (stack_push st v) = depth st + 1.
Proof. unfold stack_push. destruct (depth st =? size st); reflexivity. Qed.

Lemma stack_push_wf st v :
  Z.of_nat (length (data st)) = size st -> 0 <= depth st <= size st -> 1 <= size st ->
  Z.of_nat (length (data (stack_push st v))) = size (stack_push st v)
  /\ depth (stack_push st v) <= size (stack_push st v).
Proof.
  intros Hlen Hd Hs. unfold stack_push, stack_expand.
  destruct (Z.eqb_spec (depth st) (size st)) as [E|E]; cbn [depth size data];
    rewrite array_set_length, ?length_app, ?repeat_length; lia.
Qed.

(** ** Well-formed states *)

Record wf (lst : lst_t) : Prop := {
  wf_cap : pow2 (capacity lst);
  wf_len : Z.of_nat (length (p lst)) = capacity lst;
  wf_size : Z.of_nat (length (data (s lst))) = size (s lst);
  wf_depth : 1 <= depth (s lst) <= size (s lst)
}.

Lemma index_reduce_mod lst j :
  pow2 (capacity lst) -> index_reduce lst j = j mod capacity lst.
Proof. intros H. unfold index_reduce. now apply land_pow2_mod. Qed.

Lemma is_equivalent_spec lst a b :
  wf lst -> is_equivalent lst a b = ((a - b) mod capacity lst =? 0).
Proof. intros H. unfold is_equivalent. rewrite index_reduce_mod by apply H. reflexivity. Qed.

Lemma item_periodic lst j : wf lst -> item lst (j + capacity lst) = item lst j.
Proof.
  intros H. unfold item. rewrite !index_reduce_mod by apply H.
  rewrite mod_shift by (apply pow2_pos, H). reflexivity.
Qed.

Lemma item_periodic_sub lst j : wf lst -> item lst (j - capacity lst) = item lst j.
Proof.
  intros H. rewrite <- (item_periodic lst (j - capacity lst)) by assumption.
  f_equal. lia.
Qed.

(** ** lst_move *)

Lemma lst_move_wf lst loc d : wf lst -> wf (lst_move lst loc d).
Proof.
  intros [H1 H2 H3 H4]. constructor; simpl; auto.
  now rewrite array_set_length.
Qed.

Lemma lst_move_item lst loc d j :
  wf lst ->
  item (lst_move lst loc d) j =
  if loc mod capacity lst =? j mod capacity lst then d else item lst j.
Proof.
  intros H. pose proof (pow2_pos _ (wf_cap _ H)) as Hc.
  unfold item, lst_move, set_item; simpl.
  change (index_reduce (set_item_index _ _ _) j) with (index_reduce lst j).
  change (index_reduce (with_p lst _) loc) with (index_reduce lst loc).
  unfold index_reduce at 1; simpl. fold (index_reduce lst j).
  rewrite !index_reduce_mod by apply H.
  pose proof (Z.mod_pos_bound loc _ Hc). pose proof (Z.mod_pos_bound j _ Hc).
  destruct (Z.eqb_spec (loc mod capacity lst) (j mod capacity lst)) as [E|E].
  - rewrite E. apply nth_array_set_eq. pose proof (wf_len _ H). lia.
  - apply nth_array_set_neq. lia.
Qed.

Lemma lst_move_index_of lst loc d q :
  wf lst ->
  index_of (lst_move lst loc d) q =
  if q =? d then loc mod capacity lst else index_of lst q.
Proof.
  intros H. unfold lst_move, set_item_index, set_item; simpl.
  change (index_reduce (with_p lst _) loc) with (index_reduce lst loc).
  now rewrite index_reduce_mod by apply H.
Qed.

Lemma lst_move_frame lst loc d :
  capacity (lst_move lst loc d) = capacity lst
  /\ idx (lst_move lst loc d) = idx lst
  /\ num_elements (lst_move lst loc d) = num_elements lst
  /\ s (lst_move lst loc d) = s lst
  /\ rand_state (lst_move lst loc d) = rand_state lst.
Proof. repeat split. Qed.

(** ** The logical invariant

    The invariant is stated on a logical view of the state: the capacity [C],
    the first logical index [i0], the number of elements [N], the stack depth
    [d], the stack as a function [S] of the stack index, the array as a
    function [it] of the logical index, and the handle fields [hd].

    While [bucket_add] and [bucket_delete] shuffle elements, one logical
    position [g] of the window is a hole whose contents do not count; a state
    at rest has its hole just past the window, at [i0 + N].  The ordering
    clauses speak of the pivots [1 .. dord - 1] only, which lets the clauses
    describe the stack entry that [lst_flatten] has just discarded and that
    [bucket_add] still reads. *)

Section Logical.

Variable cmp : ptr -> ptr -> Z.

Record LInv (C i0 N d dord : Z) (S : Z -> Z) (it : Z -> ptr) (hd : ptr -> Z) (g : Z)
  : Prop := {
  L_C : 0 < C;
  L_N : 0 <= N <= C;
  L_d : 1 <= dord <= d;
  L_s0 : S 0 = i0 + N;
  L_dec : forall k, 0 <= k < d - 1 -> S (k + 1) < S k;
  L_top : i0 <= S (d - 1);
  L_hole : forall k, 1 <= k < d -> S k <> g;
  L_hd : forall j, i0 <= j < i0 + N -> j <> g -> hd (it j) = j mod C;
  L_left : forall k j, 1 <= k < dord -> i0 <= j < S k -> j <> g ->
                       cmp (it j) (it (S k)) <= 0;
  L_right : forall k j, 1 <= k < dord -> S k < j < i0 + N -> j <> g ->
                        cmp (it j) (it (S k)) >= 0
}.

Definition total_preorder : Prop :=
  (forall a b, Z.sgn (cmp a b) = - Z.sgn (cmp b a))
  /\ (forall a b c, cmp a b <= 0 -> cmp b c <= 0 -> cmp a c <= 0).

Section Order.

Hypothesis cmp_ok : total_preorder.

Lemma cmp_refl a : cmp a a = 0.
Proof.
  destruct cmp_ok as [H _]. specialize (H a a).
  destruct (cmp a a); simpl in H; try discriminate; reflexivity.
Qed.

Lemma cmp_flip_le a b : cmp a b <= 0 <-> cmp b a >= 0.
Proof.
  destruct cmp_ok as [H _]. specialize (H a b).
  destruct (cmp a b), (cmp b a); simpl in H; try discriminate; split; lia.
Qed.

Lemma cmp_flip_lt a b : cmp a b < 0 <-> cmp b a > 0.
Proof.
  destruct cmp_ok as [H _]. specialize (H a b).
  destruct (cmp a b), (cmp b a); simpl in H; try discriminate; split; lia.
Qed.

Lemma cmp_le_trans a b c : cmp a b <= 0 -> cmp b c <= 0 -> cmp a c <= 0.
Proof. destruct cmp_ok as [_ H]. apply H. Qed.

Lemma cmp_ge_trans a b c : cmp a b >= 0 -> cmp b c >= 0 -> cmp a c >= 0.
Proof.
  intros H1 H2. apply cmp_flip_le. apply cmp_flip_le in H1, H2.
  eapply cmp_le_trans; eassumption.
Qed.

Lemma cmp_lt_le_trans a b c : cmp a b < 0 -> cmp b c <= 0 -> cmp a c < 0.
Proof.
  intros H1 H2. destruct (Z_lt_ge_dec (cmp a c) 0) as [H|H]; [exact H|].
  apply cmp_flip_le in H.
  assert (cmp b a <= 0) by (eapply cmp_le_trans; eassumption).
  apply cmp_flip_lt in H1. lia.
Qed.

End Order.

Section Facts.

Context {C i0 N d dord : Z} {S : Z -> Z} {it : Z -> ptr} {hd : ptr -> Z} {g : Z}.
Hypothesis HL : LInv C i0 N d dord S it hd g.

Lemma L_mono k k' : 0 <= k -> k < k' -> k' < d -> S k' < S k.
Proof.
  intros Hk Hlt Hd.
  replace k' with (k + 1 + Z.of_nat (Z.to_nat (k' - k - 1))) in * by lia.
  induction (Z.to_nat (k' - k - 1)) as [|n IH].
  - rewrite Z.add_0_r. apply (L_dec _ _ _ _ _ _ _ _ _ HL). lia.
  - rewrite Nat2Z.inj_succ in *. 
    assert (S (k + 1 + Z.of_nat n + 1) < S (k + 1 + Z.of_nat n))
      by (apply (L_dec _ _ _ _ _ _ _ _ _ HL); lia).
    replace (k + 1 + Z.succ (Z.of_nat n)) with (k + 1 + Z.of_nat n + 1) by lia.
    specialize (IH ltac:(lia) ltac:(lia)). lia.
Qed.

Lemma L_inj_S k k' : 0 <= k < d -> 0 <= k' < d -> S k = S k' -> k = k'.
Proof.
  intros Hk Hk' E.
  destruct (Z.lt_trichotomy k k') as [H|[H|H]]; auto.
  - pose proof (L_mono k k'). lia.
  - pose proof (L_mono k' k). lia.
Qed.

Lemma L_bounds k : 0 <= k < d -> i0 <= S k <= i0 + N.
Proof.
  intros Hk. pose proof (L_top _ _ _ _ _ _ _ _ _ HL) as Ht.
  pose proof (L_s0 _ _ _ _ _ _ _ _ _ HL) as H0.
  assert (S k <= S 0).
  { destruct (Z.eq_dec k 0) as [->|]; [lia|]. pose proof (L_mono 0 k). lia. }
  assert (S (d - 1) <= S k).
  { destruct (Z.eq_dec k (d - 1)) as [->|]; [lia|]. pose proof (L_mono k (d - 1)). lia. }
  lia.
Qed.

Lemma L_bounds_pivot k : 1 <= k < d -> i0 <= S k < i0 + N.
Proof.
  intros Hk. pose proof (L_bounds k). pose proof (L_mono 0 k).
  pose proof (L_s0 _ _ _ _ _ _ _ _ _ HL). lia.
Qed.

(** Handles make the residents pairwise distinct. *)
Lemma L_inj j j' :
  i0 <= j < i0 + N -> i0 <= j' < i0 + N -> j <> g -> j' <> g ->
  it j = it j' -> j = j'.
Proof.
  intros Hj Hj' Hg Hg' E.
  pose proof (L_hd _ _ _ _ _ _ _ _ _ HL j Hj Hg) as H1.
  pose proof (L_hd _ _ _ _ _ _ _ _ _ HL j' Hj' Hg') as H2.
  rewrite E in H1. rewrite H1 in H2.
  pose proof (L_N _ _ _ _ _ _ _ _ _ HL).
  apply (mod_window_inj C); [apply HL | lia | congruence].
Qed.

End Facts.

(** ** Elementary steps on the logical view *)

(** An element moves into the hole from another position of the same bucket;
    the hole is then where the element was. *)
Lemma LInv_move C i0 N d dord S it hd g j0 it' hd' :
  LInv C i0 N d dord S it hd g ->
  i0 <= g < i0 + N -> i0 <= j0 < i0 + N -> j0 <> g ->
  (forall k, 1 <= k < d -> S k <> j0) ->
  (forall k, 1 <= k < dord -> (j0 < S k <-> g < S k)) ->
  it' g = it j0 ->
  (forall j, i0 <= j < i0 + N -> j <> g -> j <> j0 -> it' j = it j) ->
  hd' (it j0) = g mod C ->
  (forall q, q <> it j0 -> hd' q = hd q) ->
  LInv C i0 N d dord S it' hd' j0.
Proof.
  intros HL Hg Hj0 Hne Hpiv Hsame Eg Eit Ehd Ehd'.
  assert (Hinj := fun j j' => L_inj HL j j').
  assert (Hb := fun k => L_bounds_pivot HL k).
  destruct HL as [HC HN Hd Hs0 Hdec Htop Hhole Hhd Hleft Hright].
  assert (EitS : forall k, 1 <= k < d -> it' (S k) = it (S k)).
  { intros k Hk. apply Eit; [apply Hb; lia | apply Hhole; lia | apply Hpiv; lia]. }
  constructor; try assumption.
  - intros j Hj Hjn. destruct (Z.eq_dec j g) as [->|Hjg].
    + now rewrite Eg.
    + rewrite Eit by auto. rewrite Ehd'; [apply Hhd; auto|].
      intros E. apply Hjn. apply Hinj; auto.
  - intros k j Hk Hj Hjn. rewrite EitS by lia. pose proof (Hb k ltac:(lia)).
    destruct (Z.eq_dec j g) as [->|Hjg].
    + rewrite Eg. apply Hleft; auto. split; [lia|]. apply Hsame; auto. lia.
    + rewrite Eit by (auto; lia). apply Hleft; auto; lia.
  - intros k j Hk Hj Hjn. rewrite EitS by lia. pose proof (Hb k ltac:(lia)).
    destruct (Z.eq_dec j g) as [->|Hjg].
    + rewrite Eg. apply Hright; auto. split; [|lia].
      specialize (Hsame k Hk). specialize (Hpiv k ltac:(lia)). lia.
    + rewrite Eit by (auto; lia). apply Hright; auto; lia.
Qed.

(** The pivot of stack index [k0] steps into the hole next to it, and its
    stack entry follows; the hole is then where the pivot was. *)
Lemma LInv_pivot_shift C i0 N d dord S it hd g k0 S' it' hd' :
  LInv C i0 N d dord S it hd g ->
  i0 <= g < i0 + N -> 1 <= k0 < d ->
  (g = S k0 + 1 \/ g = S k0 - 1) ->
  S' k0 = g ->
  (forall k, 0 <= k < d -> k <> k0 -> S' k = S k) ->
  it' g = it (S k0) ->
  (forall j, i0 <= j < i0 + N -> j <> g -> j <> S k0 -> it' j = it j) ->
  hd' (it (S k0)) = g mod C ->
  (forall q, q <> it (S k0) -> hd' q = hd q) ->
  LInv C i0 N d dord S' it' hd' (S k0).
Proof.
  intros HL Hg Hk0 Hadj ES0 ES Eg Eit Ehd Ehd'.
  assert (Hinj := fun j j' => L_inj HL j j').
  assert (Hb := fun k => L_bounds_pivot HL k).
  assert (Hmono := fun k k' => L_mono HL k k').
  assert (HinjS := fun k k' => L_inj_S HL k k').
  destruct HL as [HC HN Hd Hs0 Hdec Htop Hhole Hhd Hleft Hright].
  assert (HS' : forall k, 0 <= k < d -> S' k = if k =? k0 then g else S k).
  { intros k Hk. destruct (Z.eqb_spec k k0) as [->|]; auto. }
  assert (HqS : forall k, 1 <= k < d -> k <> k0 -> S k <> S k0).
  { intros k Hk Hne E. apply Hne. apply HinjS; auto; lia. }
  assert (EitS : forall k, 1 <= k < d -> k <> k0 -> it' (S k) = it (S k)).
  { intros k Hk Hne. apply Eit; [apply Hb; lia | apply Hhole; lia | apply HqS; auto]. }
  pose proof (Hb k0 Hk0) as Hbk0.
  constructor; try assumption.
  - rewrite HS' by lia. destruct (Z.eqb_spec 0 k0); [lia|auto].
  - intros k Hk. rewrite !HS' by lia.
    destruct (Z.eqb_spec (k + 1) k0) as [E1|E1]; destruct (Z.eqb_spec k k0) as [E2|E2];
      try lia.
    + (* k + 1 = k0 *)
      subst k0. specialize (Hdec k Hk).
      destruct (Z.eq_dec k 0) as [->|Hk1]; [lia|].
      specialize (Hhole k ltac:(lia)). lia.
    + subst k. specialize (Hdec k0 ltac:(lia)). specialize (Hhole (k0 + 1) ltac:(lia)). lia.
    + apply Hdec; lia.
  - rewrite HS' by lia. destruct (Z.eqb_spec (d - 1) k0); lia.
  - intros k Hk. rewrite HS' by lia. destruct (Z.eqb_spec k k0) as [->|Hne]; [lia|].
    apply HqS; auto.
  - intros j Hj Hjn. destruct (Z.eq_dec j g) as [->|Hjg].
    + rewrite Eg. exact Ehd.
    + rewrite Eit by auto. rewrite Ehd'; [apply Hhd; auto|].
      intros E. apply Hjn. apply Hinj; auto; lia.
  - intros k j Hk Hj Hjn. rewrite HS' in * by lia. pose proof (Hb k ltac:(lia)).
    destruct (Z.eqb_spec k k0) as [->|Hne].
    + rewrite Eg, Eit by lia. apply Hleft; auto; lia.
    + rewrite EitS by lia.
      specialize (HqS k ltac:(lia) Hne). specialize (Hhole k ltac:(lia)).
      destruct (Z.eq_dec j g) as [->|Hjg].
      * rewrite Eg. apply Hleft; auto; lia.
      * rewrite Eit by lia. apply Hleft; auto; lia.
  - intros k j Hk Hj Hjn. rewrite HS' in * by lia. pose proof (Hb k ltac:(lia)).
    destruct (Z.eqb_spec k k0) as [->|Hne].
    + rewrite Eg, Eit by lia. apply Hright; auto; lia.
    + rewrite EitS by lia.
      specialize (HqS k ltac:(lia) Hne). specialize (Hhole k ltac:(lia)).
      destruct (Z.eq_dec j g) as [->|Hjg].
      * rewrite Eg. apply Hright; auto; lia.
      * rewrite Eit by lia. apply Hright; auto; lia.
Qed.

(** The view may change outside of what the invariant reads. *)
Lemma LInv_ext C i0 N d dord S it hd g S' it' hd' :
  LInv C i0 N d dord S it hd g ->
  (forall k, 0 <= k < d -> S' k = S k) ->
  (forall j, i0 <= j < i0 + N -> j <> g -> it' j = it j) ->
  (forall j, i0 <= j < i0 + N -> j <> g -> hd' (it j) = hd (it j)) ->
  LInv C i0 N d dord S' it' hd' g.
Proof.
  intros HL ES Eit Ehd.
  assert (Hb := fun k => L_bounds_pivot HL k).
  destruct HL as [HC HN Hd Hs0 Hdec Htop Hhole Hhd Hleft Hright].
  constructor; try assumption.
  - rewrite ES by lia. assumption.
  - intros k Hk. rewrite !ES by lia. auto.
  - rewrite ES by lia. assumption.
  - intros k Hk. rewrite ES by lia. auto.
  - intros j Hj Hg. rewrite Eit, Ehd by auto. auto.
  - intros k j Hk Hj Hg. rewrite ES in * by lia.
    pose proof (Hb k ltac:(lia)).
    rewrite !Eit; auto; try lia. apply Hhole; lia.
  - intros k j Hk Hj Hg. rewrite ES in * by lia.
    pose proof (Hb k ltac:(lia)).
    rewrite !Eit; auto; try lia. apply Hhole; lia.
Qed.

(** Two elements of one bucket change places. *)
Lemma LInv_swap C i0 N d dord S it hd g x y it' hd' :
  LInv C i0 N d dord S it hd g ->
  i0 <= x < i0 + N -> i0 <= y < i0 + N -> x <> y -> x <> g -> y <> g ->
  (forall k, 1 <= k < d -> S k <> x /\ S k <> y) ->
  (forall k, 1 <= k < dord -> (x < S k <-> y < S k)) ->
  it' x = it y -> it' y = it x ->
  (forall j, i0 <= j < i0 + N -> j <> g -> j <> x -> j <> y -> it' j = it j) ->
  hd' (it x) = y mod C -> hd' (it y) = x mod C ->
  (forall q, q <> it x -> q <> it y -> hd' q = hd q) ->
  LInv C i0 N d dord S it' hd' g.
Proof.
  intros HL Hx Hy Hxy Hxg Hyg Hpiv Hsame Ex Ey Eit Ehx Ehy Ehd.
  assert (Hinj := fun j j' => L_inj HL j j').
  assert (Hb := fun k => L_bounds_pivot HL k).
  destruct HL as [HC HN Hd Hs0 Hdec Htop Hhole Hhd Hleft Hright].
  assert (EitS : forall k, 1 <= k < d -> it' (S k) = it (S k)).
  { intros k Hk. destruct (Hpiv k Hk). apply Eit; auto. }
  constructor; try assumption.
  - intros j Hj Hjg.
    destruct (Z.eq_dec j x) as [->|Hjx]; [now rewrite Ex|].
    destruct (Z.eq_dec j y) as [->|Hjy]; [now rewrite Ey|].
    rewrite Eit by auto.
    rewrite Ehd; [ apply Hhd; auto
                 | intros E; apply Hjx; apply Hinj; auto
                 | intros E; apply Hjy; apply Hinj; auto ].
  - intros k j Hk Hj Hjg. rewrite EitS by lia.
    pose proof (Hb k ltac:(lia)). destruct (Hpiv k ltac:(lia)).
    specialize (Hsame k Hk).
    destruct (Z.eq_dec j x) as [->|Hjx]; [rewrite Ex; apply Hleft; auto; lia|].
    destruct (Z.eq_dec j y) as [->|Hjy]; [rewrite Ey; apply Hleft; auto; lia|].
    rewrite Eit by (auto; lia). apply Hleft; auto.
  - intros k j Hk Hj Hjg. rewrite EitS by lia.
    pose proof (Hb k ltac:(lia)). destruct (Hpiv k ltac:(lia)).
    specialize (Hsame k Hk).
    destruct (Z.eq_dec j x) as [->|Hjx]; [rewrite Ex; apply Hright; auto; lia|].
    destruct (Z.eq_dec j y) as [->|Hjy]; [rewrite Ey; apply Hright; auto; lia|].
    rewrite Eit by (auto; lia). apply Hright; auto.
Qed.

(** A new element fills the hole. *)
Lemma LInv_fill C i0 N d dord S it hd g x it' hd' :
  LInv C i0 N d dord S it hd g ->
  i0 <= g < i0 + N ->
  (forall j, i0 <= j < i0 + N -> j <> g -> it j <> x) ->
  (forall k, 1 <= k < dord ->
             (g < S k -> cmp x (it (S k)) <= 0) /\ (S k < g -> cmp x (it (S k)) >= 0)) ->
  it' g = x ->
  (forall j, i0 <= j < i0 + N -> j <> g -> it' j = it j) ->
  hd' x = g mod C ->
  (forall q, q <> x -> hd' q = hd q) ->
  LInv C i0 N d dord S it' hd' (i0 + N).
Proof.
  intros HL Hg Hfresh Hord Eg Eit Ehx Ehd.
  assert (Hb := fun k => L_bounds_pivot HL k).
  destruct HL as [HC HN Hd Hs0 Hdec Htop Hhole Hhd Hleft Hright].
  assert (EitS : forall k, 1 <= k < d -> it' (S k) = it (S k)).
  { intros k Hk. apply Eit; [apply Hb; lia | apply Hhole; lia]. }
  constructor; try assumption.
  - intros k Hk. pose proof (Hb k Hk). lia.
  - intros j Hj _. destruct (Z.eq_dec j g) as [->|Hjg].
    + now rewrite Eg.
    + rewrite Eit by auto. rewrite Ehd; auto.
  - intros k j Hk Hj _. rewrite EitS by lia. pose proof (Hb k ltac:(lia)).
    destruct (Z.eq_dec j g) as [->|Hjg].
    + rewrite Eg. apply Hord; auto; lia.
    + rewrite Eit by (auto; lia). apply Hleft; auto.
  - intros k j Hk Hj _. rewrite EitS by lia. pose proof (Hb k ltac:(lia)).
    destruct (Z.eq_dec j g) as [->|Hjg].
    + rewrite Eg. apply Hord; auto; lia.
    + rewrite Eit by (auto; lia). apply Hright; auto.
Qed.

(** The window grows by one slot at its upper end; the new slot is a hole. *)
Lemma LInv_grow C i0 N d dord S it hd S' :
  LInv C i0 N d dord S it hd (i0 + N) ->
  N < C ->
  S' 0 = S 0 + 1 ->
  (forall k, 1 <= k < d -> S' k = S k) ->
  LInv C i0 (N + 1) d dord S' it hd (i0 + N).
Proof.
  intros HL HNC E0 ES.
  assert (Hb := fun k => L_bounds_pivot HL k).
  assert (Hb0 := fun k => L_bounds HL k).
  destruct HL as [HC HN Hd Hs0 Hdec Htop Hhole Hhd Hleft Hright].
  constructor; try assumption; try lia.
  - intros k Hk. destruct (Z.eq_dec k 0) as [->|Hk0].
    + rewrite E0. destruct (Z.eq_dec d 1); [lia|].
      rewrite ES by lia. specialize (Hdec 0 ltac:(lia)). lia.
    + rewrite !ES by lia. apply Hdec; lia.
  - destruct (Z.eq_dec d 1) as [->|Hd1].
    + change (1 - 1) with 0 in *. rewrite E0. lia.
    + rewrite ES by lia. assumption.
  - intros k Hk. rewrite ES by lia. pose proof (Hb k Hk). lia.
  - intros j Hj Hg. apply Hhd; lia.
  - intros k j Hk Hj Hg. rewrite ES in * by lia. apply Hleft; auto; lia.
  - intros k j Hk Hj Hg. rewrite ES in * by lia. apply Hright; auto; lia.
Qed.

(** The hole is the last slot of the window, and the window gives it up. *)
Lemma LInv_shrink C i0 N d dord S it hd S' :
  LInv C i0 N d dord S it hd (i0 + N - 1) ->
  1 <= N ->
  S' 0 = i0 + N - 1 ->
  (forall k, 1 <= k < d -> S' k = S k) ->
  LInv C i0 (N - 1) d dord S' it hd (i0 + (N - 1)).
Proof.
  intros HL HN1 E0 ES.
  assert (Hb := fun k => L_bounds_pivot HL k).
  destruct HL as [HC HN Hd Hs0 Hdec Htop Hhole Hhd Hleft Hright].
  replace (i0 + (N - 1)) with (i0 + N - 1) by lia.
  constructor; try assumption; try lia.
  - intros k Hk. destruct (Z.eq_dec k 0) as [->|Hk0].
    + rewrite E0. rewrite ES by lia. change (0 + 1) with 1.
      pose proof (Hb 1 ltac:(lia)). specialize (Hhole 1 ltac:(lia)). lia.
    + rewrite !ES by lia. apply Hdec; lia.
  - destruct (Z.eq_dec d 1) as [->|Hd1].
    + change (1 - 1) with 0 in *. rewrite E0. lia.
    + rewrite ES by lia. assumption.
  - intros k Hk. rewrite ES by lia. auto.
  - intros j Hj Hg. apply Hhd; lia.
  - intros k j Hk Hj Hg. rewrite ES in * by lia. apply Hleft; auto; lia.
  - intros k j Hk Hj Hg. rewrite ES in * by lia. apply Hright; auto; lia.
Qed.

(** The first element of the window leaves it. *)
Lemma LInv_drop_first C i0 N d dord S it hd :
  LInv C i0 N d dord S it hd (i0 + N) ->
  1 <= N -> i0 < S (d - 1) ->
  LInv C (i0 + 1) (N - 1) d dord S it hd (i0 + 1 + (N - 1)).
Proof.
  intros HL HN1 Htop1.
  destruct HL as [HC HN Hd Hs0 Hdec Htop Hhole Hhd Hleft Hright].
  replace (i0 + 1 + (N - 1)) with (i0 + N) by lia.
  constructor; try assumption; try lia.
  - intros j Hj Hg. apply Hhd; lia.
  - intros k j Hk Hj Hg. apply Hleft; auto; lia.
  - intros k j Hk Hj Hg. apply Hright; auto; lia.
Qed.

(** All logical indices move down by a multiple of the capacity. *)
Lemma LInv_shift C i0 N d dord S it hd g t S' :
  LInv C i0 N d dord S it hd g ->
  t mod C = 0 ->
  (forall k, 0 <= k < d -> S' k = S k - t) ->
  (forall j, it (j - t) = it j) ->
  LInv C (i0 - t) N d dord S' it hd (g - t).
Proof.
  intros HL Ht ES Eit.
  destruct HL as [HC HN Hd Hs0 Hdec Htop Hhole Hhd Hleft Hright].
  assert (Emod : forall j, (j + t) mod C = j mod C).
  { intros j. rewrite Zplus_mod, Ht, Z.add_0_r. apply Z.mod_mod. lia. }
  assert (Eit' : forall j, it j = it (j + t)).
  { intros j. rewrite <- (Eit (j + t)). f_equal. lia. }
  constructor; try assumption.
  - rewrite ES by lia. lia.
  - intros k Hk. rewrite !ES by lia. specialize (Hdec k Hk). lia.
  - rewrite ES by lia. lia.
  - intros k Hk. rewrite ES by lia. specialize (Hhole k Hk). lia.
  - intros j Hj Hg. rewrite Eit', <- Emod. apply Hhd; lia.
  - intros k j Hk Hj Hg. rewrite ES in * by lia.
    rewrite (Eit' j). rewrite (Eit (S k)). apply Hleft; auto; lia.
  - intros k j Hk Hj Hg. rewrite ES in * by lia.
    rewrite (Eit' j). rewrite (Eit (S k)). apply Hright; auto; lia.
Qed.

(** Discarding stack entries ([lst_flatten]) keeps the invariant. *)
Lemma LInv_restrict C i0 N d dord S it hd g d' dord' :
  LInv C i0 N d dord S it hd g ->
  1 <= dord' <= d' -> d' <= d -> dord' <= dord ->
  LInv C i0 N d' dord' S it hd g.
Proof.
  intros HL Hd1 Hd2 Hd3.
  assert (Hb0 := fun k => L_bounds HL k).
  destruct HL as [HC HN Hd Hs0 Hdec Htop Hhole Hhd Hleft Hright].
  constructor; try assumption; try lia.
  - intros k Hk. apply Hdec; lia.
  - apply Hb0; lia.
  - intros k Hk. apply Hhole; lia.
  - intros k j Hk. apply Hleft; lia.
  - intros k j Hk. apply Hright; lia.
Qed.

(** ** The invariant of a state at rest *)

Definition Inv (lst : lst_t) : Prop :=
  wf lst
  /\ 0 <= idx lst < capacity lst
  /\ LInv (capacity lst) (idx lst) (num_elements lst)
          (depth (s lst)) (depth (s lst))
          (stack_item (s lst)) (item lst) (index_of lst)
          (idx lst + num_elements lst).

(** [x] is stored at a logical index of the window. *)
Definition resident (lst : lst_t) (x : ptr) : Prop :=
  exists j, idx lst <= j < idx lst + num_elements lst /\ item lst j = x.

(** The residents in physical order, from [idx] upwards. *)
Definition residents (lst : lst_t) : list ptr :=
  map (fun i => item lst (idx lst + Z.of_nat i)) (seq 0 (Z.to_nat (num_elements lst))).

Definition same_frame (a b : lst_t) : Prop :=
  capacity b = capacity a /\ idx b = idx a /\ num_elements b = num_elements a
  /\ s b = s a /\ rand_state b = rand_state a.

(** [b] holds in the slots [lo .. hi] the elements that [a] holds there, in some
    order, and agrees with [a] on the rest of the window. *)
Definition perm_in (lo hi : Z) (a b : lst_t) : Prop :=
  (forall j, idx a <= j < idx a + num_elements a -> ~ (lo <= j <= hi) ->
             item b j = item a j)
  /\ (forall j, lo <= j <= hi -> exists j', lo <= j' <= hi /\ item b j' = item a j)
  /\ (forall j, lo <= j <= hi -> exists j', lo <= j' <= hi /\ item a j' = item b j).

Definition swap_items (lst : lst_t) (x y : Z) : lst_t :=
  lst_move (lst_move lst x (item lst y)) y (item lst x).

Lemma in_residents lst x : In x (residents lst) <-> resident lst x.
Proof.
  unfold residents, resident. rewrite in_map_iff. split.
  - intros [i [E Hi]]. apply in_seq in Hi. exists (idx lst + Z.of_nat i). split; [lia|auto].
  - intros [j [Hj E]]. exists (Z.to_nat (j - idx lst)). split.
    + rewrite <- E. f_equal. lia.
    + apply in_seq. lia.
Qed.

Lemma classic_resident lst x : resident lst x \/ ~ resident lst x.
Proof.
  destruct (in_dec Z.eq_dec x (residents lst)) as [H|H].
  - left. now apply in_residents.
  - right. intros H'. apply H. now apply in_residents.
Qed.

Lemma residents_length lst : length (residents lst) = Z.to_nat (num_elements lst).
Proof. unfold residents. now rewrite length_map, length_seq. Qed.

Lemma same_frame_refl a : same_frame a a.
Proof. repeat split. Qed.

Lemma same_frame_trans a b c : same_frame a b -> same_frame b c -> same_frame a c.
Proof. unfold same_frame. intuition congruence. Qed.

Lemma perm_in_refl lo hi a : perm_in lo hi a a.
Proof. repeat split; eauto. Qed.

Lemma perm_in_same_items lo hi a b :
  (forall j, item b j = item a j) -> perm_in lo hi a b.
Proof.
  intros E. repeat split; auto; intros j Hj; exists j; split; auto.
Qed.

Lemma perm_in_trans_gen lo hi a b c :
  idx b = idx a -> num_elements b = num_elements a ->
  perm_in lo hi a b -> perm_in lo hi b c -> perm_in lo hi a c.
Proof.
  intros Ei En (A1 & A2 & A3) (B1 & B2 & B3). repeat split.
  - intros j Hj Hn. rewrite B1, A1; auto. rewrite Ei, En. auto.
  - intros j Hj. destruct (A2 j Hj) as [j1 [H1 E1]]. destruct (B2 j1 H1) as [j2 [H2 E2]].
    exists j2. split; congruence.
  - intros j Hj. destruct (B3 j Hj) as [j1 [H1 E1]]. destruct (A3 j1 H1) as [j2 [H2 E2]].
    exists j2. split; congruence.
Qed.

Lemma perm_in_trans lo hi a b c :
  same_frame a b -> perm_in lo hi a b -> perm_in lo hi b c -> perm_in lo hi a c.
Proof.
  intros (Ec & Ei & En & _). now apply perm_in_trans_gen.
Qed.

Lemma perm_in_resident_gen lo hi a b x :
  idx b = idx a -> num_elements b = num_elements a ->
  perm_in lo hi a b ->
  idx a <= lo -> hi < idx a + num_elements a ->
  (resident b x <-> resident a x).
Proof.
  intros Ei En (A1 & A2 & A3) Hlo Hhi. unfold resident.
  rewrite Ei, En. split; intros [j [Hj E]].
  - destruct (Z_le_dec lo j) as [H1|H1]; [destruct (Z_le_dec j hi) as [H2|H2]|].
    + destruct (A3 j (conj H1 H2)) as [j' [Hj' E']]. exists j'. split; [lia|congruence].
    + exists j. rewrite <- A1; auto; lia.
    + exists j. rewrite <- A1; auto; lia.
  - destruct (Z_le_dec lo j) as [H1|H1]; [destruct (Z_le_dec j hi) as [H2|H2]|].
    + destruct (A2 j (conj H1 H2)) as [j' [Hj' E']]. exists j'. split; [lia|congruence].
    + exists j. rewrite A1; auto; lia.
    + exists j. rewrite A1; auto; lia.
Qed.

Lemma eqb_mod_window c a b :
  0 < c -> Z.abs (a - b) < c -> (a mod c =? b mod c) = (a =? b).
Proof.
  intros Hc Hab. destruct (Z.eqb_spec a b) as [->|Hne].
  - apply Z.eqb_refl.
  - apply Z.eqb_neq. intros E. apply Hne. now apply (mod_window_inj c).
Qed.

Lemma Inv_wf lst : Inv lst -> wf lst.
Proof. now intros [H _]. Qed.

Lemma Inv_capacity_pos lst : Inv lst -> 0 < capacity lst.
Proof. intros [H _]. apply pow2_pos, H. Qed.

Lemma Inv_num_elements lst : Inv lst -> 0 <= num_elements lst <= capacity lst.
Proof. intros (_ & _ & H). apply H. Qed.

Lemma Inv_resident_inj lst j j' :
  Inv lst ->
  idx lst <= j < idx lst + num_elements lst ->
  idx lst <= j' < idx lst + num_elements lst ->
  item lst j = item lst j' -> j = j'.
Proof.
  intros (_ & _ & HL) Hj Hj' E. apply (L_inj HL); auto; lia.
Qed.

Lemma NoDup_map_inj_in {A B : Type} (f : A -> B) (l : list A) :
  (forall a b, In a l -> In b l -> f a = f b -> a = b) ->
  NoDup l -> NoDup (map f l).
Proof.
  intros Hinj Hnd. induction Hnd as [|x l Hx Hnd IH]; simpl; constructor.
  - rewrite in_map_iff. intros [y [E Hy]].
    apply Hinj in E; [subst; contradiction | now right | now left].
  - apply IH. intros a b Ha Hb. apply Hinj; now right.
Qed.

Lemma NoDup_residents lst : Inv lst -> NoDup (residents lst).
Proof.
  intros H. unfold residents. 
  apply NoDup_map_inj_in; [|apply seq_NoDup].
  intros a b Ha Hb E. apply in_seq in Ha, Hb.
  apply Inv_resident_inj in E; auto; lia.
Qed.

(** Swapping two elements of the leftmost bucket. *)
Lemma swap_items_spec lst x y :
  Inv lst ->
  idx lst <= x < stack_item (s lst) (depth (s lst) - 1) ->
  idx lst <= y < stack_item (s lst) (depth (s lst) - 1) ->
  x <> y ->
  Inv (swap_items lst x y)
  /\ same_frame lst (swap_items lst x y)
  /\ item (swap_items lst x y) x = item lst y
  /\ item (swap_items lst x y) y = item lst x
  /\ (forall j, idx lst <= j < idx lst + num_elements lst -> j <> x -> j <> y ->
                item (swap_items lst x y) j = item lst j).
Proof.
  intros (Hwf & Hidx & HL) Hx Hy Hxy.
  pose proof (pow2_pos _ (wf_cap _ Hwf)) as Hc.
  pose proof (L_N _ _ _ _ _ _ _ _ _ HL) as HN.
  pose proof (L_d _ _ _ _ _ _ _ _ _ HL) as Hd.
  pose proof (L_bounds HL (depth (s lst) - 1) ltac:(lia)) as Htop.
  assert (Hwf1 : wf (lst_move lst x (item lst y))) by now apply lst_move_wf.
  assert (Eit : forall j, idx lst <= j < idx lst + num_elements lst ->
                 item (swap_items lst x y) j =
                 if j =? y then item lst x else if j =? x then item lst y else item lst j).
  { intros j Hj. unfold swap_items. rewrite lst_move_item by assumption.
    rewrite lst_move_item by assumption.
    change (capacity (lst_move lst x (item lst y))) with (capacity lst).
    rewrite !eqb_mod_window by lia.
    rewrite (Z.eqb_sym y j), (Z.eqb_sym x j). reflexivity. }
  assert (Ehd : forall q, index_of (swap_items lst x y) q =
                 if q =? item lst x then y mod capacity lst
                 else if q =? item lst y then x mod capacity lst else index_of lst q).
  { intros q. unfold swap_items. rewrite lst_move_index_of by assumption.
    rewrite lst_move_index_of by assumption. reflexivity. }
  assert (Hne : item lst x <> item lst y).
  { intros E. apply Hxy. apply (L_inj HL); auto; lia. }
  assert (Ex : item (swap_items lst x y) x = item lst y).
  { rewrite Eit by lia. destruct (Z.eqb_spec x y); [lia|]. now rewrite Z.eqb_refl. }
  assert (Ey : item (swap_items lst x y) y = item lst x).
  { rewrite Eit by lia. now rewrite Z.eqb_refl. }
  assert (Eo : forall j, idx lst <= j < idx lst + num_elements lst -> j <> x -> j <> y ->
                 item (swap_items lst x y) j = item lst j).
  { intros j Hj H1 H2. rewrite Eit by lia.
    destruct (Z.eqb_spec j y); [lia|]. destruct (Z.eqb_spec j x); [lia|]. reflexivity. }
  split; [|split; [repeat split | auto]].
  split; [|split].
  - unfold swap_items. now apply lst_move_wf.
  - exact Hidx.
  - change (LInv (capacity lst) (idx lst) (num_elements lst) (depth (s lst)) (depth (s lst))
                 (stack_item (s lst)) (item (swap_items lst x y))
                 (index_of (swap_items lst x y)) (idx lst + num_elements lst)).
    assert (Hbelow : forall k, 1 <= k < depth (s lst) ->
                       stack_item (s lst) (depth (s lst) - 1) <= stack_item (s lst) k).
    { intros k Hk. destruct (Z.eq_dec k (depth (s lst) - 1)) as [->|Hk'].
      - lia.
      - pose proof (L_mono HL k (depth (s lst) - 1)). lia. }
    apply LInv_swap with (S := stack_item (s lst)) (it := item lst) (hd := index_of lst)
                         (x := x) (y := y); try assumption; try lia.
    + intros k Hk. specialize (Hbelow k Hk). lia.
    + intros k Hk. specialize (Hbelow k Hk). lia.
    + intros j Hj _ H1 H2. auto.
    + rewrite Ehd. now rewrite Z.eqb_refl.
    + rewrite Ehd. destruct (Z.eqb_spec (item lst y) (item lst x)); [congruence|].
      now rewrite Z.eqb_refl.
    + intros q H1 H2. rewrite Ehd.
      destruct (Z.eqb_spec q (item lst x)); [congruence|].
      destruct (Z.eqb_spec q (item lst y)); [congruence|]. reflexivity.
Qed.

Lemma swap_items_perm_in lst x y lo hi :
  lo <= x <= hi -> lo <= y <= hi -> x <> y ->
  idx lst <= lo -> hi < idx lst + num_elements lst ->
  item (swap_items lst x y) x = item lst y ->
  item (swap_items lst x y) y = item lst x ->
  (forall j, idx lst <= j < idx lst + num_elements lst -> j <> x -> j <> y ->
             item (swap_items lst x y) j = item lst j) ->
  perm_in lo hi lst (swap_items lst x y).
Proof.
  intros Hx Hy Hxy Hlo Hhi Ex Ey Eo. repeat split.
  - intros j Hj Hn. apply Eo; auto; lia.
  - intros j Hj.
    destruct (Z.eq_dec j x) as [->|Hjx]; [exists y; auto|].
    destruct (Z.eq_dec j y) as [->|Hjy]; [exists x; auto|].
    exists j. split; [auto|apply Eo; auto; lia].
  - intros j Hj.
    destruct (Z.eq_dec j x) as [->|Hjx]; [exists y; auto|].
    destruct (Z.eq_dec j y) as [->|Hjy]; [exists x; auto|].
    exists j. split; [auto|symmetry; apply Eo; auto; lia].
Qed.

(** * Part III: partition *)

Section Partition.

Hypothesis cmp_ok : total_preorder.

Lemma scan_down_spec fuel lst h pivot lo :
  lo < h -> cmp (item lst lo) pivot <= 0 -> h - lo <= Z.of_nat fuel ->
  exists h1, scan_down cmp fuel lst h pivot = Some h1
             /\ lo <= h1 < h
             /\ cmp (item lst h1) pivot <= 0
             /\ forall j, h1 < j < h -> cmp (item lst j) pivot > 0.
Proof.
  revert h. induction fuel as [|f IH]; intros h Hlo Hs Hf.
  - simpl in Hf. lia.
  - cbn [scan_down]. destruct (cmp (item lst (h - 1)) pivot >? 0) eqn:E.
    + apply Z.gtb_lt in E.
      assert (lo <> h - 1) by (intros ->; lia).
      destruct (IH (h - 1)) as [h1 (E1 & B1 & C1 & A1)]; [lia | auto | lia |].
      exists h1. repeat split; auto; try lia.
      intros j Hj. destruct (Z.eq_dec j (h - 1)) as [->|]; [lia|apply A1; lia].
    + rewrite Z.gtb_ltb in E. apply Z.ltb_ge in E.
      exists (h - 1). repeat split; auto; try lia.
Qed.

Lemma scan_up_spec fuel lst l pivot hi :
  l < hi -> cmp (item lst hi) pivot >= 0 -> hi - l <= Z.of_nat fuel ->
  exists l1, scan_up cmp fuel lst l pivot = Some l1
             /\ l < l1 <= hi
             /\ cmp (item lst l1) pivot >= 0
             /\ forall j, l < j < l1 -> cmp (item lst j) pivot < 0.
Proof.
  revert l. induction fuel as [|f IH]; intros l Hhi Hs Hf.
  - simpl in Hf. lia.
  - cbn [scan_up]. destruct (cmp (item lst (l + 1)) pivot <? 0) eqn:E.
    + apply Z.ltb_lt in E.
      assert (hi <> l + 1) by (intros ->; lia).
      destruct (IH (l + 1)) as [l1 (E1 & B1 & C1 & A1)]; [lia | auto | lia |].
      exists l1. repeat split; auto; try lia.
      intros j Hj. destruct (Z.eq_dec j (l + 1)) as [->|]; [lia|apply A1; lia].
    + apply Z.ltb_ge in E.
      exists (l + 1). repeat split; auto; try lia.
Qed.

(** The state of the Hoare loop between two rounds: either no round has run
    yet and the pivot is the first element of the bucket, or both cursors are
    inside the bucket. *)
Definition hoare_cursors (lst : lst_t) (low high l h : Z) (pivot : ptr) : Prop :=
  (l = low - 1 /\ h = high + 1 /\ low <= high /\ item lst low = pivot)
  \/ (low <= l /\ l < h /\ h <= high).

Lemma hoare_loop_spec pivot fuel : forall lst l h,
  let low := idx lst in
  let high := stack_item (s lst) (depth (s lst) - 1) - 1 in
  Inv lst ->
  hoare_cursors lst low high l h pivot ->
  (forall j, low <= j <= l -> cmp (item lst j) pivot <= 0) ->
  (forall j, h <= j <= high -> cmp (item lst j) pivot >= 0) ->
  h - l + 1 <= Z.of_nat fuel ->
  exists lst' hf,
    hoare_loop cmp fuel lst l h pivot = Some (lst', hf)
    /\ Inv lst' /\ same_frame lst lst' /\ perm_in low high lst lst'
    /\ low <= hf <= high
    /\ (forall j, low <= j <= hf -> cmp (item lst' j) pivot <= 0)
    /\ (forall j, hf < j <= high -> cmp (item lst' j) pivot >= 0).
Proof.
  induction fuel as [|f IH]; intros lst l h low high HI Hcur Hleft Hright Hf.
  - exfalso. destruct Hcur as [(-> & -> & ? & ?)|(? & ? & ?)]; simpl in Hf; lia.
  - assert (Htop : high < idx lst + num_elements lst).
    { destruct HI as (_ & _ & HL).
      pose proof (L_bounds HL (depth (s lst) - 1)).
      pose proof (L_d _ _ _ _ _ _ _ _ _ HL). subst high. lia. }
    (* the sentinels of the two scans *)
    assert (Hlo : exists lo, l <= lo /\ low <= lo /\ lo < h /\ cmp (item lst lo) pivot <= 0).
    { destruct Hcur as [(-> & -> & ? & Ep)|(? & ? & ?)].
      - exists low. repeat split; try lia. rewrite Ep, (cmp_refl cmp_ok). lia.
      - exists l. repeat split; try lia. apply Hleft. lia. }
    assert (Hhi : exists hi, hi <= h /\ hi <= high /\ l < hi /\ cmp (item lst hi) pivot >= 0).
    { destruct Hcur as [(-> & -> & ? & Ep)|(? & ? & ?)].
      - exists low. repeat split; try lia. rewrite Ep, (cmp_refl cmp_ok). lia.
      - exists h. repeat split; try lia. apply Hright. lia. }
    destruct Hlo as (lo & Hlo1 & Hlo2 & Hlo3 & Hlo4).
    destruct Hhi as (hi & Hhi1 & Hhi2 & Hhi3 & Hhi4).
    assert (Hlh : l < h /\ h <= high + 1 /\ low - 1 <= l).
    { destruct Hcur as [(-> & -> & ? & Ep)|(? & ? & ?)]; lia. }
    destruct (scan_down_spec f lst h pivot lo) as (h1 & E1 & B1 & C1 & A1); auto;
      [rewrite Nat2Z.inj_succ in Hf; lia|].
    destruct (scan_up_spec f lst l pivot hi) as (l1 & E2 & B2 & C2 & A2); auto;
      [rewrite Nat2Z.inj_succ in Hf; lia|].
    cbn [hoare_loop]. rewrite E1, E2.
    destruct (l1 >=? h1) eqn:Ecross.
    + apply Z.geb_le in Ecross.
      exists lst, h1. split; [reflexivity|].
      split; [assumption|]. split; [apply same_frame_refl|].
      split; [apply perm_in_refl|]. split; [lia|]. split.
      * intros j Hj.
        destruct (Z_le_dec j l); [apply Hleft; lia|].
        destruct (Z_lt_dec j l1); [specialize (A2 j ltac:(lia)); lia|].
        assert (j = h1) by lia. subst j. assumption.
      * intros j Hj.
        destruct (Z_lt_dec j h); [specialize (A1 j ltac:(lia)); lia|].
        apply Hright. lia.
    + rewrite Z.geb_leb in Ecross. apply Z.leb_gt in Ecross.
      fold (swap_items lst l1 h1).
      destruct (swap_items_spec lst l1 h1 HI) as (HI1 & Hfr & Ex & Ey & Eo);
        [subst low high; lia | subst low high; lia | lia |].
      pose proof Hfr as (Ec & Ei & En & Es & Er).
      assert (Hperm : perm_in low high lst (swap_items lst l1 h1)).
      { apply swap_items_perm_in; auto; subst low high; lia. }
      destruct (IH (swap_items lst l1 h1) l1 h1) as (lst' & hf & E & HI' & Hfr' & Hp' & Hb & HA & HB).
      * assumption.
      * right. rewrite Ei, Es. subst low high. lia.
      * rewrite Ei. intros j Hj. fold low in Hj.
        destruct (Z.eq_dec j l1) as [->|Hne]; [rewrite Ex; assumption|].
        rewrite Eo by (subst low; lia).
        destruct (Z_le_dec j l); [apply Hleft; lia|].
        specialize (A2 j ltac:(lia)). lia.
      * rewrite Es. intros j Hj. fold high in Hj.
        destruct (Z.eq_dec j h1) as [->|Hne]; [rewrite Ey; assumption|].
        rewrite Eo by (subst low; lia).
        destruct (Z_lt_dec j h); [specialize (A1 j ltac:(lia)); lia|].
        apply Hright. lia.
      * rewrite Nat2Z.inj_succ in Hf. lia.
      * rewrite Ei, Es in *. fold low high in Hp', Hb, HA, HB.
        exists lst', hf. split; [exact E|]. split; [assumption|].
        split; [exact (same_frame_trans _ _ _ Hfr Hfr')|].
        split; [exact (perm_in_trans _ _ _ _ _ Hfr Hperm Hp')|]. auto.
Qed.

(** Pushing a pivot that splits the leftmost bucket. *)
Lemma LInv_push C i0 N d S it hd h S' :
  LInv C i0 N d d S it hd (i0 + N) ->
  i0 <= h < S (d - 1) ->
  S' d = h ->
  (forall k, 0 <= k < d -> S' k = S k) ->
  (forall j, i0 <= j < h -> cmp (it j) (it h) <= 0) ->
  (forall j, h < j < S (d - 1) -> cmp (it j) (it h) >= 0) ->
  LInv C i0 N (d + 1) (d + 1) S' it hd (i0 + N).
Proof.
  intros HL Hh Ed ES Hlt Hgt.
  assert (Hb := fun k => L_bounds_pivot HL k).
  assert (Hb0 := fun k => L_bounds HL k).
  assert (Hmono := fun k k' => L_mono HL k k').
  destruct HL as [HC HN Hd Hs0 Hdec Htop Hhole Hhd Hleft Hright].
  assert (HS' : forall k, 0 <= k < d + 1 -> S' k = if k =? d then h else S k).
  { intros k Hk. destruct (Z.eqb_spec k d) as [->|]; auto. apply ES. lia. }
  pose proof (Hb0 (d - 1) ltac:(lia)) as Hbt.
  constructor; try assumption; try lia.
  - rewrite ES by lia. assumption.
  - intros k Hk. rewrite !HS' by lia.
    destruct (Z.eqb_spec (k + 1) d) as [E|E]; destruct (Z.eqb_spec k d); try lia.
    + replace k with (d - 1) by lia. lia.
    + apply Hdec. lia.
  - replace (d + 1 - 1) with d by lia. rewrite Ed. lia.
  - intros k Hk. rewrite HS' by lia. destruct (Z.eqb_spec k d); [lia|].
    apply Hhole. lia.
  - intros k j Hk Hj Hg. rewrite HS' in * by lia.
    destruct (Z.eqb_spec k d); [apply Hlt; lia | apply Hleft; auto; lia].
  - intros k j Hk Hj Hg. rewrite HS' in * by lia.
    destruct (Z.eqb_spec k d) as [->|Hne]; [|apply Hright; auto; lia].
    destruct (Z_lt_dec j (S (d - 1))) as [Hlt'|Hge]; [apply Hgt; lia|].
    destruct (Z.eq_dec d 1) as [->|Hd1]; [change (1 - 1) with 0 in *; lia|].
    assert (Hp : cmp (it (S (d - 1))) (it h) >= 0).
    { apply (cmp_flip_le cmp_ok). apply Hleft; lia. }
    destruct (Z.eq_dec j (S (d - 1))) as [->|Hj']; [exact Hp|].
    apply (cmp_ge_trans cmp_ok) with (b := it (S (d - 1))); [|exact Hp].
    apply Hright; lia.
Qed.

(** Moving an element to the slot it already occupies changes nothing that
    the invariant reads. *)
Lemma lst_move_self lst j :
  Inv lst -> idx lst <= j < idx lst + num_elements lst ->
  Inv (lst_move lst j (item lst j))
  /\ (forall i, item (lst_move lst j (item lst j)) i = item lst i)
  /\ (forall q, index_of (lst_move lst j (item lst j)) q = index_of lst q).
Proof.
  intros (Hwf & Hidx & HL) Hj.
  assert (Eit : forall i, item (lst_move lst j (item lst j)) i = item lst i).
  { intros i. rewrite lst_move_item by assumption.
    destruct (Z.eqb_spec (j mod capacity lst) (i mod capacity lst)) as [E|E]; auto.
    unfold item. rewrite !index_reduce_mod by apply Hwf. now rewrite E. }
  assert (Ehd : forall q, index_of (lst_move lst j (item lst j)) q = index_of lst q).
  { intros q. rewrite lst_move_index_of by assumption.
    destruct (Z.eqb_spec q (item lst j)) as [->|]; auto.
    symmetry. apply (L_hd _ _ _ _ _ _ _ _ _ HL); lia. }
  split; [|auto]. split; [now apply lst_move_wf|]. split; [exact Hidx|].
  change (LInv (capacity lst) (idx lst) (num_elements lst) (depth (s lst)) (depth (s lst))
               (stack_item (s lst)) (item (lst_move lst j (item lst j)))
               (index_of (lst_move lst j (item lst j))) (idx lst + num_elements lst)).
  eapply LInv_ext; [exact HL | auto | auto | auto].
Qed.

(** [swap_items_spec] without the side condition: the places may coincide. *)
Lemma swap_items_spec' lst x y :
  Inv lst ->
  idx lst <= x < stack_item (s lst) (depth (s lst) - 1) ->
  idx lst <= y < stack_item (s lst) (depth (s lst) - 1) ->
  Inv (swap_items lst x y)
  /\ same_frame lst (swap_items lst x y)
  /\ item (swap_items lst x y) x = item lst y
  /\ item (swap_items lst x y) y = item lst x
  /\ (forall j, idx lst <= j < idx lst + num_elements lst -> j <> x -> j <> y ->
                item (swap_items lst x y) j = item lst j)
  /\ perm_in (idx lst) (stack_item (s lst) (depth (s lst) - 1) - 1) lst (swap_items lst x y).
Proof.
  intros HI Hx Hy.
  assert (Htop : stack_item (s lst) (depth (s lst) - 1) <= idx lst + num_elements lst).
  { destruct HI as (_ & _ & HL). pose proof (L_d _ _ _ _ _ _ _ _ _ HL).
    apply (L_bounds HL). lia. }
  destruct (Z.eq_dec x y) as [->|Hne].
  - destruct (lst_move_self lst y HI ltac:(lia)) as (HI1 & E1 & F1).
    destruct (lst_move_self _ y HI1 ltac:(simpl; lia)) as (HI2 & E2 & F2).
    rewrite (E1 y) in HI2, E2, F2. fold (swap_items lst y y) in HI2, E2, F2.
    assert (E : forall i, item (swap_items lst y y) i = item lst i).
    { intros i. rewrite E2. apply E1. }
    split; [exact HI2|]. split; [repeat split|].
    rewrite !E. repeat split; auto.
    + intros j Hj. exists j. split; [auto|apply E].
    + intros j Hj. exists j. split; [auto|symmetry; apply E].
  - destruct (swap_items_spec lst x y HI Hx Hy Hne) as (H1 & H2 & H3 & H4 & H5).
    repeat (split; [assumption|]).
    apply swap_items_perm_in; auto; lia.
Qed.

Lemma Inv_with_rand_state lst r : Inv lst -> Inv (with_rand_state lst r).
Proof.
  intros (Hwf & Hidx & HL). split; [|split; [exact Hidx|exact HL]].
  destruct Hwf as [W1 W2 W3 W4]. constructor; assumption.
Qed.

Lemma rand_spec lst r lst' :
  rand lst = (r, lst') ->
  0 <= r /\ exists rs, lst' = with_rand_state lst rs.
Proof.
  unfold rand. destruct (rand_state lst) as [|x rs] eqn:E; intros H; injection H as <- <-.
  - split; [lia|]. exists []. destruct lst; simpl in *. now subst.
  - split; [lia|]. now exists rs.
Qed.

Lemma is_bucket_spec lst k : is_bucket lst k = (k =? depth (s lst) - 1).
Proof.
  unfold is_bucket, lst_length, stack_depth.
  destruct (Z.eqb_spec (depth (s lst) - k) 1), (Z.eqb_spec k (depth (s lst) - 1)); lia.
Qed.

(** The pivot, found at [jp] after the Hoare loop has stopped at [hf], is
    brought to the boundary between the two parts. *)
Lemma place_pivot lst jp hf pivot :
  let low := idx lst in
  let high := stack_item (s lst) (depth (s lst) - 1) - 1 in
  Inv lst ->
  low <= jp <= high -> item lst jp = pivot -> low <= hf <= high ->
  (forall j, low <= j <= hf -> cmp (item lst j) pivot <= 0) ->
  (forall j, hf < j <= high -> cmp (item lst j) pivot >= 0) ->
  forall lst1 lst2 h,
  lst1 = (if jp <? hf then lst_move (lst_move lst jp (item lst hf)) hf pivot else lst) ->
  (lst2, h) = (if jp >? hf
               then (lst_move (lst_move lst1 jp (item lst1 (hf + 1))) (hf + 1) pivot, hf + 1)
               else (lst1, hf)) ->
  Inv lst2 /\ same_frame lst lst2 /\ perm_in low high lst lst2
  /\ low <= h <= high /\ item lst2 h = pivot
  /\ (forall j, low <= j < h -> cmp (item lst2 j) pivot <= 0)
  /\ (forall j, h < j <= high -> cmp (item lst2 j) pivot >= 0).
Proof.
  intros low high HI Hjp Ep Hhf Hle Hge lst1 lst2 h E1 E2. subst pivot.
  assert (Htop : high < idx lst + num_elements lst).
  { destruct HI as (_ & _ & HL). pose proof (L_d _ _ _ _ _ _ _ _ _ HL).
    pose proof (L_bounds HL (depth (s lst) - 1)). subst high. lia. }
  destruct (Z.ltb_spec jp hf) as [Hlt|Hnlt].
  - (* the pivot is left of hf *)
    destruct (Z.gtb_spec jp hf) as [Hgt|_]; [lia|].
    inversion E2; subst lst2 h. clear E2.
    fold (swap_items lst jp hf) in E1. subst lst1.
    destruct (swap_items_spec' lst jp hf HI) as (HI' & Hfr & Ex & Ey & Eo & Hp);
      [subst low high; lia | subst low high; lia |].
    fold low high in Hp.
    split; [assumption|]. split; [assumption|]. split; [assumption|].
    split; [lia|]. split; [assumption|]. split.
    + intros j Hj. destruct (Z.eq_dec j jp) as [->|Hne].
      * rewrite Ex. apply Hle. lia.
      * rewrite Eo by (subst low; lia). apply Hle. lia.
    + intros j Hj. rewrite Eo by (subst low; lia). apply Hge. lia.
  - subst lst1. destruct (Z.gtb_spec jp hf) as [Hgt|Hngt].
    + (* the pivot is right of hf *)
      inversion E2; subst lst2 h. clear E2.
      fold (swap_items lst jp (hf + 1)).
      destruct (swap_items_spec' lst jp (hf + 1) HI) as (HI' & Hfr & Ex & Ey & Eo & Hp);
        [subst low high; lia | subst low high; lia |].
      fold low high in Hp.
      split; [assumption|]. split; [assumption|]. split; [assumption|].
      split; [lia|]. split; [assumption|]. split.
      * intros j Hj. rewrite Eo by (subst low; lia). apply Hle. lia.
      * intros j Hj. destruct (Z.eq_dec j jp) as [->|Hne].
        -- rewrite Ex. apply Hge. lia.
        -- rewrite Eo by (subst low; lia). apply Hge. lia.
    + (* the pivot is at hf *)
      inversion E2; subst lst2 h. clear E2.
      assert (jp = hf) by lia. subst jp.
      split; [assumption|]. split; [apply same_frame_refl|]. split; [apply perm_in_refl|].
      split; [lia|]. split; [reflexivity|]. split.
      * intros j Hj. apply Hle. lia.
      * intros j Hj. apply Hge. lia.
Qed.

(** What [partition] establishes, relative to the state [lst] it started in:
    [h] is the pushed pivot position. *)
Definition partition_post (lst lst' : lst_t) (h : Z) : Prop :=
  Inv lst'
  /\ capacity lst' = capacity lst /\ idx lst' = idx lst
  /\ num_elements lst' = num_elements lst
  /\ depth (s lst') = depth (s lst) + 1
  /\ (forall i, 0 <= i < depth (s lst) -> stack_item (s lst') i = stack_item (s lst) i)
  /\ stack_item (s lst') (depth (s lst)) = h
  /\ perm_in (idx lst) (stack_item (s lst) (depth (s lst) - 1) - 1) lst lst'
  /\ idx lst <= h < stack_item (s lst) (depth (s lst) - 1)
  /\ (forall j, idx lst <= j < h -> cmp (item lst' j) (item lst' h) <= 0)
  /\ (forall j, h < j < stack_item (s lst) (depth (s lst) - 1) ->
                cmp (item lst' j) (item lst' h) >= 0).

Lemma push_pivot lst h :
  Inv lst ->
  idx lst <= h < stack_item (s lst) (depth (s lst) - 1) ->
  (forall j, idx lst <= j < h -> cmp (item lst j) (item lst h) <= 0) ->
  (forall j, h < j < stack_item (s lst) (depth (s lst) - 1) ->
             cmp (item lst j) (item lst h) >= 0) ->
  partition_post lst (with_s lst (stack_push (s lst) h)) h.
Proof.
  intros (Hwf & Hidx & HL) Hh Hle Hge.
  pose proof Hwf as [W1 W2 W3 W4].
  assert (ES : forall k, 0 <= k ->
            stack_item (stack_push (s lst) h) k =
            if k =? depth (s lst) then h else stack_item (s lst) k).
  { intros k Hk. apply stack_item_push; auto; lia. }
  destruct (stack_push_wf (s lst) h) as [P1 P2]; auto; try lia.
  unfold partition_post. cbn [capacity idx num_elements s with_s].
  rewrite stack_push_depth.
  split; [|split; [reflexivity|split; [reflexivity|split; [reflexivity|split; [reflexivity|]]]]].
  - split; [|split; [exact Hidx|]].
    + constructor; cbn [capacity p s with_s]; auto.
      rewrite stack_push_depth. rewrite stack_push_depth in P2. lia.
    + cbn [capacity idx num_elements s with_s]. rewrite stack_push_depth.
      apply LInv_push with (S := stack_item (s lst)) (h := h); auto.
      * rewrite ES by lia. now rewrite Z.eqb_refl.
      * intros k Hk. rewrite ES by lia. destruct (Z.eqb_spec k (depth (s lst))); [lia|auto].
  - split; [|split; [|split; [now apply perm_in_same_items
                            |split; [exact Hh|split; [exact Hle|exact Hge]]]]].
    + intros i Hi. rewrite ES by lia. destruct (Z.eqb_spec i (depth (s lst))); [lia|auto].
    + rewrite ES by lia. now rewrite Z.eqb_refl.
Qed.

Lemma partition_post_frame a b c h :
  same_frame a b ->
  perm_in (idx a) (stack_item (s a) (depth (s a) - 1) - 1) a b ->
  partition_post b c h -> partition_post a c h.
Proof.
  intros Hfr Hp (P1 & P2 & P3 & P4 & P5 & P6 & P7 & P8 & P9 & P10 & P11).
  pose proof Hfr as (Ec & Ei & En & Es & Er).
  rewrite Ei, Es, ?Ec, ?En in *.
  unfold partition_post. repeat (split; [first [assumption | congruence]|]).
  split; [|auto].
  apply perm_in_trans with (b := b); assumption.
Qed.

Lemma partition_spec fuel lst k :
  Inv lst ->
  k = depth (s lst) - 1 ->
  idx lst < stack_item (s lst) k ->
  stack_item (s lst) k - idx lst + 2 <= Z.of_nat fuel ->
  exists lst' h, partition cmp fuel lst k = Some lst' /\ partition_post lst lst' h.
Proof.
  intros HI -> Hne Hf.
  pose proof HI as (Hwf & Hidx & HL).
  pose proof (pow2_pos _ (wf_cap _ Hwf)) as Hc.
  pose proof (L_N _ _ _ _ _ _ _ _ _ HL) as HN.
  pose proof (L_d _ _ _ _ _ _ _ _ _ HL) as Hd.
  pose proof (L_bounds HL (depth (s lst) - 1) ltac:(lia)) as Htop.
  unfold partition.
  assert (Elwb : bucket_lwb lst (depth (s lst) - 1) = idx lst).
  { unfold bucket_lwb. now rewrite is_bucket_spec, Z.eqb_refl. }
  rewrite Elwb. unfold bucket_upb.
  set (low := idx lst) in *.
  set (high := stack_item (s lst) (depth (s lst) - 1) - 1) in *.
  rewrite is_equivalent_spec by assumption.
  destruct (Z.eqb_spec ((low - high) mod capacity lst) 0) as [E0|E0].
  - (* a bucket of one element *)
    assert (low = high).
    { apply Z.mod_divide in E0; [|lia]. destruct E0 as [q Hq].
      assert (low <= high /\ high - low < capacity lst) by (subst low high; lia).
      assert (q = 0) by nia. lia. }
    exists (with_s lst (stack_push (s lst) low)), low. split; [reflexivity|].
    apply push_pivot; auto; subst low high; intros; lia.
  - assert (Hlh : low < high).
    { destruct (Z.eq_dec low high) as [E|E]; [|subst low high; lia].
      rewrite E, Z.sub_diag in E0. now rewrite Zmod_0_l in E0. }
    destruct (rand lst) as [r lstr] eqn:Er.
    destruct (rand_spec _ _ _ Er) as (Hr & rs & ->).
    assert (HIr : Inv (with_rand_state lst rs)) by now apply Inv_with_rand_state.
    set (lstr := with_rand_state lst rs) in *.
    set (pivot_index := low + Z.rem r (high + 1 - low)).
    assert (Hpi : low <= pivot_index <= high).
    { pose proof (Z.rem_bound_pos r (high + 1 - low) Hr ltac:(lia)). subst pivot_index. lia. }
    set (pivot := item lstr pivot_index).
    set (lst1 := if negb (pivot_index =? low)
                 then lst_move (lst_move lstr pivot_index (item lstr low)) low pivot
                 else lstr).
    assert (H1 : Inv lst1 /\ same_frame lstr lst1 /\ perm_in low high lstr lst1
                 /\ item lst1 low = pivot).
    { subst lst1. destruct (Z.eqb_spec pivot_index low) as [E|E]; cbn [negb].
      - split; [assumption|]. split; [apply same_frame_refl|]. split; [apply perm_in_refl|].
        subst pivot. now rewrite E.
      - fold (swap_items lstr pivot_index low).
        destruct (swap_items_spec' lstr pivot_index low HIr) as (A1 & A2 & A3 & A4 & A5 & A6);
          [subst low high lstr; cbn [idx s with_rand_state]; lia
          |subst low high lstr; cbn [idx s with_rand_state]; lia|].
        split; [assumption|]. split; [assumption|]. split; [exact A6|exact A4]. }
    destruct H1 as (HI1 & Hfr1 & Hp1 & Epiv).
    pose proof Hfr1 as (Ec1 & Ei1 & En1 & Es1 & _).
    destruct (hoare_loop_spec pivot fuel lst1 (low - 1) (high + 1))
      as (lst2 & hf & EH & HI2 & Hfr2 & Hp2 & Hhf & Hle & Hge).
    + assumption.
    + left. rewrite Ei1, Es1. subst low high lstr. cbn [idx s with_rand_state].
      repeat split; lia.
    + intros j Hj. rewrite Ei1 in Hj. change (idx lstr) with low in Hj. lia.
    + intros j Hj. rewrite Es1 in Hj. change (stack_item (s lstr) (depth (s lstr) - 1) - 1)
        with high in Hj. lia.
    + subst low high. lia.
    + cbv zeta in Hp2, Hhf, Hle, Hge.
      rewrite Ei1 in Hp2, Hhf, Hle. rewrite Es1 in Hp2, Hhf, Hge.
      change (idx lstr) with low in *.
      change (stack_item (s lstr) (depth (s lstr) - 1) - 1) with high in *.
      rewrite EH.
      pose proof Hfr2 as (Ec2 & Ei2 & En2 & Es2 & _).
      destruct (proj1 (proj2 Hp2) low ltac:(lia)) as (jp & Hjp & Ejp).
      rewrite Epiv in Ejp.
      assert (Ehd : item_index lst2 pivot = jp mod capacity lst).
      { destruct HI2 as (_ & _ & HL2). unfold item_index. rewrite <- Ejp.
        rewrite (L_hd _ _ _ _ _ _ _ _ _ HL2); [rewrite Ec2, Ec1; reflexivity| |].
        - rewrite Ei2, En2, Ei1, En1. subst low high lstr.
          cbn [idx num_elements with_rand_state] in *. lia.
        - rewrite Ei2, En2, Ei1, En1. subst low high lstr.
          cbn [idx num_elements with_rand_state] in *. lia. }
      rewrite Ehd. rewrite !index_reduce_mod by apply HI2.
      replace (capacity lst2) with (capacity lst) by (rewrite Ec2, Ec1; reflexivity).
      rewrite recover_index by (subst low high; lia).
      match goal with
      | |- context [let '(a, b) := ?e in _] => destruct e as [lst3 hfin] eqn:E3
      end.
      assert (Elow : low = idx lst2) by (rewrite Ei2, Ei1; reflexivity).
      assert (Ehigh : high = stack_item (s lst2) (depth (s lst2) - 1) - 1)
        by (rewrite Es2, Es1; reflexivity).
      pose proof (place_pivot lst2 jp hf pivot HI2) as PPv. cbv zeta in PPv.
      rewrite <- Elow, <- Ehigh in PPv.
      specialize (PPv Hjp Ejp Hhf Hle Hge _ lst3 hfin eq_refl (eq_sym E3)).
      destruct PPv as (HI3 & Hfr3 & Hp3 & Hh3 & Eh3 & Hle3 & Hge3).
      pose proof Hfr3 as (Ec3 & Ei3 & En3 & Es3 & _).
      exists (with_s lst3 (stack_push (s lst3) hfin)), hfin. split; [reflexivity|].
      assert (Hfr : same_frame lstr lst3).
      { eapply same_frame_trans; [exact Hfr1|]. eapply same_frame_trans; eassumption. }
      assert (Hp : perm_in low high lstr lst3).
      { eapply perm_in_trans; [exact Hfr1 | exact Hp1 |].
        eapply perm_in_trans; [exact Hfr2 | exact Hp2 | exact Hp3]. }
      assert (PP : partition_post lstr (with_s lst3 (stack_push (s lst3) hfin)) hfin).
      { apply partition_post_frame with (b := lst3); [exact Hfr | exact Hp |].
        apply push_pivot; auto.
        - rewrite Ei3, Es3, <- Elow. lia.
        - rewrite Ei3, <- Elow. intros j Hj. rewrite Eh3. apply Hle3. lia.
        - rewrite Es3. intros j Hj. rewrite Eh3. apply Hge3. lia. }
      exact PP.
Qed.

(** * Part IV: peek and pop *)

(** [_lst_peek] and [_lst_pop] walk down the same way; [descend] is that walk,
    returning the stack index at which it stops. *)
Fixpoint descend (fuel : nat) (lst : lst_t) (stack_index : Z) : option (Z * lst_t) :=
  match fuel with
  | O => None
  | S f =>
      match (if is_bucket lst stack_index then partition cmp f lst stack_index
             else Some lst) with
      | None => None
      | Some lst =>
          let stack_index := stack_index + 1 in
          if lst_size lst stack_index =? 0 then Some (stack_index, lst)
          else descend f lst stack_index
      end
  end.

Lemma _lst_peek_descend fuel : forall lst k,
  _lst_peek cmp fuel lst k =
  match descend fuel lst k with
  | None => None
  | Some (K, l) => Some (pivot_item l K, l)
  end.
Proof.
  induction fuel as [|f IH]; intros lst k; [reflexivity|].
  cbn [_lst_peek descend].
  destruct (if is_bucket lst k then partition cmp f lst k else Some lst) as [l|];
    [|reflexivity].
  destruct (lst_size l (k + 1) =? 0); [reflexivity|apply IH].
Qed.

Lemma _lst_pop_descend fuel : forall lst k,
  _lst_pop cmp fuel lst k =
  match descend fuel lst k with
  | None => None
  | Some (K, l) =>
      Some (pivot_item l K, bucket_delete (lst_flatten l K) K (pivot_item l K))
  end.
Proof.
  induction fuel as [|f IH]; intros lst k; [reflexivity|].
  cbn [_lst_pop descend].
  destruct (if is_bucket lst k then partition cmp f lst k else Some lst) as [l|];
    [|reflexivity].
  destruct (lst_size l (k + 1) =? 0); [reflexivity|apply IH].
Qed.

Lemma lst_size_spec lst k :
  Inv lst -> 1 <= k < depth (s lst) ->
  lst_size lst k = stack_item (s lst) k - idx lst.
Proof.
  intros (Hwf & Hidx & HL) Hk.
  pose proof (pow2_pos _ (wf_cap _ Hwf)) as Hc.
  pose proof (L_N _ _ _ _ _ _ _ _ _ HL) as HN.
  pose proof (L_bounds_pivot HL k Hk) as Hb.
  unfold lst_size. destruct (Z.eqb_spec k 0); [lia|].
  rewrite !index_reduce_mod by apply Hwf.
  rewrite (Z.mod_small (idx lst)) by lia.
  destruct (Z_lt_dec (stack_item (s lst) k) (capacity lst)) as [Hlt|Hge].
  - rewrite Z.mod_small by lia.
    destruct (Z.leb_spec (idx lst) (stack_item (s lst) k)); lia.
  - rewrite <- (mod_unshift (capacity lst) (stack_item (s lst) k)) by lia.
    rewrite Z.mod_small by lia.
    destruct (Z.leb_spec (idx lst) (stack_item (s lst) k - capacity lst)); lia.
Qed.

Lemma perm_in_widen lo hi hi' a b :
  perm_in lo hi a b -> hi <= hi' ->
  idx a <= lo -> hi' < idx a + num_elements a ->
  perm_in lo hi' a b.
Proof.
  intros (A1 & A2 & A3) Hh Hlo Hhi. repeat split.
  - intros j Hj Hn. apply A1; auto. lia.
  - intros j Hj. destruct (Z_le_dec j hi) as [H|H].
    + destruct (A2 j ltac:(lia)) as [j' [Hj' E]]. exists j'. split; [lia|auto].
    + exists j. split; [lia|]. apply A1; lia.
  - intros j Hj. destruct (Z_le_dec j hi) as [H|H].
    + destruct (A3 j ltac:(lia)) as [j' [Hj' E]]. exists j'. split; [lia|auto].
    + exists j. split; [lia|]. symmetry. apply A1; lia.
Qed.

(** What the walk from stack index [k] establishes: the stack has grown, its
    top pivot is the element at [idx], and the subtree at [k] is permuted. *)
Definition descend_post (lst : lst_t) (k : Z) (lst' : lst_t) : Prop :=
  Inv lst'
  /\ capacity lst' = capacity lst /\ idx lst' = idx lst
  /\ num_elements lst' = num_elements lst
  /\ k + 1 <= depth (s lst') - 1
  /\ (forall i, 0 <= i <= k -> stack_item (s lst') i = stack_item (s lst) i)
  /\ stack_item (s lst') (depth (s lst') - 1) = idx lst
  /\ perm_in (idx lst) (stack_item (s lst) k - 1) lst lst'
  /\ depth (s lst) <= depth (s lst').

Lemma descend_spec fuel : forall lst k,
  Inv lst ->
  0 <= k < depth (s lst) ->
  idx lst < stack_item (s lst) k ->
  stack_item (s lst) k - idx lst + 3 <= Z.of_nat fuel ->
  exists lst', descend fuel lst k = Some (depth (s lst') - 1, lst')
               /\ descend_post lst k lst'.
Proof.
  induction fuel as [|f IH]; intros lst k HI Hk Hne Hf; [simpl in Hf; lia|].
  rewrite Nat2Z.inj_succ in Hf.
  pose proof HI as (Hwf & Hidx & HL).
  pose proof (L_d _ _ _ _ _ _ _ _ _ HL) as Hd.
  pose proof (L_N _ _ _ _ _ _ _ _ _ HL) as HN.
  cbn [descend]. rewrite is_bucket_spec.
  destruct (Z.eqb_spec k (depth (s lst) - 1)) as [Ek|Ek].
  - (* the subtree is a bucket: partition it *)
    destruct (partition_spec f lst k HI Ek Hne ltac:(lia)) as (lst1 & h & EP & PP).
    rewrite EP.
    destruct PP as (HI1 & Ec & Ei & En & Ed & ES & Eh & Hp & Hh & _ & _).
    rewrite <- Ek in *.
    assert (Esz : lst_size lst1 (k + 1) = h - idx lst).
    { rewrite lst_size_spec by (auto; lia).
      replace (k + 1) with (depth (s lst)) by lia. rewrite Eh, Ei. reflexivity. }
    rewrite Esz.
    destruct (Z.eqb_spec (h - idx lst) 0) as [E0|E0].
    + exists lst1. replace (depth (s lst1) - 1) with (k + 1) by lia.
      split; [reflexivity|].
      unfold descend_post. split; [assumption|].
      split; [assumption|]. split; [assumption|]. split; [assumption|].
      split; [lia|].
      split; [intros i Hi; apply ES; lia|].
      split; [|split; [assumption|lia]].
      replace (depth (s lst1) - 1) with (depth (s lst)) by lia. lia.
    + destruct (IH lst1 (k + 1)) as (lst' & ED & DP); auto; try lia.
      * replace (k + 1) with (depth (s lst)) by lia. rewrite Eh. lia.
      * replace (k + 1) with (depth (s lst)) by lia. rewrite Eh. lia.
      * exists lst'. split; [exact ED|].
        destruct DP as (HI' & Ec' & Ei' & En' & Ed' & ES' & Et' & Hp' & Hdd').
        unfold descend_post. split; [assumption|].
        split; [congruence|]. split; [congruence|]. split; [congruence|].
        split; [lia|]. split; [intros i Hi; rewrite ES' by lia; apply ES; lia|].
        split; [congruence|]. split; [|lia].
        apply perm_in_trans_gen with (b := lst1); [exact Ei | exact En | exact Hp |].
        rewrite Ei in Hp'.
        apply perm_in_widen with (hi := stack_item (s lst1) (k + 1) - 1).
        -- exact Hp'.
        -- replace (k + 1) with (depth (s lst)) by lia. rewrite Eh. lia.
        -- lia.
        -- rewrite Ei, En. pose proof (L_bounds HL k ltac:(lia)). lia.
  - (* the subtree has a left subtree already *)
    assert (Esz : lst_size lst (k + 1) = stack_item (s lst) (k + 1) - idx lst).
    { apply lst_size_spec; auto; lia. }
    rewrite Esz.
    pose proof (L_dec _ _ _ _ _ _ _ _ _ HL k ltac:(lia)) as Hdec.
    pose proof (L_bounds HL (k + 1) ltac:(lia)) as Hb.
    pose proof (L_bounds HL k ltac:(lia)) as Hbk.
    destruct (Z.eqb_spec (stack_item (s lst) (k + 1) - idx lst) 0) as [E0|E0].
    + assert (k + 1 = depth (s lst) - 1).
      { destruct (Z.eq_dec (k + 1) (depth (s lst) - 1)); auto.
        pose proof (L_mono HL (k + 1) (depth (s lst) - 1)).
        pose proof (L_top _ _ _ _ _ _ _ _ _ HL). lia. }
      exists lst. split; [congruence|].
      unfold descend_post. split; [assumption|].
      split; [reflexivity|]. split; [reflexivity|]. split; [reflexivity|].
      split; [lia|]. split; [auto|]. split; [|split; [apply perm_in_refl|lia]].
      replace (depth (s lst) - 1) with (k + 1) by lia. lia.
    + destruct (IH lst (k + 1)) as (lst' & ED & DP); auto; try lia.
      exists lst'. split; [exact ED|].
      destruct DP as (HI' & Ec' & Ei' & En' & Ed' & ES' & Et' & Hp' & Hdd').
      unfold descend_post. split; [assumption|].
      split; [assumption|]. split; [assumption|]. split; [assumption|].
      split; [lia|].
      split; [intros i Hi; apply ES'; lia|]. split; [assumption|].
      split; [|exact Hdd'].
      apply perm_in_widen with (hi := stack_item (s lst) (k + 1) - 1); auto; lia.
Qed.

(** ** lst_indices_reduce *)

Lemma lst_indices_reduce_spec lst :
  Z.of_nat (length (data (s lst))) = size (s lst) ->
  0 <= depth (s lst) <= size (s lst) ->
  let lst' := lst_indices_reduce lst in
  capacity lst' = capacity lst
  /\ num_elements lst' = num_elements lst
  /\ p lst' = p lst
  /\ index_of lst' = index_of lst
  /\ rand_state lst' = rand_state lst
  /\ depth (s lst') = depth (s lst)
  /\ size (s lst') = size (s lst)
  /\ Z.of_nat (length (data (s lst'))) = size (s lst)
  /\ idx lst' = index_reduce lst (idx lst)
  /\ (forall k, 0 <= k ->
        stack_item (s lst') k =
        if k <? depth (s lst)
        then index_reduce lst (idx lst) + stack_item (s lst) k - idx lst
        else stack_item (s lst) k).
Proof.
  intros Hlen Hd. unfold lst_indices_reduce, stack_depth.
  set (r := index_reduce lst (idx lst)).
  set (body := fun (i : Z) (l : lst_t) =>
                 with_s l (stack_set (s l) i (r + stack_item (s l) i - idx l))).
  pose (P := fun (i : Z) (l : lst_t) =>
    capacity l = capacity lst /\ idx l = idx lst /\ num_elements l = num_elements lst
    /\ p l = p lst /\ index_of l = index_of lst /\ rand_state l = rand_state lst
    /\ depth (s l) = depth (s lst) /\ size (s l) = size (s lst)
    /\ Z.of_nat (length (data (s l))) = size (s lst)
    /\ (forall k, 0 <= k ->
          stack_item (s l) k =
          if k <? i then r + stack_item (s lst) k - idx lst else stack_item (s lst) k)).
  assert (HP : P (Z.of_nat (Z.to_nat (depth (s lst))))
                 (for_loop body 0 (Z.to_nat (depth (s lst))) lst)).
  { apply for_loop_ind.
    - unfold P. repeat split; auto. intros k Hk. destruct (Z.ltb_spec k 0); [lia|reflexivity].
    - intros i l Hi (A1 & A2 & A3 & A4 & A5 & A6 & A7 & A8 & A9 & A10).
      unfold P, body. cbn [capacity idx num_elements p index_of rand_state s with_s].
      repeat (split; [assumption|]).
      split; [cbn; rewrite array_set_length; assumption|].
      intros k Hk. rewrite stack_item_set by lia.
      rewrite (A10 i) by lia. rewrite (A10 k) by lia. rewrite A2.
      destruct (Z.eqb_spec k i) as [->|Hne].
      + destruct (Z.ltb_spec i i); [lia|]. destruct (Z.ltb_spec i (i + 1)); [reflexivity|lia].
      + destruct (Z.ltb_spec k i), (Z.ltb_spec k (i + 1)); try lia; reflexivity. }
  rewrite Z2Nat.id in HP by lia.
  destruct HP as (A1 & A2 & A3 & A4 & A5 & A6 & A7 & A8 & A9 & A10).
  cbn [capacity idx num_elements p index_of rand_state s with_idx].
  repeat (split; [assumption|]). split; [reflexivity|]. exact A10.
Qed.

Lemma Inv_flatten lst K :
  Inv lst -> 1 <= K <= depth (s lst) ->
  Inv (lst_flatten lst K)
  /\ depth (s (lst_flatten lst K)) = K
  /\ (forall i, stack_item (s (lst_flatten lst K)) i = stack_item (s lst) i)
  /\ (forall j, item (lst_flatten lst K) j = item lst j).
Proof.
  intros (Hwf & Hidx & HL) HK.
  assert (Ed : depth (s (lst_flatten lst K)) = K).
  { unfold lst_flatten, stack_pop, stack_depth. cbn. lia. }
  split; [|repeat split; auto].
  split; [|split; [exact Hidx|]].
  - destruct Hwf as [W1 W2 W3 W4]. constructor; auto.
    rewrite Ed. unfold lst_flatten, stack_pop. cbn. lia.
  - rewrite Ed. cbn [capacity idx num_elements lst_flatten with_s].
    apply LInv_restrict with (d := depth (s lst)) (dord := depth (s lst)); auto; lia.
Qed.

(** ** bucket_delete when the element is the first one of the window *)

Lemma bucket_delete_first lst k x :
  Inv lst ->
  1 <= num_elements lst ->
  item lst (idx lst) = x ->
  idx lst < stack_item (s lst) (depth (s lst) - 1) ->
  let lst' := bucket_delete lst k x in
  Inv lst'
  /\ capacity lst' = capacity lst
  /\ num_elements lst' = num_elements lst - 1
  /\ depth (s lst') = depth (s lst)
  /\ rand_state lst' = rand_state lst
  /\ index_of lst' x = -1
  /\ (forall q, q <> x -> index_of lst' q = index_of lst q)
  /\ (forall y, resident lst' y <-> resident lst y /\ y <> x).
Proof.
  intros HI HN1 Ex Htop lst'.
  pose proof HI as (Hwf & Hidx & HL).
  pose proof (pow2_pos _ (wf_cap _ Hwf)) as Hc.
  pose proof (L_N _ _ _ _ _ _ _ _ _ HL) as HN.
  pose proof (L_d _ _ _ _ _ _ _ _ _ HL) as Hd.
  pose proof Hwf as [W1 W2 W3 W4].
  assert (Eloc : item_index lst x = idx lst mod capacity lst).
  { unfold item_index. rewrite <- Ex. apply (L_hd _ _ _ _ _ _ _ _ _ HL); lia. }
  assert (Eeq : is_equivalent lst (item_index lst x) (idx lst) = true).
  { rewrite is_equivalent_spec, Eloc by assumption.
    rewrite Zminus_mod_idemp_l, Z.sub_diag, Zmod_0_l. reflexivity. }
  (* the amount by which the logical indices are reduced *)
  set (t := if (idx lst + 1) mod capacity lst =? 0 then idx lst + 1 else 0).
  assert (Ht : (t = 0 /\ idx lst + 1 < capacity lst) \/ (t = capacity lst /\ idx lst + 1 = capacity lst)).
  { subst t. destruct (Z.eqb_spec ((idx lst + 1) mod capacity lst) 0) as [E|E].
    - right. apply Z.mod_divide in E; [|lia]. destruct E as [q Hq].
      assert (q = 1) by nia. lia.
    - left. split; [reflexivity|].
      destruct (Z.eq_dec (idx lst + 1) (capacity lst)) as [E'|E']; [|lia].
      rewrite E', Z_mod_same_full in E. lia. }
  assert (Hfinal :
    capacity lst' = capacity lst /\ p lst' = p lst
    /\ idx lst' = idx lst + 1 - t /\ num_elements lst' = num_elements lst - 1
    /\ depth (s lst') = depth (s lst) /\ size (s lst') = size (s lst)
    /\ Z.of_nat (length (data (s lst'))) = size (s lst)
    /\ rand_state lst' = rand_state lst
    /\ (forall k, 0 <= k < depth (s lst) -> stack_item (s lst') k = stack_item (s lst) k - t)
    /\ (forall q, index_of lst' q = if q =? x then -1 else index_of lst q)).
  { subst lst'. unfold bucket_delete. rewrite Eeq.
    cbn [idx with_idx].
    rewrite is_equivalent_spec by (constructor; assumption).
    cbn [capacity with_idx]. rewrite Z.sub_0_r.
    destruct (Z.eqb_spec ((idx lst + 1) mod capacity lst) 0) as [E|E].
    - destruct (lst_indices_reduce_spec (with_idx lst (idx lst + 1)))
        as (A1 & A2 & A3 & A4 & A5 & A6 & A7 & A8 & A9 & A10); cbn [s with_idx]; auto; try lia.
      cbn [capacity idx num_elements p index_of rand_state s with_num_elements set_item_index
           with_index_of].
      cbn [capacity idx num_elements p index_of rand_state s with_idx] in *.
      rewrite index_reduce_mod in A9, A10 by (cbn; assumption).
      cbn [capacity idx with_idx] in A9, A10. rewrite E in A9, A10.
      do 8 (split; [first [assumption | lia | congruence]|]).
      split.
      + intros i Hi. rewrite A10 by lia. destruct (Z.ltb_spec i (depth (s lst))); lia.
      + intros q. rewrite A4. reflexivity.
    - cbn [capacity idx num_elements p index_of rand_state s with_num_elements set_item_index
           with_index_of with_idx].
      do 8 (split; [first [reflexivity | assumption | lia]|]).
      split; [intros; lia|reflexivity]. }
  destruct Hfinal as (F1 & F2 & F3 & F4 & F5 & F6 & F7 & F8 & F9 & F10).
  assert (Eit : forall j, item lst' j = item lst j).
  { intros j. unfold item, index_reduce. now rewrite F1, F2. }
  assert (Eper : forall j, item lst (j - t) = item lst j).
  { intros j. destruct Ht as [[-> _]|[-> _]].
    - now rewrite Z.sub_0_r.
    - now apply item_periodic_sub. }
  assert (Eper' : forall j, item lst (j + t) = item lst j).
  { intros j. rewrite <- (Eper (j + t)). f_equal. lia. }
  assert (Hfresh : forall j, idx lst + 1 <= j < idx lst + num_elements lst -> item lst j <> x).
  { intros j Hj E. rewrite <- Ex in E. apply (L_inj HL) in E; lia. }
  split; [|repeat (split; [first [assumption | lia]|])].
  - (* the invariant *)
    split; [constructor; rewrite ?F1, ?F2, ?F5, ?F6; auto; lia|].
    split; [rewrite F1, F3; destruct Ht as [[-> ?]|[-> ?]]; lia|].
    rewrite F1, F3, F4, F5.
    apply LInv_drop_first in HL; [|lia|lia].
    apply LInv_shift with (t := t) (S' := fun k => stack_item (s lst) k - t) in HL;
      [| destruct Ht as [[-> _]|[-> _]]; [apply Zmod_0_l | apply Z_mod_same_full]
       | reflexivity | exact Eper ].
    replace (idx lst + 1 - t + (num_elements lst - 1))
      with (idx lst + 1 + (num_elements lst - 1) - t) by lia.
    eapply LInv_ext; [exact HL | | |].
    + intros i Hi. apply F9. lia.
    + intros j Hj _. apply Eit.
    + intros j Hj _. rewrite F10.
      destruct (Z.eqb_spec (item lst j) x) as [E|E]; [|reflexivity].
      exfalso. rewrite <- (Eper' j) in E. apply Hfresh in E; auto. lia.
  - split; [rewrite F10; now rewrite Z.eqb_refl|]. split.
    + intros q Hq. rewrite F10. destruct (Z.eqb_spec q x); [contradiction|reflexivity].
    + intros y. unfold resident. rewrite F3, F4. split.
      * intros [j [Hj E]]. rewrite Eit in E. rewrite <- (Eper' j) in E. split.
        -- exists (j + t). split; [lia|exact E].
        -- intros ->. apply Hfresh in E; auto. lia.
      * intros [[j [Hj E]] Hne]. exists (j - t). split.
        -- assert (j <> idx lst) by (intros ->; congruence). lia.
        -- rewrite Eit, Eper. exact E.
Qed.

Lemma L_depth_bound C i0 N d dord S it hd g :
  LInv C i0 N d dord S it hd g -> d <= N + 1.
Proof.
  intros HL.
  assert (H : forall n, (Z.of_nat n < d) -> S (Z.of_nat n) <= S 0 - Z.of_nat n).
  { induction n as [|n IH]; intros Hn.
    - simpl. lia.
    - rewrite Nat2Z.inj_succ in *. unfold Z.succ in *.
      pose proof (L_dec _ _ _ _ _ _ _ _ _ HL (Z.of_nat n) ltac:(lia)).
      specialize (IH ltac:(lia)). lia. }
  pose proof (L_d _ _ _ _ _ _ _ _ _ HL).
  specialize (H (Z.to_nat (d - 1)) ltac:(lia)). rewrite Z2Nat.id in H by lia.
  pose proof (L_top _ _ _ _ _ _ _ _ _ HL). pose proof (L_s0 _ _ _ _ _ _ _ _ _ HL). lia.
Qed.

Lemma Inv_depth_bound lst : Inv lst -> depth (s lst) <= num_elements lst + 1.
Proof. intros (_ & _ & HL). exact (L_depth_bound _ _ _ _ _ _ _ _ _ HL). Qed.

(** When the top pivot sits at [idx], it is a least element. *)
Lemma top_pivot_is_min lst :
  Inv lst -> 2 <= depth (s lst) ->
  stack_item (s lst) (depth (s lst) - 1) = idx lst ->
  forall y, resident lst y -> cmp (item lst (idx lst)) y <= 0.
Proof.
  intros (Hwf & Hidx & HL) Hd Etop y [j [Hj <-]].
  destruct (Z.eq_dec j (idx lst)) as [->|Hne].
  - rewrite (cmp_refl cmp_ok). lia.
  - apply (cmp_flip_le cmp_ok).
    replace (item lst (idx lst)) with (item lst (stack_item (s lst) (depth (s lst) - 1)))
      by (now rewrite Etop).
    apply (L_right _ _ _ _ _ _ _ _ _ HL); lia.
Qed.

Lemma lst_peek_spec fuel lst :
  Inv lst -> 0 < num_elements lst -> num_elements lst + 3 <= Z.of_nat fuel ->
  exists lst', lst_peek cmp fuel lst = Some (item lst' (idx lst'), lst')
               /\ descend_post lst 0 lst'.
Proof.
  intros HI Hn Hf. pose proof HI as (Hwf & Hidx & HL).
  pose proof (L_s0 _ _ _ _ _ _ _ _ _ HL) as Hs0.
  pose proof (L_d _ _ _ _ _ _ _ _ _ HL) as Hd.
  destruct (descend_spec fuel lst 0 HI) as (lst' & ED & DP); try lia.
  exists lst'. split; [|exact DP].
  unfold lst_peek. destruct (Z.eqb_spec (num_elements lst) 0); [lia|].
  rewrite _lst_peek_descend, ED.
  destruct DP as (_ & _ & Ei & _ & _ & _ & Et & _ & _).
  unfold pivot_item. now rewrite Et, Ei.
Qed.

Lemma descend_again fuel : forall lst k,
  Inv lst -> 
  stack_item (s lst) (depth (s lst) - 1) = idx lst ->
  0 <= k < depth (s lst) - 1 ->
  depth (s lst) - k <= Z.of_nat fuel ->
  descend fuel lst k = Some (depth (s lst) - 1, lst).
Proof.
  induction fuel as [|f IH]; intros lst k HI Et Hk Hf; [simpl in Hf; lia|].
  rewrite Nat2Z.inj_succ in Hf. pose proof HI as (Hwf & Hidx & HL).
  cbn [descend]. rewrite is_bucket_spec.
  destruct (Z.eqb_spec k (depth (s lst) - 1)); [lia|].
  rewrite lst_size_spec by (auto; lia).
  destruct (Z.eq_dec (k + 1) (depth (s lst) - 1)) as [E|E].
  - rewrite E, Et, Z.sub_diag. reflexivity.
  - pose proof (L_mono HL (k + 1) (depth (s lst) - 1) ltac:(lia) ltac:(lia) ltac:(lia)).
    destruct (Z.eqb_spec (stack_item (s lst) (k + 1) - idx lst) 0); [lia|].
    apply IH; auto; lia.
Qed.

(** What one [lst_pop] does to a non-empty LST. *)
Definition pop_post (lst : lst_t) (x : ptr) (lst' : lst_t) : Prop :=
  Inv lst'
  /\ resident lst x
  /\ (forall y, resident lst y -> cmp x y <= 0)
  /\ capacity lst' = capacity lst
  /\ num_elements lst' = num_elements lst - 1
  /\ index_of lst' x = -1
  /\ (forall y, resident lst' y <-> resident lst y /\ y <> x).

Lemma pop_after_descend lst lst1 :
  Inv lst -> 0 < num_elements lst ->
  descend_post lst 0 lst1 ->
  let K := depth (s lst1) - 1 in
  let x := pivot_item lst1 K in
  x = item lst1 (idx lst1)
  /\ pop_post lst x (bucket_delete (lst_flatten lst1 K) K x).
Proof.
  intros HI Hn (HI1 & Ec & Ei & En & Ed & ES & Et & Hp & _) K x.
  pose proof HI as (Hwf & Hidx & HL).
  pose proof (L_s0 _ _ _ _ _ _ _ _ _ HL) as Hs0.
  assert (Ex : x = item lst1 (idx lst1)).
  { subst x K. unfold pivot_item. now rewrite Et, Ei. }
  split; [exact Ex|].
  assert (Hres : forall y, resident lst1 y <-> resident lst y).
  { intros y. apply (perm_in_resident_gen (idx lst) (stack_item (s lst) 0 - 1)); auto; lia. }
  destruct (Inv_flatten lst1 K HI1 ltac:(subst K; lia)) as (HIf & Edf & ESf & Eif).
  pose proof HI1 as (_ & _ & HL1).
  destruct (bucket_delete_first (lst_flatten lst1 K) K x HIf)
    as (B1 & B2 & B3 & B4 & B5 & B6 & B7 & B8).
  - cbn [num_elements lst_flatten with_s]. lia.
  - rewrite Eif. cbn [idx lst_flatten with_s]. congruence.
  - rewrite Edf, ESf. cbn [idx lst_flatten with_s].
    pose proof (L_dec _ _ _ _ _ _ _ _ _ HL1 (K - 1) ltac:(subst K; lia)) as Hdec.
    replace (K - 1 + 1) with K in Hdec by lia. subst K. rewrite Et in Hdec. lia.
  - assert (Rf : forall y, resident (lst_flatten lst1 K) y <-> resident lst1 y).
    { intros y. unfold resident. cbn [idx num_elements lst_flatten with_s].
      split; intros [j [Hj E]]; exists j; (split; [exact Hj|]);
        [rewrite <- Eif | rewrite Eif]; exact E. }
    assert (Rx : resident lst1 x).
    { exists (idx lst1). split; [lia|congruence]. }
    unfold pop_post. split; [exact B1|].
    split; [apply Hres; exact Rx|].
    split.
    { intros y Hy. rewrite Ex.
      apply top_pivot_is_min;
        [exact HI1 | lia | rewrite Et, Ei; reflexivity | apply Hres; exact Hy]. }
    split; [cbn [capacity lst_flatten with_s] in B2; congruence|].
    split; [cbn [num_elements lst_flatten with_s] in B3; lia|].
    split; [exact B6|].
    intros y. rewrite B8, Rf, Hres. reflexivity.
Qed.

Lemma lst_pop_spec fuel lst :
  Inv lst -> 0 < num_elements lst -> num_elements lst + 3 <= Z.of_nat fuel ->
  exists x lst', lst_pop cmp fuel lst = Some (x, lst') /\ pop_post lst x lst'.
Proof.
  intros HI Hn Hf. pose proof HI as (Hwf & Hidx & HL).
  pose proof (L_s0 _ _ _ _ _ _ _ _ _ HL) as Hs0.
  pose proof (L_d _ _ _ _ _ _ _ _ _ HL) as Hd.
  destruct (descend_spec fuel lst 0 HI) as (lst1 & ED & DP); try lia.
  destruct (pop_after_descend lst lst1 HI Hn DP) as (Ex & PP).
  eexists; eexists. split; [|exact PP].
  unfold lst_pop. destruct (Z.eqb_spec (num_elements lst) 0); [lia|].
  rewrite _lst_pop_descend, ED. reflexivity.
Qed.

(** A pop straight after a peek returns what the peek returned. *)
Lemma lst_peek_then_pop fuel lst :
  Inv lst -> 0 < num_elements lst -> num_elements lst + 3 <= Z.of_nat fuel ->
  exists x lst1 lst2,
    lst_peek cmp fuel lst = Some (x, lst1)
    /\ lst_pop cmp fuel lst1 = Some (x, lst2)
    /\ pop_post lst x lst2.
Proof.
  intros HI Hn Hf.
  destruct (lst_peek_spec fuel lst HI Hn Hf) as (lst1 & EP & DP).
  pose proof DP as (HI1 & Ec & Ei & En & Ed & ES & Et & Hp & _).
  destruct (pop_after_descend lst lst1 HI Hn DP) as (Ex & PP).
  cbv zeta in Ex, PP. rewrite Ex in PP.
  eexists; eexists; eexists. split; [exact EP|]. split; [|exact PP].
  unfold lst_pop. destruct (Z.eqb_spec (num_elements lst1) 0); [lia|].
  rewrite _lst_pop_descend.
  rewrite (descend_again fuel lst1 0);
    [ rewrite Ex; reflexivity
    | exact HI1
    | rewrite Et, Ei; reflexivity
    | lia
    | pose proof (Inv_depth_bound lst1 HI1); lia ].
Qed.

(** * Part V: bucket_add and insertion *)

(** [lst_move] seen from a window of at most [capacity] logical indices. *)
Lemma lst_move_window lst g v lo hi :
  wf lst -> hi - lo <= capacity lst -> lo <= g < hi ->
  item (lst_move lst g v) g = v
  /\ (forall j, lo <= j < hi -> j <> g -> item (lst_move lst g v) j = item lst j)
  /\ index_of (lst_move lst g v) v = g mod capacity lst
  /\ (forall q, q <> v -> index_of (lst_move lst g v) q = index_of lst q).
Proof.
  intros Hwf Hw Hg. pose proof (pow2_pos _ (wf_cap _ Hwf)) as Hc.
  split; [|split; [|split]].
  - rewrite lst_move_item by assumption. now rewrite Z.eqb_refl.
  - intros j Hj Hne. rewrite lst_move_item by assumption.
    rewrite eqb_mod_window by lia. destruct (Z.eqb_spec g j); [lia|reflexivity].
  - rewrite lst_move_index_of by assumption. now rewrite Z.eqb_refl.
  - intros q Hq. rewrite lst_move_index_of by assumption.
    destruct (Z.eqb_spec q v); [contradiction|reflexivity].
Qed.

(** The elements held by the window [lo, hi) outside of the hole [g]. *)
Definition held (it : Z -> ptr) (lo hi g : Z) (y : ptr) : Prop :=
  exists j, lo <= j < hi /\ j <> g /\ it j = y.

Lemma held_move it it' lo hi g j0 y :
  lo <= g < hi -> lo <= j0 < hi ->
  it' g = it j0 ->
  (forall j, lo <= j < hi -> j <> g -> j <> j0 -> it' j = it j) ->
  (held it' lo hi j0 y <-> held it lo hi g y).
Proof.
  intros Hg Hj0 Eg Eit. unfold held. split; intros (j & Hj & Hne & E).
  - destruct (Z.eq_dec j g) as [->|Hjg].
    + exists j0. split; [lia|]. split; [lia|congruence].
    + exists j. split; [lia|]. split; [lia|]. rewrite <- Eit; auto.
  - destruct (Z.eq_dec j j0) as [->|Hjj].
    + exists g. split; [lia|]. split; [lia|congruence].
    + exists j. split; [lia|]. split; [lia|]. rewrite Eit; auto.
Qed.

(** The stack as [bucket_add] leaves it behind index [r]: entries up to [r]
    are one higher. *)
Definition shifted (S0 : Z -> Z) (r : Z) : Z -> Z :=
  fun i => if i <=? r then S0 i + 1 else S0 i.

(** The state of [bucket_add] when its loop has run for the stack indices
    below [r]: the hole is at the old position of pivot [r], whose stack entry
    is about to be raised. *)
Record add_state (lst0 : lst_t) (D dord r : Z) (l : lst_t) : Prop := {
  as_capacity : capacity l = capacity lst0;
  as_idx : idx l = idx lst0;
  as_num : num_elements l = num_elements lst0;
  as_depth : depth (s l) = depth (s lst0);
  as_size : size (s l) = size (s lst0);
  as_rand : rand_state l = rand_state lst0;
  as_nonneg : 0 <= num_elements lst0;
  as_top : idx lst0 <= stack_item (s lst0) (D - 1);
  as_wf : wf l;
  as_stack : forall i, 0 <= i ->
      stack_item (s l) i =
      if i <? r then stack_item (s lst0) i + 1 else stack_item (s lst0) i;
  as_linv : LInv (capacity lst0) (idx lst0) (num_elements lst0 + 1) D dord
                 (shifted (stack_item (s lst0)) r) (item l) (index_of l)
                 (stack_item (s lst0) r);
  as_piv : forall i, 1 <= i < D ->
      item l (shifted (stack_item (s lst0)) r i) = item lst0 (stack_item (s lst0) i);
  as_held : forall y,
      held (item l) (idx lst0) (idx lst0 + num_elements lst0 + 1)
           (stack_item (s lst0) r) y <-> resident lst0 y
}.

Lemma add_state_init lst0 D dord :
  wf lst0 ->
  LInv (capacity lst0) (idx lst0) (num_elements lst0) D dord
       (stack_item (s lst0)) (item lst0) (index_of lst0)
       (idx lst0 + num_elements lst0) ->
  num_elements lst0 < capacity lst0 ->
  add_state lst0 D dord 0 lst0.
Proof.
  intros Hwf HL HN.
  pose proof (L_s0 _ _ _ _ _ _ _ _ _ HL) as Hs0.
  constructor; auto.
  - apply HL.
  - apply HL.
  - intros i Hi. destruct (Z.ltb_spec i 0); [lia|reflexivity].
  - rewrite Hs0.
    apply LInv_grow with (S := stack_item (s lst0)); [exact HL | exact HN | |].
    + unfold shifted. simpl. reflexivity.
    + intros k Hk. unfold shifted. destruct (Z.leb_spec k 0); [lia|reflexivity].
  - intros i Hi. unfold shifted. destruct (Z.leb_spec i 0); [lia|reflexivity].
  - intros y. rewrite Hs0. unfold held, resident. split.
    + intros (j & Hj & Hne & E). exists j. split; [lia|exact E].
    + intros (j & Hj & E). exists j. repeat split; auto; lia.
Qed.

Lemma shifted_le S0 r k : k <= r -> shifted S0 r k = S0 k + 1.
Proof. intros H. unfold shifted. destruct (Z.leb_spec k r); [reflexivity|lia]. Qed.

Lemma shifted_gt S0 r k : r < k -> shifted S0 r k = S0 k.
Proof. intros H. unfold shifted. destruct (Z.leb_spec k r); [lia|reflexivity]. Qed.

(** The order of the stack entries of [lst0], read off the shifted view. *)
Lemma add_state_order lst0 D dord r l :
  add_state lst0 D dord r l -> 0 <= r < D ->
  (forall k, 0 <= k <= r -> stack_item (s lst0) r <= stack_item (s lst0) k)
  /\ (forall k, r < k < D -> stack_item (s lst0) k < stack_item (s lst0) r)
  /\ (forall k k', r < k -> k < k' -> k' < D ->
                   stack_item (s lst0) k' < stack_item (s lst0) k)
  /\ (forall k, 0 <= k < D ->
                idx lst0 <= stack_item (s lst0) k <= idx lst0 + num_elements lst0).
Proof.
  intros [_ _ _ _ _ _ HN0 Htop0 _ _ HL _ _] Hr.
  set (S0 := stack_item (s lst0)) in *.
  assert (A : forall k, 0 <= k <= r -> S0 r <= S0 k).
  { intros k Hk. destruct (Z.eq_dec k r) as [->|]; [lia|].
    pose proof (L_mono HL k r ltac:(lia) ltac:(lia) ltac:(lia)) as H.
    rewrite !shifted_le in H by lia. lia. }
  assert (B : forall k, r < k < D -> S0 k < S0 r).
  { intros k Hk.
    pose proof (L_mono HL r k ltac:(lia) ltac:(lia) ltac:(lia)) as H.
    rewrite (shifted_le _ r r), (shifted_gt _ r k) in H by lia.
    pose proof (L_hole _ _ _ _ _ _ _ _ _ HL k ltac:(lia)) as H'.
    rewrite shifted_gt in H' by lia. lia. }
  assert (B' : forall k k', r < k -> k < k' -> k' < D -> S0 k' < S0 k).
  { intros k k' H1 H2 H3.
    pose proof (L_mono HL k k' ltac:(lia) ltac:(lia) ltac:(lia)) as H.
    rewrite !shifted_gt in H by lia. exact H. }
  split; [exact A|]. split; [exact B|]. split; [exact B'|].
  intros k Hk. pose proof (L_bounds HL k Hk) as H.
  assert (Hlow : S0 (D - 1) <= S0 k).
  { destruct (Z.eq_dec k (D - 1)) as [->|Hne]; [lia|].
    destruct (Z_le_dec k r) as [Hkr|Hkr].
    - specialize (A k ltac:(lia)).
      destruct (Z.eq_dec r (D - 1)) as [<-|Hne']; [lia|].
      specialize (B (D - 1) ltac:(lia)). lia.
    - specialize (B' k (D - 1) ltac:(lia) ltac:(lia) ltac:(lia)). lia. }
  destruct (Z_le_dec k r).
  - rewrite shifted_le in H by lia. lia.
  - rewrite shifted_gt in H by lia. specialize (B k ltac:(lia)).
    pose proof (L_bounds HL r Hr) as H'. rewrite shifted_le in H' by lia. lia.
Qed.

Lemma add_state_step lst0 D dord r l :
  add_state lst0 D dord r l ->
  0 <= r -> r + 1 < D -> D <= size (s lst0) ->
  add_state lst0 D dord (r + 1) (bucket_add_body r l).
Proof.
  intros AS Hr HrD Hsz.
  destruct (add_state_order _ _ _ _ _ AS ltac:(lia)) as (OA & OB & OB' & Obnd).
  destruct AS as [Ec Ei En Ed Es Er HN0 Htop0 Hwf Hst HL Hpiv Hheld].
  set (S0 := stack_item (s lst0)) in *.
  set (C := capacity lst0) in *. set (i0 := idx lst0) in *.
  set (N := num_elements lst0) in *.
  pose proof (L_N _ _ _ _ _ _ _ _ _ HL) as HN.
  pose proof (L_d _ _ _ _ _ _ _ _ _ HL) as Hdd.
  pose proof (fun i => L_bounds_pivot HL i) as Hbp.
  pose proof (L_hole _ _ _ _ _ _ _ _ _ HL) as Hhole.
  pose proof Hwf as [W1 W2 W3 W4].
  unfold bucket_add_body.
  rewrite (Hst (r + 1)), (Hst r) by lia.
  destruct (Z.ltb_spec (r + 1) r); [lia|]. destruct (Z.ltb_spec r r); [lia|].
  fold S0. set (prev := S0 (r + 1)). set (g := S0 r).
  assert (Hprev : i0 <= prev /\ prev < g /\ g <= i0 + N).
  { pose proof (Obnd (r + 1) ltac:(lia)). pose proof (Obnd r ltac:(lia)).
    pose proof (OB (r + 1) ltac:(lia)). subst prev g. lia. }
  set (l1 := with_s l (stack_set (s l) r (g + 1))).
  assert (Hwf1 : wf l1).
  { constructor; cbn [capacity p s with_s l1 stack_set depth size data]; auto.
    now rewrite array_set_length. }
  assert (Hst1 : forall i, 0 <= i ->
            stack_item (s l1) i = if i <? r + 1 then S0 i + 1 else S0 i).
  { intros i Hi. cbn [s with_s l1]. rewrite stack_item_set by lia. rewrite Hst by lia.
    fold S0. destruct (Z.ltb_spec i r); destruct (Z.ltb_spec i (r + 1));
      destruct (Z.eqb_spec i r) as [E|E]; try lia; try reflexivity.
    subst i. fold g. lia. }
  (* first step: the lowest element of the bucket moves to its upper end *)
  set (l2 := if negb (g - prev =? 1) then lst_move l1 g (item l1 (prev + 1)) else l1).
  assert (HA : wf l2 /\ s l2 = s l1 /\ capacity l2 = C /\ idx l2 = i0
               /\ num_elements l2 = N /\ rand_state l2 = rand_state lst0
               /\ LInv C i0 (N + 1) D dord (shifted S0 r) (item l2) (index_of l2) (prev + 1)
               /\ (forall i, 1 <= i < D -> item l2 (shifted S0 r i) = item lst0 (S0 i))
               /\ (forall y, held (item l2) i0 (i0 + N + 1) (prev + 1) y <-> resident lst0 y)).
  { subst l2. destruct (Z.eqb_spec (g - prev) 1) as [E|E]; cbn [negb].
    - replace (prev + 1) with g by lia.
      split; [exact Hwf1|]. split; [reflexivity|].
      split; [exact Ec|]. split; [exact Ei|]. split; [exact En|]. split; [exact Er|].
      split; [exact HL|]. split; [exact Hpiv|exact Hheld].
    - destruct (lst_move_window l1 g (item l1 (prev + 1)) i0 (i0 + N + 1) Hwf1)
        as (E1 & E2 & E3 & E4);
        [cbn [capacity with_s l1]; rewrite Ec; fold C; lia | lia |].
      cbn [capacity with_s l1] in E3. rewrite Ec in E3. fold C in E3.
      change (item l1 (prev + 1)) with (item l (prev + 1)) in *.
      assert (E2' : forall j, i0 <= j < i0 + N + 1 -> j <> g ->
                      item (lst_move l1 g (item l (prev + 1))) j = item l j).
      { intros j Hj Hne. now rewrite E2. }
      split; [now apply lst_move_wf|]. split; [reflexivity|].
      split; [exact Ec|]. split; [exact Ei|]. split; [exact En|]. split; [exact Er|].
      split; [|split].
      + apply LInv_move with (S := shifted S0 r) (it := item l) (hd := index_of l)
                             (g := g) (j0 := prev + 1); try assumption; try lia.
        * intros k Hk. destruct (Z_le_dec k r).
          -- rewrite shifted_le by lia. specialize (OA k ltac:(lia)). fold S0 g in OA. lia.
          -- rewrite shifted_gt by lia.
             destruct (Z.eq_dec k (r + 1)) as [->|]; [subst prev; lia|].
             specialize (OB' (r + 1) k ltac:(lia) ltac:(lia) ltac:(lia)).
             fold S0 prev in OB'. lia.
        * intros k Hk. destruct (Z_le_dec k r).
          -- rewrite shifted_le by lia. specialize (OA k ltac:(lia)). fold S0 g in OA. lia.
          -- rewrite shifted_gt by lia.
             destruct (Z.eq_dec k (r + 1)) as [->|]; [subst prev; lia|].
             specialize (OB' (r + 1) k ltac:(lia) ltac:(lia) ltac:(lia)).
             fold S0 prev in OB'. lia.
        * intros j Hj Hne _. apply E2'; lia.
      + intros i Hi. rewrite E2'; [apply Hpiv; exact Hi | | apply Hhole; exact Hi].
        specialize (Hbp i Hi). lia.
      + intros y. rewrite <- Hheld.
        apply (held_move (item l) _ i0 (i0 + N + 1) g (prev + 1) y);
          [lia | lia | exact E1 | intros j Hj Hne _; apply E2'; lia]. }
  destruct HA as (Hwf2 & Es2 & Ec2 & Ei2 & En2 & Er2 & HL2 & Hpiv2 & Hheld2).
  (* second step: the pivot moves up by one *)
  destruct (lst_move_window l2 (prev + 1) (item l2 prev) i0 (i0 + N + 1) Hwf2)
    as (E1 & E2 & E3 & E4); [rewrite Ec2; lia | lia |].
  rewrite Ec2 in E3.
  assert (Esh : shifted S0 r (r + 1) = prev) by (rewrite shifted_gt by lia; reflexivity).
  constructor.
  - exact Ec2.
  - exact Ei2.
  - exact En2.
  - change (s (lst_move l2 (prev + 1) (item l2 prev))) with (s l2).
    rewrite Es2. exact Ed.
  - change (s (lst_move l2 (prev + 1) (item l2 prev))) with (s l2).
    rewrite Es2. exact Es.
  - exact Er2.
  - exact HN0.
  - exact Htop0.
  - now apply lst_move_wf.
  - intros i Hi. change (s (lst_move l2 (prev + 1) (item l2 prev))) with (s l2).
    rewrite Es2. now apply Hst1.
  - fold S0 C i0 N. change (S0 (r + 1)) with prev.
    assert (H1 : LInv C i0 (N + 1) D dord (shifted S0 (r + 1))
                   (item (lst_move l2 (prev + 1) (item l2 prev)))
                   (index_of (lst_move l2 (prev + 1) (item l2 prev)))
                   (shifted S0 r (r + 1))).
    { apply LInv_pivot_shift with (S := shifted S0 r) (it := item l2) (hd := index_of l2)
                                  (g := prev + 1) (k0 := r + 1).
      - exact HL2.
      - lia.
      - lia.
      - left. rewrite Esh. reflexivity.
      - rewrite shifted_le by lia. reflexivity.
      - intros k Hk Hne. destruct (Z_le_dec k r).
        + rewrite !shifted_le by lia. reflexivity.
        + rewrite !shifted_gt by lia. reflexivity.
      - rewrite Esh. exact E1.
      - intros j Hj Hne _. apply E2; lia.
      - rewrite Esh. exact E3.
      - rewrite Esh. exact E4. }
    rewrite Esh in H1. exact H1.
  - fold S0. intros i Hi. destruct (Z.eq_dec i (r + 1)) as [->|Hne].
    + rewrite shifted_le by lia. fold prev. rewrite E1.
      specialize (Hpiv2 (r + 1) Hi). rewrite Esh in Hpiv2. exact Hpiv2.
    + assert (Eq : shifted S0 (r + 1) i = shifted S0 r i).
      { destruct (Z_le_dec i r); [rewrite !shifted_le by lia|rewrite !shifted_gt by lia];
          reflexivity. }
      rewrite Eq. rewrite E2; [apply Hpiv2; exact Hi | |].
      * pose proof (L_bounds_pivot HL2 i Hi). lia.
      * pose proof (L_hole _ _ _ _ _ _ _ _ _ HL2 i Hi). exact H1.
  - fold S0 i0 N. change (S0 (r + 1)) with prev. intros y. rewrite <- Hheld2.
    apply (held_move (item l2) _ i0 (i0 + N + 1) (prev + 1) prev y);
      [lia | lia | exact E1 | intros j Hj Hne _; apply E2; lia].
Qed.

Lemma bucket_add_loop lst0 D dord k :
  wf lst0 ->
  LInv (capacity lst0) (idx lst0) (num_elements lst0) D dord
       (stack_item (s lst0)) (item lst0) (index_of lst0)
       (idx lst0 + num_elements lst0) ->
  num_elements lst0 < capacity lst0 ->
  0 <= k < D -> D <= size (s lst0) ->
  add_state lst0 D dord k (for_loop bucket_add_body 0 (Z.to_nat k) lst0).
Proof.
  intros Hwf HL HN Hk Hsz.
  rewrite <- (Z2Nat.id k) at 1 by lia.
  apply (for_loop_ind bucket_add_body (fun i l => add_state lst0 D dord i l)).
  - now apply add_state_init.
  - intros i l Hi AS. apply add_state_step; auto; lia.
Qed.

(** What [bucket_add] establishes.  [D] is the number of stack entries the
    call reads (it is the depth, or one more when the entry just discarded by
    [lst_flatten] is read); the pivots below [dord] are ordered with respect
    to the new element as the first premise on [x] says. *)
Lemma bucket_add_spec lst k x D dord :
  wf lst ->
  LInv (capacity lst) (idx lst) (num_elements lst) D dord
       (stack_item (s lst)) (item lst) (index_of lst)
       (idx lst + num_elements lst) ->
  num_elements lst < capacity lst ->
  0 <= k < D -> D <= size (s lst) ->
  ~ resident lst x ->
  (forall i, 1 <= i < dord ->
             (i <= k -> cmp x (item lst (stack_item (s lst) i)) <= 0)
             /\ (k < i -> cmp x (item lst (stack_item (s lst) i)) >= 0)) ->
  let lst' := bucket_add lst k x in
  wf lst'
  /\ capacity lst' = capacity lst /\ idx lst' = idx lst
  /\ num_elements lst' = num_elements lst + 1
  /\ depth (s lst') = depth (s lst) /\ size (s lst') = size (s lst)
  /\ rand_state lst' = rand_state lst
  /\ LInv (capacity lst) (idx lst) (num_elements lst + 1) D dord
          (stack_item (s lst')) (item lst') (index_of lst')
          (idx lst + (num_elements lst + 1))
  /\ (forall y, resident lst' y <-> resident lst y \/ y = x).
Proof.
  intros Hwf0 HL0 HNC Hk Hsz Hfresh Hord lst'.
  pose proof (bucket_add_loop lst D dord k Hwf0 HL0 HNC Hk Hsz) as AS.
  destruct (add_state_order _ _ _ _ _ AS ltac:(lia)) as (OA & OB & OB' & Obnd).
  subst lst'. unfold bucket_add.
  set (l := for_loop bucket_add_body 0 (Z.to_nat k) lst) in *.
  destruct AS as [Ec Ei En Ed Es Er HN0 Htop0 Hwf Hst HL Hpiv Hheld].
  set (S0 := stack_item (s lst)) in *.
  set (C := capacity lst) in *. set (i0 := idx lst) in *.
  set (N := num_elements lst) in *.
  pose proof (L_N _ _ _ _ _ _ _ _ _ HL) as HN.
  pose proof (L_d _ _ _ _ _ _ _ _ _ HL) as Hdd.
  pose proof Hwf as [W1 W2 W3 W4].
  rewrite (Hst k) by lia. destruct (Z.ltb_spec k k); [lia|]. fold S0.
  set (g := S0 k).
  assert (Hg : i0 <= g <= i0 + N) by (apply Obnd; lia).
  set (l1 := with_s l (stack_set (s l) k (g + 1))).
  assert (Hwf1 : wf l1).
  { constructor; cbn [capacity p s with_s l1 stack_set depth size data]; auto.
    now rewrite array_set_length. }
  assert (Hst1 : forall i, 0 <= i -> stack_item (s l1) i = shifted S0 k i).
  { intros i Hi. cbn [s with_s l1]. rewrite stack_item_set by lia. rewrite Hst by lia.
    fold S0. unfold shifted.
    destruct (Z.ltb_spec i k); destruct (Z.leb_spec i k);
      destruct (Z.eqb_spec i k) as [E|E]; try lia; try reflexivity.
    subst i. reflexivity. }
  destruct (lst_move_window l1 g x i0 (i0 + N + 1) Hwf1) as (E1 & E2 & E3 & E4);
    [cbn [capacity with_s l1]; rewrite Ec; fold C; lia | lia |].
  cbn [capacity with_s l1] in E3. rewrite Ec in E3. fold C in E3.
  change (item l1) with (item l) in E2. change (index_of l1) with (index_of l) in E4.
  set (l2 := lst_move l1 g x) in *.
  assert (Hwf2 : wf l2) by now apply lst_move_wf.
  cbn [capacity idx num_elements s rand_state with_num_elements].
  change (num_elements l2) with (num_elements l). change (capacity l2) with (capacity l).
  change (idx l2) with (idx l). change (s l2) with (s l1).
  change (rand_state l2) with (rand_state l).
  split; [destruct Hwf2; constructor; assumption|].
  split; [exact Ec|]. split; [exact Ei|]. split; [rewrite En; reflexivity|].
  split; [exact Ed|]. split; [exact Es|]. split; [exact Er|].
  split.
  - change (item (with_num_elements l2 (num_elements l + 1))) with (item l2).
    change (index_of (with_num_elements l2 (num_elements l + 1))) with (index_of l2).
    apply LInv_ext with (S := shifted S0 k) (it := item l2) (hd := index_of l2).
    + replace (i0 + (N + 1)) with (i0 + (N + 1)) by lia.
      apply LInv_fill with (it := item l) (hd := index_of l) (g := g) (x := x).
      * exact HL.
      * lia.
      * intros j Hj Hne E. apply Hfresh. apply Hheld. exists j.
        split; [lia|]. split; [exact Hne|exact E].
      * intros i Hi. rewrite Hpiv by lia. fold S0.
        destruct (Z_le_dec i k) as [Hik|Hik].
        -- rewrite shifted_le by lia. specialize (OA i ltac:(lia)). fold S0 g in OA.
           split; [intros _; apply Hord; auto|intros; lia].
        -- rewrite shifted_gt by lia. specialize (OB i ltac:(lia)). fold S0 g in OB.
           split; [intros; lia|intros _; apply Hord; auto; lia].
      * exact E1.
      * intros j Hj Hne. apply E2; lia.
      * exact E3.
      * exact E4.
    + intros i Hi. apply Hst1. lia.
    + reflexivity.
    + reflexivity.
  - intros y. unfold resident.
    cbn [idx num_elements with_num_elements].
    change (item (with_num_elements l2 (num_elements l + 1))) with (item l2).
    change (idx l2) with (idx l). rewrite Ei, En. fold i0 N.
    split.
    + intros (j & Hj & E). destruct (Z.eq_dec j g) as [->|Hne].
      * right. congruence.
      * left. apply Hheld. exists j. split; [lia|]. split; [exact Hne|].
        rewrite <- E2; [exact E|lia|exact Hne].
    + intros [Hy| ->].
      * apply Hheld in Hy. destruct Hy as (j & Hj & Hne & E).
        exists j. split; [lia|]. rewrite E2; [exact E|lia|exact Hne].
      * exists g. split; [lia|exact E1].
Qed.

(** ** lst_expand *)

Lemma item_small lst j :
  wf lst -> 0 <= j < capacity lst -> item lst j = nth (Z.to_nat j) (p lst) NULL.
Proof.
  intros Hwf Hj. unfold item. rewrite index_reduce_mod by apply Hwf.
  now rewrite Z.mod_small by lia.
Qed.

(** In a full LST every slot is inside the window. *)
Lemma full_slots lst :
  Inv lst -> num_elements lst = capacity lst ->
  (forall j, 0 <= j < capacity lst -> index_of lst (item lst j) = j)
  /\ (forall j j', 0 <= j < capacity lst -> 0 <= j' < capacity lst ->
                   item lst j = item lst j' -> j = j').
Proof.
  intros (Hwf & Hidx & HL) Hfull.
  pose proof (pow2_pos _ (wf_cap _ Hwf)) as Hc.
  assert (Hlog : forall j, 0 <= j < capacity lst ->
            exists j', idx lst <= j' < idx lst + num_elements lst
                       /\ item lst j' = item lst j /\ j' mod capacity lst = j).
  { intros j Hj. destruct (Z_lt_dec j (idx lst)).
    - exists (j + capacity lst). split; [lia|]. split; [now apply item_periodic|].
      rewrite mod_shift by lia. apply Z.mod_small. lia.
    - exists j. split; [lia|]. split; [reflexivity|]. apply Z.mod_small. lia. }
  split.
  - intros j Hj. destruct (Hlog j Hj) as (j' & Hj' & E & Em).
    rewrite <- E, <- Em. apply (L_hd _ _ _ _ _ _ _ _ _ HL); lia.
  - intros j j' Hj Hj' E.
    destruct (Hlog j Hj) as (a & Ha & Ea & Ema).
    destruct (Hlog j' Hj') as (b & Hb & Eb & Emb).
    assert (a = b) by (apply (L_inj HL); auto; try lia; congruence).
    congruence.
Qed.

Lemma lst_expand_spec lst :
  Inv lst -> num_elements lst = capacity lst ->
  let lst' := lst_expand lst in
  Inv lst'
  /\ capacity lst' = 2 * capacity lst
  /\ idx lst' = idx lst
  /\ num_elements lst' = num_elements lst
  /\ depth (s lst') = depth (s lst)
  /\ rand_state lst' = rand_state lst
  /\ (forall i, 0 <= i -> stack_item (s lst') i = stack_item (s lst) i)
  /\ (forall j, idx lst <= j < idx lst + num_elements lst -> item lst' j = item lst j)
  /\ (forall q, ~ resident lst q -> index_of lst' q = index_of lst q).
Proof.
  intros HI Hfull lst'. pose proof HI as (Hwf & Hidx & HL).
  pose proof (pow2_pos _ (wf_cap _ Hwf)) as Hc.
  pose proof Hwf as [W1 W2 W3 W4].
  destruct (full_slots lst HI Hfull) as (Hslot & Hsinj).
  set (C := capacity lst) in *.
  subst lst'. unfold lst_expand. fold C.
  replace (2 * C - C) with C by lia.
  set (lst1 := with_capacity (with_p lst (p lst ++ repeat NULL (Z.to_nat C))) (2 * C)).
  assert (Hwf1 : wf lst1).
  { constructor; cbn [capacity p s lst1 with_capacity with_p]; auto.
    - now apply pow2_double.
    - rewrite length_app, repeat_length. lia. }
  destruct (lst_indices_reduce_spec lst1)
    as (A1 & A2 & A3 & A4 & A5 & A6 & A7 & A8 & A9 & A10);
    [exact W3 | cbn [s lst1 with_capacity with_p]; lia |].
  set (lst2 := lst_indices_reduce lst1) in *.
  cbn [capacity idx num_elements p s index_of rand_state lst1 with_capacity with_p] in
    A1, A2, A3, A4, A5, A6, A7, A8, A9, A10.
  assert (Er : index_reduce lst1 (idx lst) = idx lst).
  { rewrite index_reduce_mod by apply Hwf1. cbn [capacity lst1 with_capacity].
    apply Z.mod_small. lia. }
  rewrite Er in A9, A10.
  assert (Hst2 : forall i, 0 <= i -> stack_item (s lst2) i = stack_item (s lst) i).
  { intros i Hi. rewrite A10 by lia. destruct (Z.ltb_spec i (depth (s lst))); lia. }
  assert (Hwf2 : wf lst2).
  { constructor; rewrite ?A1, ?A3, ?A6, ?A7; auto.
    - now apply pow2_double.
    - rewrite length_app, repeat_length. lia. }
  assert (Eit2 : forall j, 0 <= j < C -> item lst2 j = item lst j).
  { intros j Hj. rewrite item_small by (auto; rewrite A1; lia).
    rewrite item_small by (auto; fold C; lia).
    rewrite A3. apply nth_app_repeat. }
  (* the loop that restores adjacency *)
  rewrite A9.
  pose (Q := fun (i : Z) (l : lst_t) =>
    wf l /\ capacity l = 2 * C /\ idx l = idx lst /\ num_elements l = num_elements lst
    /\ s l = s lst2 /\ rand_state l = rand_state lst
    /\ (forall j, 0 <= j < C -> item l j = item lst j)
    /\ (forall j, 0 <= j < i -> item l (j + C) = item lst j)
    /\ (forall j, 0 <= j < i -> index_of l (item lst j) = j + C)
    /\ (forall q, (forall j, 0 <= j < i -> q <> item lst j) ->
                  index_of l q = index_of lst q)).
  assert (HQ : Q (Z.of_nat (Z.to_nat (idx lst)))
                 (for_loop (lst_expand_body C) 0 (Z.to_nat (idx lst)) lst2)).
  { apply for_loop_ind.
    - unfold Q. split; [exact Hwf2|]. split; [exact A1|]. split; [exact A9|].
      split; [exact A2|]. split; [reflexivity|]. split; [exact A5|].
      split; [exact Eit2|]. split; [intros; lia|]. split; [intros; lia|].
      intros q _. now rewrite A4.
    - intros i l Hi (Q1 & Q2 & Q3 & Q4 & Q5 & Q6 & Q7 & Q8 & Q9 & Q10).
      rewrite Z2Nat.id in Hi by lia.
      unfold lst_expand_body, item_index.
      rewrite (Q7 i) by lia.
      assert (Ehd : index_of l (item lst i) = i).
      { rewrite Q10; [apply Hslot; lia|].
        intros j Hj E. apply Hsinj in E; lia. }
      rewrite Ehd.
      assert (Em : forall j, 0 <= j < 2 * C ->
                ((i + C) mod capacity l =? j mod capacity l) = (i + C =? j)).
      { intros j Hj. rewrite Q2. rewrite !Z.mod_small by lia. reflexivity. }
      unfold Q. split; [now apply lst_move_wf|].
      split; [exact Q2|]. split; [exact Q3|]. split; [exact Q4|].
      split; [exact Q5|]. split; [exact Q6|].
      split; [|split; [|split]].
      + intros j Hj. rewrite lst_move_item by assumption. rewrite Em by lia.
        destruct (Z.eqb_spec (i + C) j); [lia|]. apply Q7. lia.
      + intros j Hj. rewrite lst_move_item by assumption. rewrite Em by lia.
        destruct (Z.eqb_spec (i + C) (j + C)) as [E|E].
        * f_equal. lia.
        * apply Q8. lia.
      + intros j Hj. rewrite lst_move_index_of by assumption.
        destruct (Z.eqb_spec (item lst j) (item lst i)) as [E|E].
        * apply Hsinj in E; try lia. subst j. rewrite Q2. apply Z.mod_small. lia.
        * apply Q9. destruct (Z.eq_dec j i); [subst; congruence|lia].
      + intros q Hq. rewrite lst_move_index_of by assumption.
        destruct (Z.eqb_spec q (item lst i)) as [E|E].
        * exfalso. apply (Hq i); [lia|exact E].
        * apply Q10. intros j Hj. apply Hq. lia. }
  rewrite Z2Nat.id in HQ by lia.
  destruct HQ as (Q1 & Q2 & Q3 & Q4 & Q5 & Q6 & Q7 & Q8 & Q9 & Q10).
  set (lstF := for_loop (lst_expand_body C) 0 (Z.to_nat (idx lst)) lst2) in *.
  assert (EitF : forall j, idx lst <= j < idx lst + num_elements lst ->
                  item lstF j = item lst j).
  { intros j Hj. destruct (Z_lt_dec j C).
    - apply Q7. lia.
    - replace j with (j - C + C) at 1 by lia. rewrite Q8 by lia.
      now apply item_periodic_sub. }
  assert (EhdF : forall j, idx lst <= j < idx lst + num_elements lst ->
                  index_of lstF (item lst j) = j mod (2 * C)).
  { intros j Hj. rewrite Z.mod_small by lia. destruct (Z_lt_dec j C).
    - rewrite Q10; [apply Hslot; lia|].
      intros j' Hj' E. apply Hsinj in E; lia.
    - rewrite <- (item_periodic_sub lst j) by assumption. fold C.
      rewrite Q9 by lia. lia. }
  split; [|split; [exact Q2|split; [exact Q3|split; [exact Q4|]]]].
  - split; [exact Q1|]. split; [rewrite Q2, Q3; lia|].
    rewrite Q2, Q3, Q4, Q5, A6.
    destruct HL as [HC HN Hd Hs0 Hdec Htop Hhole Hhd Hleft Hright].
    assert (Hb := fun k => L_bounds_pivot
                    (Build_LInv _ _ _ _ _ _ _ _ _ HC HN Hd Hs0 Hdec Htop Hhole Hhd Hleft Hright) k).
    constructor; try lia.
    + rewrite Hst2 by lia. exact Hs0.
    + intros k Hk. rewrite !Hst2 by lia. apply Hdec. lia.
    + rewrite Hst2 by lia. exact Htop.
    + intros k Hk. rewrite Hst2 by lia. apply Hhole. lia.
    + intros j Hj _. rewrite EitF by lia. apply EhdF. lia.
    + intros k j Hk Hj Hg. rewrite Hst2 in * by lia. specialize (Hb k ltac:(lia)).
      rewrite !EitF by lia. apply Hleft; auto.
    + intros k j Hk Hj Hg. rewrite Hst2 in * by lia. specialize (Hb k ltac:(lia)).
      rewrite !EitF by lia. apply Hright; auto.
  - split; [rewrite Q5; exact A6|]. split; [exact Q6|].
    split; [intros i Hi; rewrite Q5; now apply Hst2|]. split; [exact EitF|].
    intros q Hq. apply Q10. intros j Hj E. apply Hq.
    exists (j + C). split; [lia|]. rewrite E. now apply item_periodic.
Qed.

(** ** Insertion *)

(** What an insertion of [x] establishes. *)
Definition insert_post (lst : lst_t) (x : ptr) (lst' : lst_t) : Prop :=
  Inv lst'
  /\ idx lst' = idx lst
  /\ num_elements lst' = num_elements lst + 1
  /\ (forall y, resident lst' y <-> resident lst y \/ y = x).

Lemma bucket_add_Inv lst k x :
  Inv lst -> num_elements lst < capacity lst -> ~ resident lst x ->
  0 <= k < depth (s lst) ->
  (forall i, 1 <= i < depth (s lst) ->
             (i <= k -> cmp x (item lst (stack_item (s lst) i)) <= 0)
             /\ (k < i -> cmp x (item lst (stack_item (s lst) i)) >= 0)) ->
  insert_post lst x (bucket_add lst k x)
  /\ capacity (bucket_add lst k x) = capacity lst.
Proof.
  intros (Hwf & Hidx & HL) HN Hfresh Hk Hord.
  destruct (bucket_add_spec lst k x (depth (s lst)) (depth (s lst)) Hwf HL HN Hk)
    as (B1 & B2 & B3 & B4 & B5 & B6 & B7 & B8 & B9); auto.
  { apply Hwf. }
  split; [|exact B2].
  split; [|split; [exact B3|split; [exact B4|exact B9]]].
  split; [exact B1|]. split; [rewrite B2, B3; exact Hidx|].
  rewrite B2, B3, B4, B5. exact B8.
Qed.

Lemma bucket_add_flat_Inv lst K x :
  Inv lst -> num_elements lst < capacity lst -> ~ resident lst x ->
  1 <= K < depth (s lst) ->
  (forall i, 1 <= i < K -> cmp x (item lst (stack_item (s lst) i)) <= 0) ->
  insert_post lst x (bucket_add (lst_flatten lst K) K x)
  /\ capacity (bucket_add (lst_flatten lst K) K x) = capacity lst.
Proof.
  intros HI HN Hfresh HK Hord. pose proof HI as (Hwf & Hidx & HL).
  destruct (Inv_flatten lst K HI ltac:(lia)) as ((Hwff & _ & _) & Edf & ESf & Eif).
  set (lstf := lst_flatten lst K) in *.
  assert (HLf : LInv (capacity lstf) (idx lstf) (num_elements lstf) (K + 1) K
                     (stack_item (s lstf)) (item lstf) (index_of lstf)
                     (idx lstf + num_elements lstf)).
  { apply LInv_restrict with (d := depth (s lst)) (dord := depth (s lst)); try lia.
    exact HL. }
  destruct (bucket_add_spec lstf K x (K + 1) K Hwff HLf)
    as (B1 & B2 & B3 & B4 & B5 & B6 & B7 & B8 & B9); auto; try lia.
  { cbn [size s lstf lst_flatten with_s stack_pop]. destruct Hwf. lia. }
  { intros i Hi. split; [intros _; apply Hord; lia|intros; lia]. }
  cbn [capacity idx num_elements lstf lst_flatten with_s] in B2, B3, B4, B8.
  split; [|exact B2].
  split; [|split; [exact B3|split; [exact B4|exact B9]]].
  split; [exact B1|]. split; [rewrite B2, B3; exact Hidx|].
  rewrite B2, B3, B4, B5, Edf.
  apply LInv_restrict with (d := K + 1) (dord := K); try lia. exact B8.
Qed.

Lemma _lst_insert_spec x fuel : forall lst k,
  Inv lst -> num_elements lst < capacity lst -> ~ resident lst x ->
  0 <= k < depth (s lst) ->
  (forall i, 1 <= i <= k -> cmp x (item lst (stack_item (s lst) i)) < 0) ->
  depth (s lst) - k <= Z.of_nat fuel ->
  exists lst', _lst_insert cmp fuel lst k x = Some lst'
               /\ insert_post lst x lst' /\ capacity lst' = capacity lst.
Proof.
  induction fuel as [|f IH]; intros lst k HI HN Hfresh Hk Hlt Hf; [simpl in Hf; lia|].
  rewrite Nat2Z.inj_succ in Hf. pose proof HI as (Hwf & Hidx & HL).
  cbn [_lst_insert]. rewrite is_bucket_spec.
  destruct (Z.eqb_spec k (depth (s lst) - 1)) as [Ek|Ek].
  - eexists. split; [reflexivity|].
    apply bucket_add_Inv; [exact HI | exact HN | exact Hfresh | exact Hk |].
    intros i Hi. split; [intros Hik|intros; lia].
    specialize (Hlt i ltac:(lia)). lia.
  - destruct (rand lst) as [r lstr] eqn:Er.
    destruct (rand_spec _ _ _ Er) as (Hr & rs & ->).
    assert (HIr : Inv (with_rand_state lst rs)) by now apply Inv_with_rand_state.
    set (lstr := with_rand_state lst rs) in *.
    assert (Hpost : forall l', insert_post lstr x l' /\ capacity l' = capacity lstr ->
                               insert_post lst x l' /\ capacity l' = capacity lst).
    { intros l' H. exact H. }
    destruct (negb (Z.rem r (lst_size lstr (k + 1) + 1) =? 0)).
    + unfold pivot_item.
      destruct (Z.ltb_spec (cmp x (item lstr (stack_item (s lstr) (k + 1)))) 0) as [Hc|Hc].
      * destruct (IH lstr (k + 1)) as (l' & E & HP); auto; try (cbn; lia).
        -- intros i Hi. destruct (Z.eq_dec i (k + 1)) as [->|]; [exact Hc|].
           apply Hlt. lia.
        -- exists l'. split; [exact E|]. apply Hpost. exact HP.
      * replace (k + 1 - 1) with k by lia.
        eexists. split; [reflexivity|]. apply Hpost.
        apply bucket_add_Inv; [exact HIr | exact HN | exact Hfresh | exact Hk |].
        intros i Hi. change (depth (s lstr)) with (depth (s lst)) in Hi.
        split; [intros Hik|intros Hik].
        -- specialize (Hlt i ltac:(lia)). 
           change (item lstr) with (item lst). change (s lstr) with (s lst). lia.
        -- change (item lstr) with (item lst). change (s lstr) with (s lst).
           change (item lstr) with (item lst) in Hc. change (s lstr) with (s lst) in Hc.
           destruct (Z.eq_dec i (k + 1)) as [->|Hne]; [lia|].
           apply (cmp_flip_le cmp_ok).
           apply (cmp_le_trans cmp_ok) with (b := item lst (stack_item (s lst) (k + 1))).
           ++ apply (L_left _ _ _ _ _ _ _ _ _ HL); try lia.
              ** pose proof (L_mono HL (k + 1) i ltac:(lia) ltac:(lia) ltac:(lia)).
                 pose proof (L_bounds HL i ltac:(lia)). lia.
              ** pose proof (L_bounds_pivot HL i ltac:(lia)). lia.
           ++ apply (cmp_flip_le cmp_ok). lia.
    + eexists. split; [reflexivity|]. apply Hpost.
      apply bucket_add_flat_Inv; [exact HIr | exact HN | exact Hfresh | |].
      * cbn [s lstr with_rand_state]. lia.
      * intros i Hi. specialize (Hlt i ltac:(lia)).
        change (item lstr) with (item lst). change (s lstr) with (s lst). lia.
Qed.

(** The state in which [lst_insert] looks at the handle of the new record:
    expanded when the array was full. *)
Lemma insert_expand_spec lst (lst0 := if num_elements lst =? capacity lst
                                      then lst_expand lst else lst) :
  Inv lst ->
  Inv lst0
  /\ num_elements lst0 < capacity lst0
  /\ idx lst0 = idx lst
  /\ num_elements lst0 = num_elements lst
  /\ (capacity lst0 = capacity lst \/ capacity lst0 = 2 * capacity lst)
  /\ (forall y, resident lst0 y <-> resident lst y)
  /\ (forall q, ~ resident lst q -> index_of lst0 q = index_of lst q)
  /\ (forall j, idx lst <= j < idx lst + num_elements lst -> item lst0 j = item lst j).
Proof.
  intros HI. pose proof (Inv_num_elements lst HI) as HN.
  pose proof (Inv_capacity_pos lst HI) as Hc.
  subst lst0. destruct (Z.eqb_spec (num_elements lst) (capacity lst)) as [E|E].
  - destruct (lst_expand_spec lst HI E) as (X1 & X2 & X3 & X4 & X5 & X6 & X7 & X8 & X9).
    split; [exact X1|]. split; [lia|]. split; [exact X3|]. split; [exact X4|].
    split; [right; exact X2|]. split; [|split; [exact X9|exact X8]].
    intros y. unfold resident. rewrite X3, X4.
    split; intros (j & Hj & Ej); exists j; (split; [exact Hj|]);
      [rewrite <- X8 by lia | rewrite X8 by lia]; exact Ej.
  - split; [exact HI|]. split; [lia|]. split; [reflexivity|]. split; [reflexivity|].
    split; [left; reflexivity|]. split; [reflexivity|]. split; reflexivity.
Qed.

Lemma lst_insert_spec fuel lst x :
  Inv lst -> ~ resident lst x -> index_of lst x <= 0 ->
  num_elements lst + 1 <= Z.of_nat fuel ->
  exists lst', lst_insert cmp fuel lst x = Some (1, lst')
               /\ insert_post lst x lst'
               /\ (capacity lst' = capacity lst \/ capacity lst' = 2 * capacity lst).
Proof.
  intros HI Hfresh Hhd Hf.
  destruct (insert_expand_spec lst HI) as (HI0 & HN0 & Ei0 & En0 & Ec0 & Hres0 & Hhd0 & Eit0).
  unfold lst_insert, item_index.
  set (lst0 := if num_elements lst =? capacity lst then lst_expand lst else lst) in *.
  rewrite (Hhd0 x Hfresh).
  destruct (Z.gtb_spec (index_of lst x) 0); [lia|]. cbn [orb].
  assert (Echeck : (index_of lst x =? 0) && (num_elements lst0 >? 0) && (idx lst0 =? 0)
                   && (item lst0 0 =? x) = false).
  { destruct (Z.eqb_spec (index_of lst x) 0); [|reflexivity].
    destruct (Z.gtb_spec (num_elements lst0) 0); [|reflexivity].
    destruct (Z.eqb_spec (idx lst0) 0) as [E0|]; [|reflexivity].
    destruct (Z.eqb_spec (item lst0 0) x) as [Ex|]; [|reflexivity].
    exfalso. apply Hfresh. apply Hres0. exists 0. split; [lia|exact Ex]. }
  rewrite Echeck.
  destruct (_lst_insert_spec x fuel lst0 0 HI0 HN0) as (lst' & E & (P1 & P2 & P3 & P4) & Ec).
  - intros Hr0. apply Hfresh. now apply Hres0.
  - pose proof HI0 as (_ & _ & HL0). pose proof (L_d _ _ _ _ _ _ _ _ _ HL0). lia.
  - intros i Hi. lia.
  - pose proof (Inv_depth_bound lst0 HI0). lia.
  - exists lst'. rewrite E. split; [reflexivity|]. split.
    + split; [exact P1|]. split; [congruence|]. split; [lia|].
      intros y. rewrite P4, Hres0. reflexivity.
    + rewrite Ec. exact Ec0.
Qed.

(** With [idx = 0] (no element has left through the front since the indices
    were last reduced), an insertion that succeeds was of a record that was
    not resident. *)
Lemma lst_insert_success_fresh fuel lst x lst' :
  Inv lst -> idx lst = 0 ->
  lst_insert cmp fuel lst x = Some (1, lst') ->
  ~ resident lst x /\ index_of lst x <= 0.
Proof.
  intros HI Hidx0 E.
  destruct (insert_expand_spec lst HI) as (HI0 & HN0 & Ei0 & En0 & Ec0 & Hres0 & Hhd0 & Eit0).
  unfold lst_insert, item_index in E.
  set (lst0 := if num_elements lst =? capacity lst then lst_expand lst else lst) in *.
  destruct ((index_of lst0 x >? 0)
            || (index_of lst0 x =? 0) && (num_elements lst0 >? 0) && (idx lst0 =? 0)
               && (item lst0 0 =? x)) eqn:Echeck; [discriminate|].
  apply orb_false_iff in Echeck. destruct Echeck as [Epos Ezero].
  assert (Hle : index_of lst0 x <= 0).
  { destruct (Z.gtb_spec (index_of lst0 x) 0); [discriminate|lia]. }
  assert (Hfresh : ~ resident lst x).
  { intros Hres. apply Hres0 in Hres. destruct Hres as (j & Hj & Ej).
    pose proof HI0 as (_ & _ & HL0).
    pose proof (L_hd _ _ _ _ _ _ _ _ _ HL0 j Hj ltac:(lia)) as Hh.
    rewrite Ej in Hh.
    pose proof (Inv_capacity_pos lst0 HI0) as Hc0.
    pose proof (Z.mod_pos_bound j (capacity lst0) Hc0).
    assert (j = 0).
    { rewrite Ei0, Hidx0 in Hj. rewrite Z.mod_small in Hh by lia. lia. }
    subst j. rewrite Ei0, Hidx0 in Hj.
    assert (Et : (index_of lst0 x =? 0) && (num_elements lst0 >? 0) && (idx lst0 =? 0)
                 && (item lst0 0 =? x) = true).
    { rewrite Ej, Z.eqb_refl, Ei0, Hidx0. rewrite Hh, Zmod_0_l. cbn.
      destruct (Z.gtb_spec (num_elements lst0) 0); [reflexivity|lia]. }
    congruence. }
  split; [exact Hfresh|]. rewrite <- (Hhd0 x Hfresh). exact Hle.
Qed.

(** The state that [_lst_alloc] returns. *)
Lemma Inv_alloc mem seed : Inv (_lst_alloc mem seed).
Proof.
  split; [|split].
  - constructor; cbn.
    + exists 11. split; [lia|reflexivity].
    + reflexivity.
    + reflexivity.
    + unfold INITIAL_STACK_CAPACITY. lia.
  - cbn. unfold INITIAL_CAPACITY. lia.
  - cbn [capacity idx num_elements s _lst_alloc].
    change (depth (stack_push stack_alloc 0)) with 1.
    constructor; try (unfold INITIAL_CAPACITY; lia); try (intros; lia).
    + reflexivity.
    + change (stack_item (stack_push stack_alloc 0) (1 - 1)) with 0. lia.
Qed.

(** * Part VI: runs of insertions and pops *)

Lemma lst_insert_all_spec fuel : forall records lst lst',
  Inv lst -> idx lst = 0 ->
  num_elements lst + Z.of_nat (length records) + 1 <= Z.of_nat fuel ->
  lst_insert_all cmp fuel lst records = Some lst' ->
  Inv lst' /\ idx lst' = 0
  /\ num_elements lst' = num_elements lst + Z.of_nat (length records)
  /\ NoDup records
  /\ (forall y, In y records -> ~ resident lst y)
  /\ (forall y, resident lst' y <-> resident lst y \/ In y records).
Proof.
  induction records as [|x rest IH]; intros lst lst' HI Hidx Hf E.
  - cbn in E. injection E as <-. cbn [length Z.of_nat].
    split; [exact HI|]. split; [exact Hidx|]. split; [lia|]. split; [constructor|].
    split; [intros y []|]. intros y. cbn. tauto.
  - cbn [lst_insert_all] in E. cbn [length] in Hf. rewrite Nat2Z.inj_succ in Hf.
    destruct (lst_insert cmp fuel lst x) as [[r lst1]|] eqn:E1; [|discriminate].
    destruct (Z.eqb_spec r 1) as [->|]; [|discriminate].
    destruct (lst_insert_success_fresh fuel lst x lst1 HI Hidx E1) as (Hfresh & Hhd).
    destruct (lst_insert_spec fuel lst x HI Hfresh Hhd ltac:(lia))
      as (lst1' & E1' & (P1 & P2 & P3 & P4) & _).
    rewrite E1 in E1'. injection E1' as <-.
    destruct (IH lst1 lst' P1 ltac:(congruence) ltac:(lia) E)
      as (Q1 & Q2 & Q3 & Q4 & Q5 & Q6).
    split; [exact Q1|]. split; [exact Q2|].
    split; [cbn [length]; rewrite Nat2Z.inj_succ; lia|].
    split; [|split].
    + constructor; [|exact Q4]. intros Hin. apply (Q5 x Hin). apply P4. now right.
    + intros y [<-|Hin]; [exact Hfresh|].
      intros Hres. apply (Q5 y Hin). apply P4. now left.
    + intros y. rewrite Q6, P4. cbn [In]. split.
      * intros [[H| ->]|H]; auto.
      * intros [H|[<-|H]]; auto.
Qed.

Lemma lst_pop_n_spec fuel : forall n lst,
  Inv lst -> num_elements lst = Z.of_nat n ->
  Z.of_nat n + 3 <= Z.of_nat fuel ->
  exists out lst',
    lst_pop_n cmp fuel n lst = Some (out, lst')
    /\ Inv lst' /\ num_elements lst' = 0
    /\ (forall y, In y out <-> resident lst y)
    /\ NoDup out
    /\ StronglySorted (fun a b => cmp a b <= 0) out.
Proof.
  induction n as [|n IH]; intros lst HI Hn Hf.
  - exists [], lst. split; [reflexivity|]. split; [exact HI|]. split; [exact Hn|].
    split; [|split; constructor].
    intros y. cbn. split; [intros []|]. intros (j & Hj & _). lia.
  - rewrite Nat2Z.inj_succ in *.
    destruct (lst_pop_spec fuel lst HI ltac:(lia) ltac:(lia))
      as (x & lst1 & E1 & (P1 & P2 & P3 & P4 & P5 & P6 & P7)).
    destruct (IH lst1 P1 ltac:(lia) ltac:(lia)) as (out & lst' & E & Q1 & Q2 & Q3 & Q4 & Q5).
    exists (x :: out), lst'. cbn [lst_pop_n]. rewrite E1, E.
    split; [reflexivity|]. split; [exact Q1|]. split; [exact Q2|].
    split; [|split].
    + intros y. cbn [In]. rewrite Q3, P7. split.
      * intros [<-|[H _]]; auto.
      * intros H. destruct (Z.eq_dec x y); [now left|right; split; auto].
    + constructor; [|exact Q4]. intros Hin. apply Q3, P7 in Hin. now destruct Hin.
    + constructor; [exact Q5|]. apply Forall_forall. intros y Hin.
      apply P3. apply Q3, P7 in Hin. now destruct Hin.
Qed.

(** * Part VII: the iterator *)

Lemma lst_iter_next_spec lst i :
  Inv lst ->
  lst_iter_next (Some lst) i =
  if i + 1 >=? idx lst + num_elements lst then (NULL, i) else (item lst (i + 1), i + 1).
Proof.
  intros (_ & _ & HL). unfold lst_iter_next.
  now rewrite (L_s0 _ _ _ _ _ _ _ _ _ HL).
Qed.

Lemma lst_iter_collect_spec lst : forall m i,
  Inv lst ->
  idx lst <= i -> i + Z.of_nat m <= idx lst + num_elements lst ->
  lst_iter_collect m lst (item lst i, i) =
  map (fun t => item lst (i + Z.of_nat t)) (seq 0 m).
Proof.
  induction m as [|m IH]; intros i HI Hi Hm; [reflexivity|].
  rewrite Nat2Z.inj_succ in Hm.
  cbn [lst_iter_collect fst snd seq map]. rewrite Z.add_0_r. f_equal.
  rewrite <- seq_shift, map_map.
  destruct m as [|m]; [reflexivity|].
  rewrite lst_iter_next_spec by assumption.
  rewrite Nat2Z.inj_succ in Hm.
  destruct (Z.geb_spec (i + 1) (idx lst + num_elements lst)); [lia|].
  rewrite IH by (auto; rewrite ?Nat2Z.inj_succ; lia).
  apply map_ext. intros t. f_equal. lia.
Qed.

(** * Part VIII: removing an element from the middle of the array *)

(** An invariant whose hole lies outside of the occupied range holds with the
    hole at any position that is not a pivot. *)
Lemma LInv_open C i0 N d dord S it hd g :
  LInv C i0 N d dord S it hd (i0 + N) ->
  (forall k, 1 <= k < d -> S k <> g) ->
  LInv C i0 N d dord S it hd g.
Proof.
  intros HL Hg. pose proof HL as [H1 H2 H3 H4 H5 H6 H7 H8 H9 H10].
  constructor; auto.
  - intros j Hj _. apply H8; lia.
  - intros k j Hk Hj _. apply H9; try lia.
    pose proof (L_bounds_pivot HL k ltac:(lia)). lia.
  - intros k j Hk Hj _. apply H10; lia.
Qed.

(** The pivots around a hole that lies in bucket [k]. *)
Lemma bucket_order C i0 N d dord S it hd g0 g k :
  LInv C i0 N d dord S it hd g0 ->
  0 <= k < d -> g < S k -> (k + 1 < d -> S (k + 1) < g) ->
  (forall k', 0 <= k' <= k -> S k <= S k')
  /\ (forall k', k < k' < d -> S k' < g).
Proof.
  intros HL Hk Hg Hlow. split.
  - intros k' Hk'. destruct (Z.eq_dec k' k) as [->|Hne]; [lia|].
    pose proof (L_mono HL k' k ltac:(lia) ltac:(lia) ltac:(lia)). lia.
  - intros k' Hk'. specialize (Hlow ltac:(lia)).
    destruct (Z.eq_dec k' (k + 1)) as [->|Hne]; [exact Hlow|].
    pose proof (L_mono HL (k + 1) k' ltac:(lia) ltac:(lia) ltac:(lia)). lia.
Qed.

Lemma lst_move_equiv lst a b v :
  wf lst -> a mod capacity lst = b mod capacity lst ->
  lst_move lst a v = lst_move lst b v.
Proof.
  intros Hwf E. unfold lst_move, set_item, set_item_index.
  rewrite !index_reduce_mod by (cbn [capacity with_p]; exact (wf_cap _ Hwf)).
  cbn [capacity with_p]. rewrite E. reflexivity.
Qed.

Lemma is_equivalent_window lst a b g t :
  wf lst -> a mod capacity lst = g mod capacity lst ->
  b mod capacity lst = t mod capacity lst ->
  Z.abs (g - t) < capacity lst ->
  is_equivalent lst a b = (g =? t).
Proof.
  intros Hwf Ea Eb Hw. pose proof (pow2_pos _ (wf_cap _ Hwf)) as Hc.
  rewrite is_equivalent_spec by assumption.
  rewrite Zminus_mod, Ea, Eb, <- Zminus_mod.
  destruct (Z.eqb_spec g t) as [->|Hne].
  - rewrite Z.sub_diag, Zmod_0_l. reflexivity.
  - apply Z.eqb_neq. intros E.
    apply Z.mod_divide in E; [|lia]. destruct E as [q Hq].
    assert (q = 0) by nia. lia.
Qed.

Lemma bucket_delete_loop_0 lst loc :
  bucket_delete_loop 0 lst loc =
  let top := bucket_upb lst 0 in
  let l1 := if negb (is_equivalent lst loc top)
            then lst_move lst loc (item lst top) else lst in
  with_s l1 (stack_set (s l1) 0 top).
Proof. reflexivity. Qed.

Lemma bucket_delete_loop_S k lst loc :
  bucket_delete_loop (S k) lst loc =
  let K := Z.of_nat (S k) in
  let top := bucket_upb lst K in
  let l1 := if negb (is_equivalent lst loc top)
            then lst_move lst loc (item lst top) else lst in
  let l2 := with_s l1 (stack_set (s l1) K top) in
  bucket_delete_loop k (lst_move l2 top (item l2 (top + 1))) (top + 1).
Proof. reflexivity. Qed.

(** The first half of an iteration of the loop of [bucket_delete]: the hole
    moves to the upper end of its bucket. *)
Lemma delete_prefix lst loc g C i0 N d dord k :
  capacity lst = C -> idx lst = i0 -> num_elements lst = N -> wf lst ->
  LInv C i0 N d dord (stack_item (s lst)) (item lst) (index_of lst) g ->
  0 <= k < d -> loc mod C = g mod C ->
  i0 <= g < stack_item (s lst) k ->
  (k + 1 < d -> stack_item (s lst) (k + 1) < g) ->
  let top := bucket_upb lst k in
  let l1 := if negb (is_equivalent lst loc top)
            then lst_move lst loc (item lst top) else lst in
  wf l1 /\ capacity l1 = C /\ idx l1 = i0 /\ num_elements l1 = N
  /\ s l1 = s lst /\ rand_state l1 = rand_state lst
  /\ top = stack_item (s lst) k - 1 /\ g <= top < i0 + N
  /\ LInv C i0 N d dord (stack_item (s lst)) (item l1) (index_of l1) top
  /\ (forall y, held (item l1) i0 (i0 + N) top y <-> held (item lst) i0 (i0 + N) g y)
  /\ (forall q, ~ held (item lst) i0 (i0 + N) g q -> index_of l1 q = index_of lst q).
Proof.
  intros EC Ei EN Hwf HL Hk Eloc Hg Hlow top l1.
  pose proof (pow2_pos _ (wf_cap _ Hwf)) as Hc. rewrite EC in Hc.
  pose proof (L_N _ _ _ _ _ _ _ _ _ HL) as HN.
  pose proof (L_bounds HL k ltac:(lia)) as Hbk.
  destruct (bucket_order _ _ _ _ _ _ _ _ _ g k HL Hk ltac:(lia) Hlow) as (Hup & Hdn).
  assert (Etop : top = stack_item (s lst) k - 1) by reflexivity.
  assert (Heq : is_equivalent lst loc top = (g =? top)).
  { apply is_equivalent_window; rewrite ?EC; auto. lia. }
  subst l1. rewrite Heq.
  destruct (Z.eqb_spec g top) as [E|E]; cbn [negb].
  - rewrite <- E.
    do 8 (split; [first [assumption | reflexivity | lia]|]).
    split; [exact HL|]. split; [intros y; reflexivity|]. intros q _. reflexivity.
  - rewrite (lst_move_equiv lst loc g) by (rewrite ?EC; auto).
    destruct (lst_move_window lst g (item lst top) i0 (i0 + N) Hwf)
      as (E1 & E2 & E3 & E4); [rewrite EC; lia | lia |].
    rewrite EC in E3.
    destruct (lst_move_frame lst g (item lst top)) as (F1 & F2 & F3 & F4 & F5).
    split; [now apply lst_move_wf|].
    split; [congruence|]. split; [congruence|]. split; [congruence|].
    split; [exact F4|]. split; [exact F5|]. split; [exact Etop|]. split; [lia|].
    split; [|split].
    + apply LInv_move with (it := item lst) (hd := index_of lst) (g := g) (j0 := top);
        try assumption; try lia.
      * intros k' Hk'. destruct (Z_le_dec k' k).
        -- specialize (Hup k' ltac:(lia)). lia.
        -- specialize (Hdn k' ltac:(lia)). lia.
      * intros k' Hk'. pose proof (L_d _ _ _ _ _ _ _ _ _ HL). destruct (Z_le_dec k' k).
        -- specialize (Hup k' ltac:(lia)). lia.
        -- specialize (Hdn k' ltac:(lia)). lia.
      * intros j Hj Hne _. apply E2; assumption.
    + intros y. apply held_move; try lia; try assumption.
      intros j Hj Hne _. apply E2; assumption.
    + intros q Hq. apply E4. intros ->. apply Hq.
      exists top. split; [lia|]. split; [lia|reflexivity].
Qed.

(** The state in which the loop of [bucket_delete] ends, seen from the state
    [lst] with a hole at [g] in which it started. *)
Definition delete_done (C i0 N d dord : Z) (lst : lst_t) (g : Z) (l : lst_t) : Prop :=
  wf l /\ capacity l = C /\ idx l = i0 /\ num_elements l = N
  /\ depth (s l) = depth (s lst) /\ size (s l) = size (s lst)
  /\ rand_state l = rand_state lst
  /\ LInv C i0 (N - 1) d dord (stack_item (s l)) (item l) (index_of l) (i0 + (N - 1))
  /\ (forall y, held (item l) i0 (i0 + N) (i0 + N - 1) y
                <-> held (item lst) i0 (i0 + N) g y)
  /\ (forall q, ~ held (item lst) i0 (i0 + N) g q -> index_of l q = index_of lst q).

Lemma bucket_delete_loop_spec (k : nat) : forall lst loc g C i0 N d dord,
  capacity lst = C -> idx lst = i0 -> num_elements lst = N -> wf lst ->
  LInv C i0 N d dord (stack_item (s lst)) (item lst) (index_of lst) g ->
  Z.of_nat k < d -> d <= size (s lst) -> loc mod C = g mod C ->
  i0 <= g < stack_item (s lst) (Z.of_nat k) ->
  (Z.of_nat k + 1 < d -> stack_item (s lst) (Z.of_nat k + 1) < g) ->
  delete_done C i0 N d dord lst g (bucket_delete_loop k lst loc).
Proof.
  induction k as [|k IH];
    intros lst loc g C i0 N d dord EC Ei EN Hwf HL Hkd Hsz Eloc Hg Hlow.
  - rewrite bucket_delete_loop_0. cbv zeta.
    destruct (delete_prefix lst loc g C i0 N d dord 0 EC Ei EN Hwf HL
                ltac:(lia) Eloc Hg Hlow)
      as (Hwf1 & C1 & I1 & N1 & S1 & R1 & Etop & Htop & HL1 & Hh1 & Hf1).
    set (top := bucket_upb lst 0) in *.
    set (l1 := if negb (is_equivalent lst loc top)
               then lst_move lst loc (item lst top) else lst) in *.
    pose proof (L_s0 _ _ _ _ _ _ _ _ _ HL) as Hs0. cbn [Z.of_nat] in *.
    pose proof Hwf1 as [W1 W2 W3 W4].
    assert (Etop' : top = i0 + N - 1) by lia.
    unfold delete_done. cbn [capacity idx num_elements s rand_state with_s
                            stack_set depth size].
    split.
    { constructor; cbn [capacity p s with_s stack_set depth size data]; auto.
      now rewrite array_set_length. }
    rewrite S1 in *.
    do 6 (split; [first [assumption | reflexivity]|]).
    split; [|split].
    + apply LInv_shrink with (S := stack_item (s lst)).
      * rewrite <- Etop'. exact HL1.
      * lia.
      * rewrite stack_item_set by (try assumption; lia). rewrite Z.eqb_refl. exact Etop'.
      * intros k' Hk'. rewrite stack_item_set by (try assumption; lia).
        destruct (Z.eqb_spec k' 0); [lia|reflexivity].
    + intros y. rewrite <- Hh1, Etop'. reflexivity.
    + exact Hf1.
  - rewrite bucket_delete_loop_S. set (K := Z.of_nat (S k)) in *. cbv zeta.
    assert (EK : K = Z.of_nat k + 1) by (subst K; lia).
    destruct (delete_prefix lst loc g C i0 N d dord K EC Ei EN Hwf HL
                ltac:(lia) Eloc Hg Hlow)
      as (Hwf1 & C1 & I1 & N1 & S1 & R1 & Etop & Htop & HL1 & Hh1 & Hf1).
    set (top := bucket_upb lst K) in *.
    set (l1 := if negb (is_equivalent lst loc top)
               then lst_move lst loc (item lst top) else lst) in *.
    set (l2 := with_s l1 (stack_set (s l1) K top)).
    pose proof (L_N _ _ _ _ _ _ _ _ _ HL) as HN.
    pose proof (pow2_pos _ (wf_cap _ Hwf)) as Hc. rewrite EC in Hc.
    pose proof (L_bounds_pivot HL K ltac:(lia)) as HbK.
    destruct (bucket_order _ _ _ _ _ _ _ _ _ g K HL ltac:(lia) ltac:(lia) Hlow) as (Hup & Hdn).
    pose proof (L_mono HL (Z.of_nat k) K ltac:(lia) ltac:(lia) ltac:(lia)) as Hmono.
    pose proof Hwf1 as [W1 W2 W3 W4].
    assert (Hwf2 : wf l2).
    { constructor; cbn [capacity p s with_s stack_set depth size data l2]; auto.
      now rewrite array_set_length. }
    assert (Hst2 : forall i, 0 <= i ->
              stack_item (s l2) i = if i =? K then top else stack_item (s lst) i).
    { intros i Hi. cbn [s with_s l2]. rewrite stack_item_set by (try assumption; rewrite ?S1; lia).
      now rewrite S1. }
    set (l3 := lst_move l2 top (item l2 (top + 1))).
    destruct (lst_move_window l2 top (item l2 (top + 1)) i0 (i0 + N) Hwf2)
      as (E1 & E2 & E3 & E4);
      [cbn [capacity with_s l2]; rewrite C1; lia | lia |].
    cbn [capacity with_s l2] in E3. rewrite C1 in E3.
    change (item l2) with (item l1) in *.
    change (index_of l2) with (index_of l1) in *.
    fold l3 in E1, E2, E3, E4.
    assert (Etop1 : top + 1 = stack_item (s lst) K) by lia.
    assert (HL3 : LInv C i0 N d dord (stack_item (s l3)) (item l3) (index_of l3) (top + 1)).
    { rewrite Etop1.
      apply LInv_pivot_shift with (S := stack_item (s lst)) (it := item l1)
                                  (hd := index_of l1) (g := top) (k0 := K);
        try assumption; try lia.
      - change (s l3) with (s l2). rewrite Hst2 by lia. now rewrite Z.eqb_refl.
      - intros k' Hk' Hne. change (s l3) with (s l2). rewrite Hst2 by lia.
        destruct (Z.eqb_spec k' K); [contradiction|reflexivity].
      - rewrite <- Etop1. exact E1.
      - intros j Hj Hne _. apply E2; assumption.
      - rewrite <- Etop1. exact E3.
      - rewrite <- Etop1. exact E4. }
    assert (Hwf3 : wf l3) by now apply lst_move_wf.
    assert (Hst3 : forall i, 0 <= i ->
              stack_item (s l3) i = if i =? K then top else stack_item (s lst) i).
    { exact Hst2. }
    specialize (IH l3 (top + 1) (top + 1) C i0 N d dord).
    destruct IH as (D1 & D2 & D3 & D4 & D5 & D6 & D7 & D8 & D9 & D10);
      try assumption; try reflexivity; try lia.
    { change (size (s l3)) with (size (s l1)). rewrite S1. exact Hsz. }
    { rewrite Hst3 by lia. destruct (Z.eqb_spec (Z.of_nat k) K); lia. }
    { intros _. rewrite Hst3 by lia. replace (Z.of_nat k + 1) with K by lia.
      rewrite Z.eqb_refl. lia. }
    assert (Hh3 : forall y, held (item l3) i0 (i0 + N) (top + 1) y
                            <-> held (item l1) i0 (i0 + N) top y).
    { intros y. apply held_move; try lia; try assumption.
      intros j Hj Hne _. apply E2; assumption. }
    unfold delete_done.
    split; [exact D1|]. split; [exact D2|]. split; [exact D3|]. split; [exact D4|].
    split; [rewrite D5; change (s l3) with (s l2); cbn [l2 s with_s stack_set depth];
            now rewrite S1|].
    split; [rewrite D6; change (s l3) with (s l2); cbn [l2 s with_s stack_set size];
            now rewrite S1|].
    split; [rewrite D7; exact R1|].
    split; [exact D8|]. split.
    + intros y. rewrite D9, Hh3, Hh1. reflexivity.
    + intros q Hq. rewrite D10.
      * rewrite E4; [apply Hf1; exact Hq|].
        intros ->. apply Hq. apply Hh1. exists (top + 1).
        split; [lia|]. split; [lia|reflexivity].
      * intros Hq'. apply Hq. apply Hh1, Hh3. exact Hq'.
Qed.

(** What [lst_extract] achieves for a resident record [x]. *)
Definition extract_post (lst : lst_t) (x : ptr) (lst' : lst_t) : Prop :=
  Inv lst'
  /\ capacity lst' = capacity lst
  /\ num_elements lst' = num_elements lst - 1
  /\ depth (s lst') <= depth (s lst)
  /\ rand_state lst' = rand_state lst
  /\ index_of lst' x = -1
  /\ (forall q, ~ resident lst q -> index_of lst' q = index_of lst q)
  /\ (forall y, resident lst' y <-> resident lst y /\ y <> x).

(** The end of [bucket_delete] after its loop. *)
Lemma bucket_delete_finish lst g l x :
  0 <= idx lst < capacity lst ->
  delete_done (capacity lst) (idx lst) (num_elements lst)
              (depth (s lst)) (depth (s lst)) lst g l ->
  (forall y, held (item lst) (idx lst) (idx lst + num_elements lst) g y -> y <> x) ->
  let lst' := set_item_index (with_num_elements l (num_elements l - 1)) x (-1) in
  Inv lst'
  /\ capacity lst' = capacity lst
  /\ num_elements lst' = num_elements lst - 1
  /\ depth (s lst') = depth (s lst)
  /\ rand_state lst' = rand_state lst
  /\ index_of lst' x = -1
  /\ (forall q, q <> x ->
                ~ held (item lst) (idx lst) (idx lst + num_elements lst) g q ->
                index_of lst' q = index_of lst q)
  /\ (forall y, resident lst' y
                <-> held (item lst) (idx lst) (idx lst + num_elements lst) g y).
Proof.
  intros Hidx (D1 & D2 & D3 & D4 & D5 & D6 & D7 & D8 & D9 & D10) Hx lst'.
  pose proof D1 as [W1 W2 W3 W4].
  assert (Hit : forall j, item lst' j = item l j) by reflexivity.
  assert (Hres : forall y, resident lst' y
                 <-> held (item lst) (idx lst) (idx lst + num_elements lst) g y).
  { intros y. rewrite <- D9. unfold resident, held.
    cbn [idx num_elements lst' set_item_index with_index_of with_num_elements].
    rewrite D3, D4. split.
    - intros (j & Hj & E). exists j. rewrite Hit in E. split; [lia|]. split; [lia|exact E].
    - intros (j & Hj & Hne & E). exists j. rewrite Hit. split; [lia|exact E]. }
  split; [|split; [exact D2|]]; [|split; [|split; [exact D5|]]]; [| |split; [exact D7|]];
    [| |split; [|split; [|exact Hres]]].
  - split; [|split].
    + constructor; assumption.
    + cbn [idx capacity lst' set_item_index with_index_of with_num_elements].
      rewrite D2, D3. exact Hidx.
    + cbn [idx capacity num_elements s lst' set_item_index with_index_of with_num_elements].
      rewrite D2, D3, D4, D5.
      apply LInv_ext with (S := stack_item (s l)) (it := item l) (hd := index_of l);
        [exact D8 | reflexivity | reflexivity |].
      intros j Hj Hne.
      cbn [index_of lst' set_item_index with_index_of with_num_elements].
      destruct (Z.eqb_spec (item l j) x) as [E|E]; [|reflexivity].
      exfalso. apply (Hx (item l j)); [|exact E].
      apply D9. exists j. split; [lia|]. split; [lia|reflexivity].
  - cbn [num_elements lst' set_item_index with_index_of with_num_elements]. lia.
  - cbn [index_of lst' set_item_index with_index_of with_num_elements].
    now rewrite Z.eqb_refl.
  - intros q Hq Hh.
    cbn [index_of lst' set_item_index with_index_of with_num_elements].
    destruct (Z.eqb_spec q x); [contradiction|]. apply D10. exact Hh.
Qed.

(** Removing a resident record that is neither the first element nor a
    pivot: it lies in bucket [k]. *)
Lemma bucket_delete_middle lst k x g :
  Inv lst ->
  idx lst < g < idx lst + num_elements lst -> item lst g = x ->
  0 <= k < depth (s lst) -> g < stack_item (s lst) k ->
  (k + 1 < depth (s lst) -> stack_item (s lst) (k + 1) < g) ->
  extract_post lst x (bucket_delete lst k x).
Proof.
  intros HI Hg Ex Hk Hgk Hlow. pose proof HI as (Hwf & Hidx & HL).
  pose proof (pow2_pos _ (wf_cap _ Hwf)) as Hc.
  pose proof (L_N _ _ _ _ _ _ _ _ _ HL) as HN.
  pose proof Hwf as [W1 W2 W3 W4].
  destruct (bucket_order _ _ _ _ _ _ _ _ _ g k HL Hk Hgk Hlow) as (Hup & Hdn).
  assert (Eloc : index_of lst x = g mod capacity lst).
  { rewrite <- Ex. apply (L_hd _ _ _ _ _ _ _ _ _ HL); lia. }
  assert (HLg : LInv (capacity lst) (idx lst) (num_elements lst) (depth (s lst))
                     (depth (s lst)) (stack_item (s lst)) (item lst) (index_of lst) g).
  { apply LInv_open; [exact HL|]. intros k' Hk'. destruct (Z_le_dec k' k).
    - specialize (Hup k' ltac:(lia)). lia.
    - specialize (Hdn k' ltac:(lia)). lia. }
  assert (Hheld : forall y, held (item lst) (idx lst) (idx lst + num_elements lst) g y
                            <-> resident lst y /\ y <> x).
  { intros y. unfold held, resident. split.
    - intros (j & Hj & Hne & E). split; [exists j; auto|].
      intros ->. apply Hne. apply (Inv_resident_inj lst); auto; try lia; congruence.
    - intros ((j & Hj & E) & Hne). exists j. split; [exact Hj|]. split; [|exact E].
      intros ->. congruence. }
  unfold bucket_delete, item_index. rewrite Eloc.
  rewrite (is_equivalent_window lst _ _ g (idx lst)); auto;
    [|apply Z.mod_mod; lia|lia].
  destruct (Z.eqb_spec g (idx lst)); [lia|].
  pose proof (bucket_delete_loop_spec (Z.to_nat k) lst (g mod capacity lst) g
                (capacity lst) (idx lst) (num_elements lst) (depth (s lst)) (depth (s lst))
                eq_refl eq_refl eq_refl Hwf HLg) as DD.
  rewrite Z2Nat.id in DD by lia.
  specialize (DD ltac:(lia) ltac:(lia) ltac:(apply Z.mod_mod; lia) ltac:(lia) Hlow).
  destruct (bucket_delete_finish lst g _ x Hidx DD)
    as (F1 & F2 & F3 & F4 & F5 & F6 & F7 & F8).
  { intros y Hy. apply Hheld in Hy. tauto. }
  split; [exact F1|]. split; [exact F2|]. split; [exact F3|]. split; [lia|].
  split; [exact F5|]. split; [exact F6|]. split.
  - intros q Hq. apply F7.
    + intros ->. apply Hq. exists g. split; [lia|exact Ex].
    + intros Hh. apply Hheld in Hh. tauto.
  - intros y. rewrite F8. apply Hheld.
Qed.

(** Removing the record that is pivot [K]: [_lst_extract] flattens the
    subtree of that pivot and calls [bucket_delete] with the index [K], which
    is then one past the top of the stack; the loop reads the entry that the
    flattening left there. *)
Lemma bucket_delete_pivot lst K x :
  Inv lst ->
  1 <= K < depth (s lst) ->
  item lst (stack_item (s lst) K) = x ->
  extract_post lst x (bucket_delete (lst_flatten lst K) K x).
Proof.
  intros HI HK Ex. pose proof HI as (Hwf & Hidx & HL).
  pose proof (pow2_pos _ (wf_cap _ Hwf)) as Hc.
  pose proof (L_N _ _ _ _ _ _ _ _ _ HL) as HN.
  pose proof Hwf as [W1 W2 W3 W4].
  set (P := stack_item (s lst) K) in *.
  pose proof (L_bounds_pivot HL K ltac:(lia)) as HP. fold P in HP.
  destruct (Inv_flatten lst K HI ltac:(lia)) as (HIf & Edf & Esf & Eif).
  set (lf := lst_flatten lst K) in *.
  pose proof HIf as (Hwff & Hidxf & HLf).
  change (capacity lf) with (capacity lst) in *.
  change (idx lf) with (idx lst) in *.
  change (num_elements lf) with (num_elements lst) in *.
  change (index_of lf) with (index_of lst) in *.
  rewrite Edf in HLf.
  assert (Hresf : forall y, resident lf y <-> resident lst y).
  { intros y. unfold resident.
    change (idx lf) with (idx lst). change (num_elements lf) with (num_elements lst).
    split; intros (j & Hj & E); exists j; (split; [exact Hj|]);
      [rewrite <- Eif|rewrite Eif]; exact E. }
  assert (Hpiv : forall k', 1 <= k' < K -> P < stack_item (s lst) k').
  { intros k' Hk'. apply (L_mono HL); lia. }
  assert (Htop : P < stack_item (s lst) (K - 1)).
  { apply (L_mono HL); lia. }
  assert (Eloc : index_of lst x = P mod capacity lst).
  { rewrite <- Ex. apply (L_hd _ _ _ _ _ _ _ _ _ HL); lia. }
  destruct (Z.eq_dec P (idx lst)) as [EP|EP].
  - (* the pivot is the first element *)
    destruct (bucket_delete_first lf K x HIf) as (F1 & F2 & F3 & F4 & F5 & F6 & F7 & F8).
    + change (num_elements lf) with (num_elements lst). lia.
    + rewrite Eif. change (idx lf) with (idx lst). rewrite <- EP. exact Ex.
    + rewrite Edf, Esf. change (idx lf) with (idx lst). lia.
    + split; [exact F1|]. split; [exact F2|]. split; [exact F3|].
      split; [rewrite F4, Edf; lia|]. split; [exact F5|]. split; [exact F6|]. split.
      * intros q Hq. apply F7. intros ->. apply Hq. exists P. split; [lia|exact Ex].
      * intros y. rewrite F8, Hresf. reflexivity.
  - (* one iteration at the index past the top of the stack *)
    assert (Hsize : K < size (s lf)).
    { change (size (s lf)) with (size (s lst)). lia. }
    unfold bucket_delete, item_index.
    change (index_of lf x) with (index_of lst x). rewrite Eloc.
    rewrite (is_equivalent_window lf _ _ P (idx lst)); auto;
      change (capacity lf) with (capacity lst); [|apply Z.mod_mod; lia|lia].
    destruct (Z.eqb_spec P (idx lst)); [contradiction|].
    destruct (Z.to_nat K) as [|k] eqn:EK; [lia|].
    rewrite bucket_delete_loop_S.
    replace (Z.of_nat (S k)) with K by lia. cbv zeta.
    assert (Ek : Z.of_nat k = K - 1) by lia.
    assert (Etop : bucket_upb lf K = P - 1).
    { unfold bucket_upb. rewrite Esf. reflexivity. }
    rewrite Etop.
    rewrite (is_equivalent_window lf _ _ P (P - 1)); auto;
      change (capacity lf) with (capacity lst); [|apply Z.mod_mod; lia|lia].
    destruct (Z.eqb_spec P (P - 1)); [lia|]. cbn [negb].
    rewrite (lst_move_equiv lf (P mod capacity lst) P)
      by (auto; change (capacity lf) with (capacity lst); apply Z.mod_mod; lia).
    set (v := item lf (P - 1)).
    set (l1 := lst_move lf P v).
    set (l2 := with_s l1 (stack_set (s l1) K (P - 1))).
    replace (P - 1 + 1) with P by lia.
    set (l3 := lst_move l2 (P - 1) (item l2 P)).
    set (i0 := idx lst) in *. set (N := num_elements lst) in *.
    set (C := capacity lst) in *.
    destruct (lst_move_window lf P v i0 (i0 + N) Hwff) as (A1 & A2 & A3 & A4);
      [change (capacity lf) with C; lia | lia |].
    change (capacity lf) with C in A3. fold l1 in A1, A2, A3, A4.
    assert (Hwf1 : wf l1) by now apply lst_move_wf.
    pose proof Hwf1 as [V1 V2 V3 V4].
    assert (Hwf2 : wf l2).
    { constructor; cbn [capacity p s with_s stack_set depth size data l2]; auto.
      now rewrite array_set_length. }
    destruct (lst_move_window l2 (P - 1) (item l2 P) i0 (i0 + N) Hwf2)
      as (B1 & B2 & B3 & B4); [change (capacity l2) with C; lia | lia |].
    change (capacity l2) with C in B3. fold l3 in B1, B2, B3, B4.
    change (item l2) with (item l1) in *. change (index_of l2) with (index_of l1) in *.
    rewrite A1 in *.
    assert (Hv : index_of lst v = (P - 1) mod C).
    { unfold v. rewrite Eif. apply (L_hd _ _ _ _ _ _ _ _ _ HL); lia. }
    assert (Hit3 : forall j, i0 <= j < i0 + N -> j <> P -> item l3 j = item lst j).
    { intros j Hj Hne. destruct (Z.eq_dec j (P - 1)) as [->|Hne'].
      - rewrite B1. unfold v. apply Eif.
      - rewrite B2, A2 by lia. apply Eif. }
    assert (Hhd3 : forall q, index_of l3 q = index_of lst q).
    { intros q. destruct (Z.eq_dec q v) as [->|Hq].
      - rewrite B3. now rewrite Hv.
      - rewrite B4, A4 by assumption. reflexivity. }
    assert (Hst3 : forall i, 0 <= i -> i <> K -> stack_item (s l3) i = stack_item (s lst) i).
    { intros i Hi Hne. change (s l3) with (stack_set (s lf) K (P - 1)).
      rewrite stack_item_set; [|apply Hwff|lia|lia].
      destruct (Z.eqb_spec i K); [contradiction|]. apply Esf. }
    assert (Hwf3 : wf l3) by now apply lst_move_wf.
    assert (Ed3 : depth (s l3) = K) by exact Edf.
    assert (HL3 : LInv C i0 N K K (stack_item (s l3)) (item l3) (index_of l3) P).
    { apply LInv_ext with (S := stack_item (s lst)) (it := item lst) (hd := index_of lst).
      - apply LInv_open.
        + apply LInv_ext with (S := stack_item (s lf)) (it := item lf) (hd := index_of lst);
            [exact HLf | | |]; auto.
        + intros k' Hk'. specialize (Hpiv k' Hk'). lia.
      - intros k' Hk'. apply Hst3; lia.
      - intros j Hj Hne. apply Hit3; assumption.
      - intros j Hj Hne. apply Hhd3. }
    pose proof (bucket_delete_loop_spec k l3 P P C i0 N K K
                  eq_refl eq_refl eq_refl Hwf3 HL3) as DD.
    specialize (DD ltac:(lia)
                   ltac:(change (size (s l3)) with (size (s lst)); lia)
                   eq_refl).
    rewrite Ek, Hst3 in DD by lia.
    specialize (DD ltac:(lia) ltac:(lia)).
    assert (DD' : delete_done (capacity l3) (idx l3) (num_elements l3)
                    (depth (s l3)) (depth (s l3)) l3 P (bucket_delete_loop k l3 P)).
    { rewrite Ed3. exact DD. }
    assert (Hheld : forall y, held (item l3) i0 (i0 + N) P y <-> resident lst y /\ y <> x).
    { intros y. unfold held, resident. fold i0 N. split.
      - intros (j & Hj & Hne & E). rewrite Hit3 in E by assumption.
        split; [exists j; auto|].
        intros ->. apply Hne. apply (Inv_resident_inj lst); auto; congruence.
      - intros ((j & Hj & E) & Hne). exists j. split; [exact Hj|].
        split; [intros ->; congruence|]. rewrite Hit3; auto. intros ->. congruence. }
    destruct (bucket_delete_finish l3 P _ x Hidx DD')
      as (F1 & F2 & F3 & F4 & F5 & F6 & F7 & F8).
    { intros y Hy. apply Hheld in Hy. tauto. }
    split; [exact F1|]. split; [exact F2|]. split; [exact F3|].
    split; [rewrite F4, Ed3; lia|].
    split; [exact F5|]. split; [exact F6|]. split.
    + intros q Hq. rewrite F7; [apply Hhd3| |].
      * intros ->. apply Hq. exists P. split; [lia|exact Ex].
      * intros Hh. apply Hheld in Hh. tauto.
    + intros y. rewrite F8. apply Hheld.
Qed.

(** Removing the first element after a flattening to stack index [K]. *)
Lemma bucket_delete_flat_first lst K x :
  Inv lst ->
  1 <= K < depth (s lst) ->
  item lst (idx lst) = x ->
  extract_post lst x (bucket_delete (lst_flatten lst K) K x).
Proof.
  intros HI HK Ex. pose proof HI as (Hwf & Hidx & HL).
  pose proof (L_bounds_pivot HL K ltac:(lia)) as HP.
  pose proof (L_mono HL (K - 1) K ltac:(lia) ltac:(lia) ltac:(lia)) as Htop.
  destruct (Inv_flatten lst K HI ltac:(lia)) as (HIf & Edf & Esf & Eif).
  set (lf := lst_flatten lst K) in *.
  assert (Hresf : forall y, resident lf y <-> resident lst y).
  { intros y. unfold resident.
    change (idx lf) with (idx lst). change (num_elements lf) with (num_elements lst).
    split; intros (j & Hj & E); exists j; (split; [exact Hj|]);
      [rewrite <- Eif|rewrite Eif]; exact E. }
  destruct (bucket_delete_first lf K x HIf) as (F1 & F2 & F3 & F4 & F5 & F6 & F7 & F8).
  - change (num_elements lf) with (num_elements lst). lia.
  - rewrite Eif. exact Ex.
  - rewrite Edf, Esf. change (idx lf) with (idx lst). lia.
  - split; [exact F1|]. split; [exact F2|]. split; [exact F3|].
    split; [rewrite F4, Edf; lia|]. split; [exact F5|]. split; [exact F6|]. split.
    + intros q Hq. apply F7. intros ->. apply Hq. exists (idx lst). split; [lia|exact Ex].
    + intros y. rewrite F8, Hresf. reflexivity.
Qed.

(** Removing a record that compares equal to pivot [K] without being it:
    [_lst_extract] flattens the subtree of the pivot, and the first iteration
    of the loop of [bucket_delete], at the index [K] past the top of the
    stack, moves the element left of the old pivot into the place of the
    record and the old pivot one place down.  All of this happens inside the
    flattened bucket, provided that the old pivot is not the first element. *)
Lemma bucket_delete_tied lst K x g :
  Inv lst ->
  1 <= K < depth (s lst) ->
  idx lst < stack_item (s lst) K ->
  idx lst < g < stack_item (s lst) (K - 1) ->
  g <> stack_item (s lst) K ->
  item lst g = x ->
  extract_post lst x (bucket_delete (lst_flatten lst K) K x).
Proof.
  intros HI HK HPidx Hg HgP Ex. pose proof HI as (Hwf & Hidx & HL).
  pose proof (pow2_pos _ (wf_cap _ Hwf)) as Hc.
  pose proof (L_N _ _ _ _ _ _ _ _ _ HL) as HN.
  pose proof Hwf as [W1 W2 W3 W4].
  set (P := stack_item (s lst) K) in *.
  pose proof (L_bounds_pivot HL K ltac:(lia)) as HP. fold P in HP.
  pose proof (L_bounds HL (K - 1) ltac:(lia)) as HbK1.
  destruct (Inv_flatten lst K HI ltac:(lia)) as (HIf & Edf & Esf & Eif).
  set (lf := lst_flatten lst K) in *.
  pose proof HIf as (Hwff & Hidxf & HLf).
  change (capacity lf) with (capacity lst) in *.
  change (idx lf) with (idx lst) in *.
  change (num_elements lf) with (num_elements lst) in *.
  change (index_of lf) with (index_of lst) in *.
  rewrite Edf in HLf.
  set (i0 := idx lst) in *. set (N := num_elements lst) in *.
  set (C := capacity lst) in *.
  assert (Hpiv : forall k', 1 <= k' < K -> P < stack_item (s lst) k' /\ g < stack_item (s lst) k').
  { intros k' Hk'. pose proof (L_mono HL k' K ltac:(lia) ltac:(lia) ltac:(lia)).
    destruct (Z.eq_dec k' (K - 1)) as [->|Hne]; [fold P in H; lia|].
    pose proof (L_mono HL k' (K - 1) ltac:(lia) ltac:(lia) ltac:(lia)). fold P in H. lia. }
  assert (Eloc : index_of lst x = g mod C).
  { rewrite <- Ex. apply (L_hd _ _ _ _ _ _ _ _ _ HL); lia. }
  assert (Hheld0 : forall y, held (item lst) i0 (i0 + N) g y <-> resident lst y /\ y <> x).
  { intros y. unfold held, resident. fold i0 N. split.
    - intros (j & Hj & Hne & E). split; [exists j; auto|].
      intros ->. apply Hne.
      apply (Inv_resident_inj lst); auto; try (fold i0 N; lia); congruence.
    - intros ((j & Hj & E) & Hne). exists j. split; [exact Hj|]. split; [|exact E].
      intros ->. congruence. }
  (* the invariant of the flattened state, opened at the place of the record *)
  assert (HLg : LInv C i0 N K K (stack_item (s lst)) (item lst) (index_of lst) g).
  { apply LInv_open.
    - apply LInv_ext with (S := stack_item (s lf)) (it := item lf) (hd := index_of lst);
        [exact HLf | | |]; auto.
    - intros k' Hk'. destruct (Hpiv k' Hk'). lia. }
  assert (Hsize : K < size (s lf)).
  { change (size (s lf)) with (size (s lst)). lia. }
  unfold bucket_delete, item_index.
  change (index_of lf x) with (index_of lst x). rewrite Eloc.
  rewrite (is_equivalent_window lf _ _ g i0); auto;
    change (capacity lf) with C; [|apply Z.mod_mod; lia|lia].
  destruct (Z.eqb_spec g i0); [lia|].
  destruct (Z.to_nat K) as [|k] eqn:EK; [lia|].
  rewrite bucket_delete_loop_S.
  replace (Z.of_nat (S k)) with K by lia. cbv zeta.
  assert (Ek : Z.of_nat k = K - 1) by lia.
  assert (Etop : bucket_upb lf K = P - 1).
  { unfold bucket_upb. rewrite Esf. reflexivity. }
  rewrite Etop.
  rewrite (is_equivalent_window lf _ _ g (P - 1)); auto;
    change (capacity lf) with C; [|apply Z.mod_mod; lia|lia].
  set (l1 := if negb (g =? P - 1) then lst_move lf (g mod C) (item lf (P - 1)) else lf).
  (* after the first move the hole is just below the old pivot *)
  assert (H1 : wf l1 /\ s l1 = s lf /\ capacity l1 = C /\ idx l1 = i0
               /\ num_elements l1 = N /\ rand_state l1 = rand_state lst
               /\ LInv C i0 N K K (stack_item (s lst)) (item l1) (index_of l1) (P - 1)
               /\ item l1 P = item lst P
               /\ (forall y, held (item l1) i0 (i0 + N) (P - 1) y
                             <-> held (item lst) i0 (i0 + N) g y)
               /\ (forall q, ~ resident lst q -> index_of l1 q = index_of lst q)).
  { subst l1. destruct (Z.eqb_spec g (P - 1)) as [E|E]; cbn [negb].
    - rewrite <- E.
      do 6 (split; [first [assumption | reflexivity]|]).
      split; [exact HLg|]. split; [apply Eif|].
      split; [intros y; unfold held; split; intros (j & Hj & Hne & Ej); exists j;
              (split; [exact Hj|]); (split; [exact Hne|]);
              [rewrite <- Eif|rewrite Eif]; exact Ej|].
      intros q _. reflexivity.
    - rewrite (lst_move_equiv lf (g mod C) g)
        by (auto; change (capacity lf) with C; apply Z.mod_mod; lia).
      rewrite (Eif (P - 1)).
      destruct (lst_move_window lf g (item lst (P - 1)) i0 (i0 + N) Hwff)
        as (A1 & A2 & A3 & A4); [change (capacity lf) with C; lia | lia |].
      change (capacity lf) with C in A3.
      change (index_of lf) with (index_of lst) in A4.
      assert (A2' : forall j, i0 <= j < i0 + N -> j <> g ->
                      item (lst_move lf g (item lst (P - 1))) j = item lst j).
      { intros j Hj Hne. rewrite A2 by assumption. apply Eif. }
      split; [now apply lst_move_wf|].
      do 5 (split; [reflexivity|]).
      split; [|split; [|split]].
      + apply LInv_move with (it := item lst) (hd := index_of lst) (g := g) (j0 := P - 1);
          [ exact HLg | lia | lia | lia
          | intros k' Hk'; destruct (Hpiv k' Hk'); lia
          | intros k' Hk'; destruct (Hpiv k' Hk'); lia
          | exact A1
          | intros j Hj Hne _; apply A2'; assumption
          | exact A3
          | exact A4 ].
      + apply A2'; lia.
      + intros y. apply held_move; [lia | lia | exact A1 |].
        intros j Hj Hne _. apply A2'; assumption.
      + intros q Hq. apply A4. intros ->. apply Hq.
        exists (P - 1). split; [fold i0 N; lia|reflexivity]. }
  destruct H1 as (Hwf1 & S1 & C1 & I1 & N1 & R1 & HL1 & EP1 & Hh1 & Hf1).
  clearbody l1.
  set (l2 := with_s l1 (stack_set (s l1) K (P - 1))).
  replace (P - 1 + 1) with P by lia.
  set (l3 := lst_move l2 (P - 1) (item l2 P)).
  pose proof Hwf1 as [V1 V2 V3 V4].
  assert (Hwf2 : wf l2).
  { constructor; cbn [capacity p s with_s stack_set depth size data l2]; auto.
    now rewrite array_set_length. }
  destruct (lst_move_window l2 (P - 1) (item l2 P) i0 (i0 + N) Hwf2)
    as (B1 & B2 & B3 & B4); [change (capacity l2) with (capacity l1); rewrite C1; lia | lia |].
  change (capacity l2) with (capacity l1) in B3. rewrite C1 in B3.
  fold l3 in B1, B2, B3, B4.
  change (item l2) with (item l1) in *. change (index_of l2) with (index_of l1) in *.
  assert (Hst3 : forall i, 0 <= i -> i <> K -> stack_item (s l3) i = stack_item (s lst) i).
  { intros i Hi Hne. change (s l3) with (stack_set (s l1) K (P - 1)).
    rewrite S1. rewrite stack_item_set; [|apply Hwff|lia|lia].
    destruct (Z.eqb_spec i K); [contradiction|]. apply Esf. }
  assert (Hwf3 : wf l3) by now apply lst_move_wf.
  assert (Ed3 : depth (s l3) = K).
  { change (depth (s l3)) with (depth (s l1)). rewrite S1. exact Edf. }
  assert (Ec3 : capacity l3 = C) by exact C1.
  assert (Ei3 : idx l3 = i0) by exact I1.
  assert (En3 : num_elements l3 = N) by exact N1.
  assert (HL3 : LInv C i0 N K K (stack_item (s l3)) (item l3) (index_of l3) P).
  { apply LInv_ext with (S := stack_item (s lst)) (it := item l3) (hd := index_of l3).
    - apply LInv_move with (it := item l1) (hd := index_of l1) (g := P - 1) (j0 := P);
        [ exact HL1 | lia | lia | lia
        | intros k' Hk'; destruct (Hpiv k' Hk'); lia
        | intros k' Hk'; destruct (Hpiv k' Hk'); lia
        | exact B1
        | intros j Hj Hne _; apply B2; assumption
        | exact B3
        | exact B4 ].
    - intros k' Hk'. apply Hst3; lia.
    - reflexivity.
    - reflexivity. }
  pose proof (bucket_delete_loop_spec k l3 P P C i0 N K K Ec3 Ei3 En3 Hwf3 HL3) as DD.
  specialize (DD ltac:(lia)).
  assert (Hsz3 : K <= size (s l3)).
  { change (size (s l3)) with (size (s l1)). rewrite S1.
    change (size (s lf)) with (size (s lst)). lia. }
  specialize (DD Hsz3 eq_refl).
  rewrite Ek, Hst3 in DD by lia.
  pose proof (L_mono HL (K - 1) K ltac:(lia) ltac:(lia) ltac:(lia)) as Htop. fold P in Htop.
  specialize (DD ltac:(lia) ltac:(lia)).
  assert (DD' : delete_done (capacity l3) (idx l3) (num_elements l3)
                  (depth (s l3)) (depth (s l3)) l3 P (bucket_delete_loop k l3 P)).
  { rewrite Ec3, Ei3, En3, Ed3. exact DD. }
  assert (Hheld : forall y, held (item l3) i0 (i0 + N) P y <-> resident lst y /\ y <> x).
  { intros y. rewrite <- Hheld0, <- Hh1. apply held_move; [lia | lia | exact B1 |].
    intros j Hj Hne _. apply B2; assumption. }
  assert (Hidx3 : 0 <= idx l3 < capacity l3) by (rewrite Ec3, Ei3; exact Hidx).
  destruct (bucket_delete_finish l3 P _ x Hidx3 DD')
    as (F1 & F2 & F3 & F4 & F5 & F6 & F7 & F8).
  { rewrite Ei3, En3. intros y Hy. apply Hheld in Hy. tauto. }
  rewrite Ei3, En3 in F7, F8.
  split; [exact F1|]. split; [rewrite F2; exact Ec3|]. split; [rewrite F3, En3; reflexivity|].
  split; [rewrite F4, Ed3; lia|].
  split; [rewrite F5; change (rand_state l3) with (rand_state l1); exact R1|].
  split; [exact F6|]. split.
  - intros q Hq. rewrite F7.
    + rewrite B4; [apply Hf1; exact Hq|].
      rewrite EP1. intros ->. apply Hq. exists P. split; [fold i0 N; lia|reflexivity].
    + intros ->. apply Hq. exists g. split; [fold i0 N; lia|exact Ex].
    + intros Hh. apply Hheld in Hh. tauto.
  - intros y. rewrite F8. apply Hheld.
Qed.


(** The one situation in which [_lst_extract] goes wrong for a resident
    record [x]: its descent passes every pivot but the last, and the last
    pivot, stored at [idx], compares equal to [x] and is another record. *)
Definition tied_pivot_at_idx (lst : lst_t) (x : ptr) : Prop :=
  2 <= depth (s lst)
  /\ stack_item (s lst) (depth (s lst) - 1) = idx lst
  /\ pivot_item lst (depth (s lst) - 1) <> x
  /\ cmp x (pivot_item lst (depth (s lst) - 1)) = 0
  /\ (forall k, 1 <= k < depth (s lst) - 1 -> cmp x (pivot_item lst k) < 0).

(** The descent of [_lst_extract] towards the bucket of a resident record. *)
Lemma _lst_extract_spec : forall fuel lst k x g,
  Inv lst ->
  idx lst <= g < idx lst + num_elements lst -> item lst g = x ->
  ~ tied_pivot_at_idx lst x ->
  0 <= k < depth (s lst) -> g < stack_item (s lst) k ->
  (forall i, 1 <= i <= k -> cmp x (pivot_item lst i) < 0) ->
  depth (s lst) - k <= Z.of_nat fuel ->
  exists lst', _lst_extract cmp fuel lst k x = Some lst' /\ extract_post lst x lst'.
Proof.
  induction fuel as [|fuel IH]; intros lst k x g HI Hg Ex Hnt Hk Hgk Hlt Hf; [lia|].
  pose proof HI as (Hwf & Hidx & HL).
  cbn [_lst_extract]. unfold is_bucket, lst_length, stack_depth.
  destruct (Z.eqb_spec (depth (s lst) - k) 1) as [Eb|Eb].
  - eexists. split; [reflexivity|].
    destruct (Z.eq_dec g (idx lst)) as [->|Hne].
    + destruct (bucket_delete_first lst k x HI) as (F1 & F2 & F3 & F4 & F5 & F6 & F7 & F8);
        [lia | exact Ex | replace (depth (s lst) - 1) with k by lia; exact Hgk |].
      split; [exact F1|]. split; [exact F2|]. split; [exact F3|]. split; [lia|].
      split; [exact F5|]. split; [exact F6|]. split; [|exact F8].
      intros q Hq. apply F7. intros ->. apply Hq. exists (idx lst). split; [lia|exact Ex].
    + apply bucket_delete_middle with (g := g); auto; lia.
  - cbv zeta. unfold pivot_item.
    pose proof (L_bounds_pivot HL (k + 1) ltac:(lia)) as Hb.
    set (P := stack_item (s lst) (k + 1)) in *.
    assert (Hord : (g < P -> cmp x (item lst P) <= 0)
                   /\ (P < g -> cmp x (item lst P) >= 0)
                   /\ (g = P -> cmp x (item lst P) = 0)).
    { split; [|split].
      - intros H. rewrite <- Ex. apply (L_left _ _ _ _ _ _ _ _ _ HL); lia.
      - intros H. rewrite <- Ex. apply (L_right _ _ _ _ _ _ _ _ _ HL); lia.
      - intros ->. rewrite Ex. apply cmp_refl. exact cmp_ok. }
    destruct Hord as (O1 & O2 & O3).
    destruct (Z.ltb_spec (cmp x (item lst P)) 0) as [Hc|Hc].
    + apply IH with (g := g); auto; try lia.
      intros i Hi. destruct (Z.eq_dec i (k + 1)) as [->|Hne].
      * unfold pivot_item. fold P. exact Hc.
      * apply Hlt. lia.
    + destruct (Z.gtb_spec (cmp x (item lst P)) 0) as [Hc'|Hc'].
      * eexists. split; [reflexivity|].
        replace (k + 1 - 1) with k by lia.
        assert (HPg : P < g).
        { destruct (Z_lt_le_dec P g) as [|Hge]; [assumption|].
          destruct (Z.eq_dec g P) as [E|E]; [specialize (O3 E); lia|].
          specialize (O1 ltac:(lia)). lia. }
        apply bucket_delete_middle with (g := g); auto; try lia.
      * eexists. split; [reflexivity|].
        destruct (Z.eq_dec g P) as [EgP|EgP].
        { apply bucket_delete_pivot; [exact HI | lia |]. fold P. rewrite <- EgP. exact Ex. }
        destruct (Z.eq_dec g (idx lst)) as [Egi|Egi].
        { apply bucket_delete_flat_first; [exact HI | lia |]. rewrite <- Egi. exact Ex. }
        destruct (Z.eq_dec P (idx lst)) as [EPi|EPi].
        { (* the pivot is stored at idx: the excluded situation *)
          exfalso. apply Hnt.
          assert (EK : k + 1 = depth (s lst) - 1).
          { destruct (Z.eq_dec (k + 1) (depth (s lst) - 1)) as [|Hne]; [assumption|].
            pose proof (L_mono HL (k + 1) (depth (s lst) - 1)
                          ltac:(lia) ltac:(lia) ltac:(lia)) as Hm.
            pose proof (L_top _ _ _ _ _ _ _ _ _ HL). fold P in Hm. lia. }
          unfold tied_pivot_at_idx, pivot_item. rewrite <- EK. fold P.
          split; [lia|]. split; [exact EPi|]. split.
          - intros E. apply EgP. apply (Inv_resident_inj lst); auto; try lia; congruence.
          - split; [lia|]. intros i Hi. apply Hlt. lia. }
        apply bucket_delete_tied with (g := g); auto; try lia.
        replace (k + 1 - 1) with k by lia. lia.
Qed.

(** [lst_extract] of a resident record, outside of the situation above. *)
Lemma lst_extract_spec_gen fuel lst x :
  Inv lst -> resident lst x ->
  ~ tied_pivot_at_idx lst x ->
  depth (s lst) <= Z.of_nat fuel ->
  exists lst', lst_extract cmp fuel lst x = Some (1, lst') /\ extract_post lst x lst'.
Proof.
  intros HI (g & Hg & Ex) Hnt Hf. pose proof HI as (Hwf & Hidx & HL).
  pose proof (pow2_pos _ (wf_cap _ Hwf)) as Hc.
  pose proof (L_d _ _ _ _ _ _ _ _ _ HL) as Hd.
  destruct (_lst_extract_spec fuel lst 0 x g HI Hg Ex Hnt) as (lst' & E & HP);
    try lia.
  - rewrite (L_s0 _ _ _ _ _ _ _ _ _ HL). lia.
  - exists lst'. split; [|exact HP]. unfold lst_extract, item_index.
    assert (Eh : index_of lst x = g mod capacity lst).
    { rewrite <- Ex. apply (L_hd _ _ _ _ _ _ _ _ _ HL); lia. }
    pose proof (Z.mod_pos_bound g (capacity lst) Hc).
    destruct (Z.eqb_spec (num_elements lst) 0); [lia|].
    destruct (Z.ltb_spec (index_of lst x) 0); [lia|]. cbn [orb].
    rewrite E. reflexivity.
Qed.

Lemma lst_extract_spec fuel lst x :
  Inv lst -> resident lst x ->
  (forall y, resident lst y -> cmp x y = 0 -> y = x) ->
  depth (s lst) <= Z.of_nat fuel ->
  exists lst', lst_extract cmp fuel lst x = Some (1, lst') /\ extract_post lst x lst'.
Proof.
  intros HI Hres Huniq Hf. apply lst_extract_spec_gen; auto.
  intros (Hd & Et & Hne & Hc & _). apply Hne. apply Huniq; [|exact Hc].
  pose proof HI as (_ & _ & HL).
  pose proof (L_bounds_pivot HL (depth (s lst) - 1) ltac:(lia)).
  exists (stack_item (s lst) (depth (s lst) - 1)). split; [lia|reflexivity].
Qed.

(** * Part IX: the fictitious pivot

    Entry 0 of the pivot stack is the logical index one past the last
    element.  The operations that add or remove an element keep it equal to
    [idx + num_elements] whatever record they are given; only the shape of the
    stack matters for that. *)

Definition stack_ok (lst : lst_t) : Prop :=
  Z.of_nat (length (data (s lst))) = size (s lst)
  /\ 1 <= depth (s lst) <= size (s lst).

Definition fictitious_pivot (lst : lst_t) : Prop :=
  stack_item (s lst) 0 = idx lst + num_elements lst.

Lemma Inv_stack_ok lst : Inv lst -> stack_ok lst /\ fictitious_pivot lst.
Proof.
  intros ([W1 W2 W3 W4] & _ & HL). split; [split; assumption|].
  exact (L_s0 _ _ _ _ _ _ _ _ _ HL).
Qed.

Lemma stack_set_item0 st k v :
  Z.of_nat (length (data st)) = size st -> 1 <= size st -> 0 <= k ->
  stack_item (stack_set st k v) 0 = if k =? 0 then v else stack_item st 0.
Proof.
  intros Hlen Hsz Hk. unfold stack_item, stack_set. cbn [data].
  change (Z.to_nat 0) with 0%nat.
  destruct (Z.eqb_spec k 0) as [->|Hne].
  - change (Z.to_nat 0) with 0%nat. apply nth_array_set_eq. lia.
  - apply nth_array_set_neq. lia.
Qed.

Lemma stack_ok_set lst k v :
  stack_ok lst -> stack_ok (with_s lst (stack_set (s lst) k v)).
Proof.
  intros (H1 & H2). split; cbn [s with_s stack_set depth size data]; [|exact H2].
  now rewrite array_set_length.
Qed.

(** The fields that [bucket_delete] and [bucket_add] leave to their last
    statements. *)
Definition same_shape (a b : lst_t) : Prop :=
  stack_ok b /\ capacity b = capacity a /\ idx b = idx a
  /\ num_elements b = num_elements a /\ depth (s b) = depth (s a).

Lemma bucket_delete_loop_shape (k : nat) : forall lst loc,
  stack_ok lst ->
  same_shape lst (bucket_delete_loop k lst loc)
  /\ stack_item (s (bucket_delete_loop k lst loc)) 0 = stack_item (s lst) 0 - 1.
Proof.
  induction k as [|k IH]; intros lst loc Hok.
  - rewrite bucket_delete_loop_0. cbv zeta.
    set (l1 := if negb (is_equivalent lst loc (bucket_upb lst 0))
               then lst_move lst loc (item lst (bucket_upb lst 0)) else lst).
    assert (E1 : s l1 = s lst /\ capacity l1 = capacity lst /\ idx l1 = idx lst
                 /\ num_elements l1 = num_elements lst).
    { subst l1. destruct (negb _); repeat split. }
    destruct E1 as (E1 & E2 & E3 & E4). destruct Hok as (H1 & H2).
    cbn [s with_s]. rewrite E1. split.
    + split; [|repeat split; assumption].
      apply (stack_ok_set lst 0 _ (conj H1 H2)).
    + rewrite stack_set_item0 by (try assumption; lia). reflexivity.
  - rewrite bucket_delete_loop_S. set (K := Z.of_nat (S k)). cbv zeta.
    set (top := bucket_upb lst K).
    set (l1 := if negb (is_equivalent lst loc top)
               then lst_move lst loc (item lst top) else lst).
    assert (E1 : s l1 = s lst /\ capacity l1 = capacity lst /\ idx l1 = idx lst
                 /\ num_elements l1 = num_elements lst).
    { subst l1. destruct (negb _); repeat split. }
    destruct E1 as (E1 & E2 & E3 & E4).
    set (l2 := with_s l1 (stack_set (s l1) K top)).
    set (l3 := lst_move l2 top (item l2 (top + 1))).
    assert (Hok3 : stack_ok l3).
    { change (stack_ok (with_s l1 (stack_set (s l1) K top))).
      apply stack_ok_set. unfold stack_ok. rewrite E1. exact Hok. }
    destruct (IH l3 (top + 1) Hok3) as ((S1 & S2 & S3 & S4 & S5) & S6).
    destruct Hok as (H1 & H2).
    split.
    + split; [exact S1|]. split; [rewrite S2; exact E2|]. split; [rewrite S3; exact E3|].
      split; [rewrite S4; exact E4|]. rewrite S5.
      change (depth (s l3)) with (depth (s l1)). now rewrite E1.
    + rewrite S6. change (s l3) with (stack_set (s l1) K top).
      rewrite E1, stack_set_item0 by (try assumption; lia).
      destruct (Z.eqb_spec K 0); [lia|reflexivity].
Qed.

Lemma bucket_delete_shape lst k x :
  stack_ok lst -> fictitious_pivot lst ->
  let l := bucket_delete lst k x in
  stack_ok l /\ fictitious_pivot l
  /\ capacity l = capacity lst
  /\ num_elements l = num_elements lst - 1
  /\ depth (s l) = depth (s lst)
  /\ index_of l x = -1.
Proof.
  intros Hok Hf l. pose proof Hok as (H1 & H2). unfold fictitious_pivot in *.
  subst l. unfold bucket_delete.
  cbn [s idx num_elements capacity index_of set_item_index with_index_of with_num_elements].
  rewrite Z.eqb_refl.
  destruct (is_equivalent lst (item_index lst x) (idx lst)).
  - set (l0 := with_idx lst (idx lst + 1)).
    destruct (is_equivalent l0 (idx l0) 0).
    + destruct (lst_indices_reduce_spec l0)
        as (A1 & A2 & A3 & A4 & A5 & A6 & A7 & A8 & A9 & A10);
        [exact H1 | cbn [s l0 with_idx]; lia |].
      cbn [s l0 with_idx capacity num_elements idx] in *.
      split; [change (stack_ok (lst_indices_reduce l0));
              split; [rewrite A7; exact A8 | rewrite A6, A7; exact H2]|].
      split.
      * rewrite A10 by lia. rewrite A9, A2.
        destruct (Z.ltb_spec 0 (depth (s lst))); [|lia]. rewrite Hf. lia.
      * repeat split; auto; try lia.
    + cbn [s l0 with_idx capacity num_elements idx].
      split; [exact Hok|]. split; [lia|]. repeat split; reflexivity.
  - destruct (bucket_delete_loop_shape (Z.to_nat k) lst (item_index lst x) Hok)
      as ((S1 & S2 & S3 & S4 & S5) & S6).
    split; [exact S1|]. split; [rewrite S6, S3, S4, Hf; lia|].
    split; [exact S2|]. split; [rewrite S4; reflexivity|]. split; [exact S5|reflexivity].
Qed.

Lemma lst_flatten_shape lst K :
  stack_ok lst -> fictitious_pivot lst -> 1 <= K <= depth (s lst) ->
  stack_ok (lst_flatten lst K) /\ fictitious_pivot (lst_flatten lst K)
  /\ depth (s (lst_flatten lst K)) = K.
Proof.
  intros (H1 & H2) Hf HK. unfold lst_flatten, stack_pop, stack_depth, stack_ok,
    fictitious_pivot in *.
  cbn [s with_s depth size data idx num_elements].
  split; [split; [exact H1|lia]|]. split; [exact Hf|lia].
Qed.

(** [_lst_extract] and [lst_extract] on any record. *)
Lemma _lst_extract_shape : forall fuel lst k x,
  stack_ok lst -> fictitious_pivot lst ->
  0 <= k < depth (s lst) -> depth (s lst) - k <= Z.of_nat fuel ->
  exists lst', _lst_extract cmp fuel lst k x = Some lst'
    /\ stack_ok lst' /\ fictitious_pivot lst'
    /\ capacity lst' = capacity lst
    /\ num_elements lst' = num_elements lst - 1
    /\ index_of lst' x = -1.
Proof.
  induction fuel as [|fuel IH]; intros lst k x Hok Hf Hk Hfuel; [lia|].
  cbn [_lst_extract]. unfold is_bucket, lst_length, stack_depth.
  destruct (Z.eqb_spec (depth (s lst) - k) 1) as [Eb|Eb].
  - eexists. split; [reflexivity|].
    destruct (bucket_delete_shape lst k x Hok Hf) as (B1 & B2 & B3 & B4 & B5 & B6).
    repeat split; auto; apply B1.
  - cbv zeta. destruct (_ <? 0).
    + apply IH; auto; lia.
    + destruct (_ >? 0).
      * eexists. split; [reflexivity|].
        destruct (bucket_delete_shape lst (k + 1 - 1) x Hok Hf)
          as (B1 & B2 & B3 & B4 & B5 & B6).
        repeat split; auto; apply B1.
      * eexists. split; [reflexivity|].
        destruct (lst_flatten_shape lst (k + 1) Hok Hf ltac:(lia)) as (F1 & F2 & F3).
        destruct (bucket_delete_shape (lst_flatten lst (k + 1)) (k + 1) x F1 F2)
          as (B1 & B2 & B3 & B4 & B5 & B6).
        repeat split; auto; apply B1.
Qed.

Lemma lst_extract_shape fuel lst x :
  stack_ok lst -> fictitious_pivot lst -> depth (s lst) <= Z.of_nat fuel ->
  exists r lst', lst_extract cmp fuel lst x = Some (r, lst')
    /\ stack_ok lst' /\ fictitious_pivot lst'
    /\ (r = -1 <-> num_elements lst = 0 \/ index_of lst x < 0)
    /\ (r = -1 -> lst' = lst)
    /\ (r <> -1 -> r = 1 /\ capacity lst' = capacity lst
                   /\ num_elements lst' = num_elements lst - 1
                   /\ index_of lst' x = -1).
Proof.
  intros Hok Hf Hfuel. unfold lst_extract, item_index.
  destruct (Z.eqb_spec (num_elements lst) 0) as [En|En]; cbn [orb].
  - exists (-1), lst. split; [reflexivity|]. split; [exact Hok|]. split; [exact Hf|].
    split; [tauto|]. split; [reflexivity|]. intros H. contradiction.
  - destruct (Z.ltb_spec (index_of lst x) 0) as [Eh|Eh].
    + exists (-1), lst. split; [reflexivity|]. split; [exact Hok|]. split; [exact Hf|].
      split; [tauto|]. split; [reflexivity|]. intros H. contradiction.
    + destruct (_lst_extract_shape fuel lst 0 x Hok Hf) as (lst' & E & P1 & P2 & P3 & P4 & P5);
        [destruct Hok; lia | lia |].
      rewrite E. exists 1, lst'. split; [reflexivity|]. split; [exact P1|].
      split; [exact P2|]. split; [split; [discriminate|lia]|].
      split; [discriminate|]. intros _. repeat split; assumption.
Qed.

Lemma bucket_add_body_shape r l :
  stack_ok l -> 0 <= r ->
  same_shape l (bucket_add_body r l)
  /\ stack_item (s (bucket_add_body r l)) 0
     = if r =? 0 then stack_item (s l) 0 + 1 else stack_item (s l) 0.
Proof.
  intros Hok Hr. pose proof Hok as (H1 & H2). unfold bucket_add_body. cbv zeta.
  set (l1 := with_s l (stack_set (s l) r (stack_item (s l) r + 1))).
  set (l2 := if negb _ then _ else l1).
  assert (E : s l2 = s l1 /\ capacity l2 = capacity l /\ idx l2 = idx l
              /\ num_elements l2 = num_elements l).
  { subst l2. destruct (negb _); repeat split. }
  destruct E as (E1 & E2 & E3 & E4).
  assert (Hok1 : stack_ok l1) by (apply stack_ok_set; exact Hok).
  unfold same_shape, stack_ok.
  cbn [s capacity idx num_elements lst_move set_item set_item_index with_p with_index_of].
  rewrite E1, E2, E3, E4.
  split; [split; [exact Hok1|repeat split]|].
  cbn [s l1 with_s]. rewrite stack_set_item0 by (try assumption; lia).
  destruct (Z.eqb_spec r 0) as [->|]; reflexivity.
Qed.

Lemma bucket_add_shape lst k x :
  stack_ok lst -> fictitious_pivot lst -> 0 <= k ->
  let l := bucket_add lst k x in
  stack_ok l /\ fictitious_pivot l
  /\ capacity l = capacity lst
  /\ num_elements l = num_elements lst + 1
  /\ depth (s l) = depth (s lst).
Proof.
  intros Hok Hf Hk l. unfold fictitious_pivot in *.
  assert (Hloop : forall n : nat,
            let l0 := for_loop bucket_add_body 0 n lst in
            same_shape lst l0
            /\ stack_item (s l0) 0
               = if Z.of_nat n =? 0 then stack_item (s lst) 0 else stack_item (s lst) 0 + 1).
  { induction n as [|n IH].
    - cbn [for_loop Z.of_nat Z.eqb]. split; [|reflexivity].
      split; [exact Hok|repeat split].
    - cbv zeta in *. rewrite for_loop_snoc. rewrite Z.add_0_l.
      destruct IH as ((S1 & S2 & S3 & S4 & S5) & S6).
      destruct (bucket_add_body_shape (Z.of_nat n) (for_loop bucket_add_body 0 n lst) S1)
        as ((T1 & T2 & T3 & T4 & T5) & T6); [lia|].
      split.
      + split; [exact T1|]. repeat split; congruence.
      + rewrite T6, S6. destruct (Z.eqb_spec (Z.of_nat (S n)) 0); [lia|].
        destruct (Z.eqb_spec (Z.of_nat n) 0); reflexivity. }
  specialize (Hloop (Z.to_nat k)). cbv zeta in Hloop.
  rewrite Z2Nat.id in Hloop by lia.
  destruct Hloop as ((S1 & S2 & S3 & S4 & S5) & S6).
  subst l. unfold bucket_add. cbv zeta.
  set (l0 := for_loop bucket_add_body 0 (Z.to_nat k) lst) in *.
  pose proof S1 as (H1 & H2).
  cbn [s capacity idx num_elements lst_move set_item set_item_index with_p with_index_of
       with_num_elements with_s].
  split; [apply (stack_ok_set l0 k _ S1)|].
  split.
  - rewrite stack_set_item0 by (try assumption; lia). rewrite S3, S4.
    destruct (Z.eqb_spec k 0) as [->|]; rewrite S6, Hf; lia.
  - repeat split; try assumption. now rewrite S4.
Qed.

Lemma rand_shape lst r l :
  rand lst = (r, l) ->
  s l = s lst /\ capacity l = capacity lst /\ idx l = idx lst
  /\ num_elements l = num_elements lst.
Proof.
  intros H. apply rand_spec in H. destruct H as (_ & rs & ->). repeat split.
Qed.

Lemma _lst_insert_shape : forall fuel lst k x,
  stack_ok lst -> fictitious_pivot lst ->
  0 <= k < depth (s lst) -> depth (s lst) - k <= Z.of_nat fuel ->
  exists lst', _lst_insert cmp fuel lst k x = Some lst'
    /\ stack_ok lst' /\ fictitious_pivot lst'
    /\ capacity lst' = capacity lst
    /\ num_elements lst' = num_elements lst + 1.
Proof.
  induction fuel as [|fuel IH]; intros lst k x Hok Hf Hk Hfuel; [lia|].
  cbn [_lst_insert]. unfold is_bucket, lst_length, stack_depth.
  destruct (Z.eqb_spec (depth (s lst) - k) 1) as [Eb|Eb].
  - eexists. split; [reflexivity|].
    destruct (bucket_add_shape lst k x Hok Hf) as (B1 & B2 & B3 & B4 & B5); [lia|].
    repeat split; auto; apply B1.
  - cbv zeta. destruct (rand lst) as [r l] eqn:Er.
    destruct (rand_shape _ _ _ Er) as (R1 & R2 & R3 & R4).
    assert (Hokl : stack_ok l) by (unfold stack_ok; rewrite R1; exact Hok).
    assert (Hfl : fictitious_pivot l).
    { unfold fictitious_pivot in *. now rewrite R1, R3, R4. }
    destruct (negb _).
    + destruct (_ <? 0).
      * destruct (IH l (k + 1) x Hokl Hfl) as (lst' & E & P1 & P2 & P3 & P4);
          [rewrite R1; lia | rewrite R1; lia |].
        exists lst'. split; [exact E|]. repeat split; try apply P1; try congruence.
      * eexists. split; [reflexivity|].
        destruct (bucket_add_shape l (k + 1 - 1) x Hokl Hfl) as (B1 & B2 & B3 & B4 & B5);
          [lia|].
        repeat split; try apply B1; try congruence.
    + eexists. split; [reflexivity|].
      destruct (lst_flatten_shape l (k + 1) Hokl Hfl) as (F1 & F2 & F3); [rewrite R1; lia|].
      destruct (bucket_add_shape (lst_flatten l (k + 1)) (k + 1) x F1 F2)
        as (B1 & B2 & B3 & B4 & B5); [lia|].
      repeat split; try apply B1; try congruence.
      * rewrite B3. exact R2.
      * rewrite B4. change (num_elements (lst_flatten l (k + 1))) with (num_elements l).
        now rewrite R4.
Qed.

Lemma lst_indices_reduce_shape lst :
  stack_ok lst -> fictitious_pivot lst ->
  stack_ok (lst_indices_reduce lst) /\ fictitious_pivot (lst_indices_reduce lst)
  /\ capacity (lst_indices_reduce lst) = capacity lst
  /\ num_elements (lst_indices_reduce lst) = num_elements lst
  /\ depth (s (lst_indices_reduce lst)) = depth (s lst).
Proof.
  intros (H1 & H2) Hf. unfold fictitious_pivot in *.
  destruct (lst_indices_reduce_spec lst H1 ltac:(lia))
    as (A1 & A2 & A3 & A4 & A5 & A6 & A7 & A8 & A9 & A10).
  split; [split; [rewrite A7; exact A8 | rewrite A6, A7; exact H2]|].
  split; [|repeat split; assumption].
  rewrite A10 by lia. destruct (Z.ltb_spec 0 (depth (s lst))); [|lia].
  rewrite A9, A2, Hf. lia.
Qed.

Lemma lst_expand_shape lst :
  stack_ok lst -> fictitious_pivot lst ->
  stack_ok (lst_expand lst) /\ fictitious_pivot (lst_expand lst)
  /\ capacity (lst_expand lst) = 2 * capacity lst
  /\ num_elements (lst_expand lst) = num_elements lst
  /\ depth (s (lst_expand lst)) = depth (s lst).
Proof.
  intros Hok Hf. unfold lst_expand. cbv zeta.
  set (l0 := with_capacity _ _).
  destruct (lst_indices_reduce_shape l0 Hok Hf) as (R1 & R2 & R3 & R4 & R5).
  set (l1 := lst_indices_reduce l0) in *.
  assert (Hloop : forall n : nat,
            let l := for_loop (lst_expand_body (capacity lst)) 0 n l1 in
            s l = s l1 /\ capacity l = capacity l1 /\ idx l = idx l1
            /\ num_elements l = num_elements l1).
  { induction n as [|n IH]; [repeat split|].
    cbv zeta in *. rewrite for_loop_snoc. destruct IH as (I1 & I2 & I3 & I4).
    unfold lst_expand_body.
    cbn [s capacity idx num_elements lst_move set_item set_item_index with_p with_index_of].
    repeat split; assumption. }
  destruct (Hloop (Z.to_nat (idx l1))) as (I1 & I2 & I3 & I4).
  unfold stack_ok, fictitious_pivot in *. rewrite I1, I2, I3, I4.
  split; [exact R1|]. split; [exact R2|]. split; [exact R3|]. split; [exact R4|exact R5].
Qed.

Lemma lst_insert_shape fuel lst x :
  stack_ok lst -> fictitious_pivot lst -> depth (s lst) <= Z.of_nat fuel ->
  exists r lst', lst_insert cmp fuel lst x = Some (r, lst')
    /\ stack_ok lst' /\ fictitious_pivot lst'.
Proof.
  intros Hok Hf Hfuel. unfold lst_insert. cbv zeta.
  set (lst0 := if num_elements lst =? capacity lst then lst_expand lst else lst).
  assert (H0 : stack_ok lst0 /\ fictitious_pivot lst0 /\ depth (s lst0) = depth (s lst)).
  { subst lst0. destruct (num_elements lst =? capacity lst).
    - destruct (lst_expand_shape lst Hok Hf) as (E1 & E2 & E3 & E4 & E5). auto.
    - auto. }
  destruct H0 as (Hok0 & Hf0 & Ed0).
  destruct (_ || _).
  - exists (-1), lst0. auto.
  - destruct (_lst_insert_shape fuel lst0 0 x Hok0 Hf0) as (lst' & E & P1 & P2 & _);
      [destruct Hok0; lia | lia |].
    rewrite E. exists 1, lst'. auto.
Qed.

(** [lst_pop] and [lst_peek] partition on their way; from a state that
    satisfies the invariants they end in one. *)
Lemma lst_pop_shape fuel lst :
  Inv lst -> num_elements lst + 3 <= Z.of_nat fuel ->
  exists y lst', lst_pop cmp fuel lst = Some (y, lst')
    /\ stack_ok lst' /\ fictitious_pivot lst'.
Proof.
  intros HI Hfuel. pose proof (Inv_num_elements lst HI) as HN.
  destruct (Z.eq_dec (num_elements lst) 0) as [E|E].
  - exists NULL, lst. unfold lst_pop. rewrite E. cbn [Z.eqb].
    split; [reflexivity|]. now apply Inv_stack_ok.
  - destruct (lst_pop_spec fuel lst HI ltac:(lia) Hfuel) as (y & lst' & Ep & HI' & _).
    exists y, lst'. split; [exact Ep|]. now apply Inv_stack_ok.
Qed.

Lemma lst_peek_shape fuel lst :
  Inv lst -> num_elements lst + 3 <= Z.of_nat fuel ->
  exists y lst', lst_peek cmp fuel lst = Some (y, lst')
    /\ stack_ok lst' /\ fictitious_pivot lst'.
Proof.
  intros HI Hfuel. pose proof (Inv_num_elements lst HI) as HN.
  destruct (Z.eq_dec (num_elements lst) 0) as [E|E].
  - exists NULL, lst. unfold lst_peek. rewrite E. cbn [Z.eqb].
    split; [reflexivity|]. now apply Inv_stack_ok.
  - destruct (lst_peek_spec fuel lst HI ltac:(lia) Hfuel) as (lst' & Ep & HI' & _).
    eexists; exists lst'. split; [exact Ep|]. now apply Inv_stack_ok.
Qed.

End Partition.

End Logical.

(** * Part X: the comparator of the tests *)

Lemma heap_cmp_total_preorder key : total_preorder (heap_cmp key).
Proof.
  split.
  - intros a b. unfold heap_cmp.
    destruct (Z.gtb_spec (key a) (key b)), (Z.gtb_spec (key b) (key a));
      try lia; reflexivity.
  - intros a b c. unfold heap_cmp.
    destruct (Z.gtb_spec (key a) (key b)), (Z.gtb_spec (key b) (key a)),
             (Z.gtb_spec (key b) (key c)), (Z.gtb_spec (key c) (key b)),
             (Z.gtb_spec (key a) (key c)), (Z.gtb_spec (key c) (key a)); lia.
Qed.

(** * Part XI: example states

    Ten records at the addresses 1 .. 10 with the keys of the first
    end-to-end scenario, inserted into a fresh LST; and a full LST of 2048
    records. *)

Definition example_key (a : ptr) : Z :=
  nth (Z.to_nat (a - 1)) [3; 1; 4; 1; 5; 9; 2; 6; 5; 3] 0.

Definition example_cmp : ptr -> ptr -> Z := heap_cmp example_key.

Definition example_records : list ptr := [1; 2; 3; 4; 5; 6; 7; 8; 9; 10].

Definition example_seed : list nat := [3; 1; 4; 1; 5; 9; 2; 6; 5; 3; 5; 8; 9; 7; 9]%nat.

Definition example_empty : lst_t := _lst_alloc (fun _ => 0) example_seed.

Definition example_lst : lst_t :=
  match lst_insert_all example_cmp 13 example_empty example_records with
  | Some l => l
  | None => example_empty
  end.

Definition full_key (a : ptr) : Z := (a * 7919) mod 65537.

Definition full_cmp : ptr -> ptr -> Z := heap_cmp full_key.

Definition full_records : list ptr := map Z.of_nat (seq 1 2048).

Definition full_lst : lst_t :=
  match lst_insert_all full_cmp 2050 example_empty full_records with
  | Some l => l
  | None => example_empty
  end.

Lemma example_cmp_ok : total_preorder example_cmp.
Proof. apply heap_cmp_total_preorder. Qed.

Lemma full_cmp_ok : total_preorder full_cmp.
Proof. apply heap_cmp_total_preorder. Qed.

Lemma example_lst_run :
  lst_insert_all example_cmp 13 example_empty example_records = Some example_lst.
Proof. vm_compute. reflexivity. Qed.

Lemma full_lst_run :
  lst_insert_all full_cmp 2050 example_empty full_records = Some full_lst.
Proof. vm_compute. reflexivity. Qed.

Lemma example_lst_Inv : Inv example_cmp example_lst.
Proof.
  apply (lst_insert_all_spec example_cmp example_cmp_ok 13 example_records
           example_empty example_lst).
  - apply Inv_alloc.
  - reflexivity.
  - vm_compute. discriminate.
  - exact example_lst_run.
Qed.

Lemma full_lst_Inv : Inv full_cmp full_lst.
Proof.
  apply (lst_insert_all_spec full_cmp full_cmp_ok 2050 full_records
           example_empty full_lst).
  - apply Inv_alloc.
  - reflexivity.
  - vm_compute. discriminate.
  - exact full_lst_run.
Qed.

(** The example state after a [lst_peek]: the pivot stack then holds pivots. *)
Definition example_peeked : lst_t :=
  match lst_peek example_cmp 13 example_lst with
  | Some (_, l) => l
  | None => example_lst
  end.

Lemma example_peeked_Inv : Inv example_cmp example_peeked.
Proof.
  destruct (lst_peek_spec example_cmp example_cmp_ok 13 example_lst example_lst_Inv)
    as (l & E & HI & _); [vm_compute; reflexivity | vm_compute; discriminate |].
  unfold example_peeked. rewrite E. exact HI.
Qed.

(** * Part XII: the statements of the specification

    Each theorem is named after the statement it settles (C1 to C10).  Where
    the code does not behave as a statement says, the theorem states what the
    code does, and a closed example exhibits the difference. *)

(** C1: for a comparator that is a total (pre)order, [n] records whose handle
    fields are 0 and any random draws, after [n] successful [lst_insert] calls
    on a fresh LST, [n] successive [lst_pop] calls return exactly those
    records, in nondecreasing comparator order. *)
Theorem C1_insert_all_then_pop_all_sorted
  (cmp : ptr -> ptr -> Z) (records : list ptr) (mem : ptr -> Z) (seed : list nat)
  (fuel : nat) (lst : lst_t) :
  total_preorder cmp ->
  (forall r, In r records -> mem r = 0) ->
  Z.of_nat (length records) + 3 <= Z.of_nat fuel ->
  lst_insert_all cmp fuel (_lst_alloc mem seed) records = Some lst ->
  exists out lst',
    lst_pop_n cmp fuel (length records) lst = Some (out, lst')
    /\ Permutation out records
    /\ StronglySorted (fun a b => cmp a b <= 0) out.
Proof.
  intros Hcmp _ Hf Hrun.
  destruct (lst_insert_all_spec cmp Hcmp fuel records (_lst_alloc mem seed) lst)
    as (HI & Hidx & Hn & Hnd & _ & Hres); auto.
  - apply Inv_alloc.
  - cbn [num_elements _lst_alloc]. lia.
  - cbn [num_elements _lst_alloc] in Hn.
    destruct (lst_pop_n_spec cmp Hcmp fuel (length records) lst HI ltac:(lia) Hf)
      as (out & lst' & E & _ & _ & Hin & Hnd' & Hsort).
    exists out, lst'. split; [exact E|]. split; [|exact Hsort].
    apply NoDup_Permutation; auto.
    intros y. rewrite Hin, Hres. split; [intros [H|H]; auto|auto].
    destruct H as (j & Hj & _). cbn in Hj. lia.
Qed.

Lemma C1_witness :
  exists out lst',
    lst_pop_n example_cmp 13 10 example_lst = Some (out, lst')
    /\ Permutation out example_records
    /\ StronglySorted (fun a b => example_cmp a b <= 0) out.
Proof.
  apply (C1_insert_all_then_pop_all_sorted example_cmp example_records
           (fun _ => 0) example_seed 13 example_lst).
  - exact example_cmp_ok.
  - intros r _. reflexivity.
  - vm_compute. discriminate.
  - exact example_lst_run.
Defined.

(** C2: in a state satisfying the invariants whose subtree at stack index [k]
    is a single nonempty bucket with bounds [lwb] and [upb], [partition], for
    any random pivot choice, pushes one stack entry [h] with
    [lwb <= h <= upb]; afterwards no element at a logical index in [lwb, h)
    compares greater than the element at [h], and no element at a logical
    index in (h, upb] compares less than it. *)
Theorem C2_partition_splits_bucket
  (cmp : ptr -> ptr -> Z) (fuel : nat) (lst : lst_t) (k : Z) :
  total_preorder cmp ->
  Inv cmp lst ->
  is_bucket lst k = true ->
  bucket_lwb lst k <= bucket_upb lst k ->
  bucket_upb lst k - bucket_lwb lst k + 3 <= Z.of_nat fuel ->
  exists lst',
    partition cmp fuel lst k = Some lst'
    /\ depth (s lst') = depth (s lst) + 1
    /\ (forall i, 0 <= i < depth (s lst) -> stack_item (s lst') i = stack_item (s lst) i)
    /\ bucket_lwb lst k <= stack_item (s lst') (depth (s lst)) <= bucket_upb lst k
    /\ (forall j, bucket_lwb lst k <= j < stack_item (s lst') (depth (s lst)) ->
                  cmp (item lst' j) (item lst' (stack_item (s lst') (depth (s lst)))) <= 0)
    /\ (forall j, stack_item (s lst') (depth (s lst)) < j <= bucket_upb lst k ->
                  cmp (item lst' j) (item lst' (stack_item (s lst') (depth (s lst)))) >= 0).
Proof.
  intros Hcmp HI Hb Hne Hf.
  rewrite is_bucket_spec in Hb. apply Z.eqb_eq in Hb.
  assert (Elwb : bucket_lwb lst k = idx lst).
  { unfold bucket_lwb. rewrite is_bucket_spec, Hb. now rewrite Z.eqb_refl. }
  rewrite Elwb in *. unfold bucket_upb in *.
  destruct (partition_spec cmp Hcmp fuel lst k HI Hb ltac:(lia) ltac:(lia))
    as (lst' & h & E & P1 & P2 & P3 & P4 & P5 & P6 & P7 & P8 & P9 & P10 & P11).
  rewrite <- Hb in *.
  exists lst'. rewrite P7.
  split; [exact E|]. split; [exact P5|]. split; [exact P6|].
  split; [lia|]. split; [exact P10|].
  intros j Hj. apply P11. lia.
Qed.

Lemma C2_witness :
  exists lst',
    partition example_cmp 13 example_lst 0 = Some lst'
    /\ depth (s lst') = depth (s example_lst) + 1
    /\ (forall i, 0 <= i < depth (s example_lst) ->
                  stack_item (s lst') i = stack_item (s example_lst) i)
    /\ bucket_lwb example_lst 0 <= stack_item (s lst') (depth (s example_lst))
       <= bucket_upb example_lst 0
    /\ (forall j, bucket_lwb example_lst 0 <= j
                  < stack_item (s lst') (depth (s example_lst)) ->
                  example_cmp (item lst' j)
                    (item lst' (stack_item (s lst') (depth (s example_lst)))) <= 0)
    /\ (forall j, stack_item (s lst') (depth (s example_lst)) < j
                  <= bucket_upb example_lst 0 ->
                  example_cmp (item lst' j)
                    (item lst' (stack_item (s lst') (depth (s example_lst)))) >= 0).
Proof.
  apply (C2_partition_splits_bucket example_cmp 13 example_lst 0).
  - exact example_cmp_ok.
  - exact example_lst_Inv.
  - vm_compute. reflexivity.
  - vm_compute. discriminate.
  - vm_compute. discriminate.
Defined.

(** C7: in a non-empty state satisfying the invariants, for any random draws,
    the element returned by [lst_peek] is the element returned by the
    [lst_pop] that follows it immediately. *)
Theorem C7_peek_then_pop_same_element
  (cmp : ptr -> ptr -> Z) (fuel : nat) (lst : lst_t) :
  total_preorder cmp ->
  Inv cmp lst ->
  0 < num_elements lst ->
  num_elements lst + 3 <= Z.of_nat fuel ->
  exists x lst1 lst2,
    lst_peek cmp fuel lst = Some (x, lst1)
    /\ lst_pop cmp fuel lst1 = Some (x, lst2)
    /\ resident lst x
    /\ (forall y, resident lst y -> cmp x y <= 0).
Proof.
  intros Hcmp HI Hn Hf.
  destruct (lst_peek_then_pop cmp Hcmp fuel lst HI Hn Hf)
    as (x & lst1 & lst2 & E1 & E2 & (_ & P2 & P3 & _)).
  exists x, lst1, lst2. auto.
Qed.

Lemma C7_witness :
  exists x lst1 lst2,
    lst_peek example_cmp 13 example_lst = Some (x, lst1)
    /\ lst_pop example_cmp 13 lst1 = Some (x, lst2)
    /\ resident example_lst x
    /\ (forall y, resident example_lst y -> example_cmp x y <= 0).
Proof.
  apply (C7_peek_then_pop_same_element example_cmp 13 example_lst).
  - exact example_cmp_ok.
  - exact example_lst_Inv.
  - vm_compute. reflexivity.
  - vm_compute. discriminate.
Defined.

(** C8: in a state satisfying the invariants with [num_elements] equal to
    [capacity], [lst_expand] doubles the capacity and keeps the structure:
    every resident element is still resident at its logical index, its handle
    field is the reduced index of its slot under the new capacity, and the
    elements occupy the circular range [idx, idx + num_elements) again. *)
Theorem C8_expand_preserves_structure (cmp : ptr -> ptr -> Z) (lst : lst_t) :
  Inv cmp lst ->
  num_elements lst = capacity lst ->
  capacity (lst_expand lst) = 2 * capacity lst
  /\ idx (lst_expand lst) = idx lst
  /\ num_elements (lst_expand lst) = num_elements lst
  /\ (forall j, idx lst <= j < idx lst + num_elements lst ->
                item (lst_expand lst) j = item lst j
                /\ index_of (lst_expand lst) (item (lst_expand lst) j)
                   = index_reduce (lst_expand lst) j)
  /\ (forall x, resident (lst_expand lst) x <-> resident lst x)
  /\ Inv cmp (lst_expand lst).
Proof.
  intros HI Hfull.
  destruct (lst_expand_spec cmp lst HI Hfull) as (X1 & X2 & X3 & X4 & X5 & X6 & X7 & X8 & X9).
  split; [exact X2|]. split; [exact X3|]. split; [exact X4|].
  split; [|split; [|exact X1]].
  - intros j Hj. split; [now apply X8|].
    destruct X1 as (Hwf & _ & HL). rewrite index_reduce_mod by apply Hwf.
    apply (L_hd _ _ _ _ _ _ _ _ _ _ HL); lia.
  - intros x. unfold resident. rewrite X3, X4.
    split; intros (j & Hj & Ej); exists j; (split; [exact Hj|]);
      [rewrite <- X8 by lia | rewrite X8 by lia]; exact Ej.
Qed.

Lemma C8_witness :
  capacity (lst_expand full_lst) = 2 * capacity full_lst
  /\ idx (lst_expand full_lst) = idx full_lst
  /\ num_elements (lst_expand full_lst) = num_elements full_lst
  /\ (forall j, idx full_lst <= j < idx full_lst + num_elements full_lst ->
                item (lst_expand full_lst) j = item full_lst j
                /\ index_of (lst_expand full_lst) (item (lst_expand full_lst) j)
                   = index_reduce (lst_expand full_lst) j)
  /\ (forall x, resident (lst_expand full_lst) x <-> resident full_lst x)
  /\ Inv full_cmp (lst_expand full_lst).
Proof.
  apply (C8_expand_preserves_structure full_cmp full_lst).
  - exact full_lst_Inv.
  - vm_compute. reflexivity.
Defined.

(** C9: in a state satisfying the invariants, [lst_iter_init] returns null
    when the LST is empty; otherwise it sets the iterator to [idx] and returns
    the element there, each [lst_iter_next] steps the iterator by one and
    returns the element at the new position until the position would reach
    [s[0]], where it returns null; so the iteration visits each resident
    element exactly once, in physical order. *)
Theorem C9_iteration_visits_residents_once
  (cmp : ptr -> ptr -> Z) (lst : lst_t) (iter0 : Z) :
  Inv cmp lst ->
  (num_elements lst = 0 -> lst_iter_init (Some lst) iter0 = (NULL, iter0))
  /\ (0 < num_elements lst ->
      lst_iter_init (Some lst) iter0 = (item lst (idx lst), idx lst))
  /\ stack_item (s lst) 0 = idx lst + num_elements lst
  /\ (forall i, i + 1 < stack_item (s lst) 0 ->
                lst_iter_next (Some lst) i = (item lst (i + 1), i + 1))
  /\ (forall i, stack_item (s lst) 0 <= i + 1 ->
                lst_iter_next (Some lst) i = (NULL, i))
  /\ (0 < num_elements lst ->
      lst_iter_collect (Z.to_nat (num_elements lst)) lst (lst_iter_init (Some lst) iter0)
      = residents lst)
  /\ NoDup (residents lst)
  /\ (forall x, In x (residents lst) <-> resident lst x).
Proof.
  intros HI. pose proof HI as (_ & _ & HL).
  pose proof (L_s0 _ _ _ _ _ _ _ _ _ _ HL) as Hs0.
  pose proof (L_N _ _ _ _ _ _ _ _ _ _ HL) as HN.
  assert (Einit : 0 < num_elements lst ->
            lst_iter_init (Some lst) iter0 = (item lst (idx lst), idx lst)).
  { intros Hn. unfold lst_iter_init. destruct (Z.eqb_spec (num_elements lst) 0); [lia|].
    reflexivity. }
  split; [intros E; unfold lst_iter_init; now rewrite E|].
  split; [exact Einit|]. split; [exact Hs0|].
  split; [|split; [|split; [|split]]].
  - intros i Hi. unfold lst_iter_next. destruct (Z.geb_spec (i + 1) (stack_item (s lst) 0)); [lia|].
    reflexivity.
  - intros i Hi. unfold lst_iter_next. destruct (Z.geb_spec (i + 1) (stack_item (s lst) 0)); [|lia].
    reflexivity.
  - intros Hn. rewrite Einit by exact Hn.
    rewrite (lst_iter_collect_spec cmp lst) by (auto; lia). reflexivity.
  - exact (NoDup_residents cmp lst HI).
  - intros x. apply in_residents.
Qed.

Lemma C9_witness :
  (num_elements example_lst = 0 -> lst_iter_init (Some example_lst) 0 = (NULL, 0))
  /\ (0 < num_elements example_lst ->
      lst_iter_init (Some example_lst) 0 = (item example_lst (idx example_lst), idx example_lst))
  /\ stack_item (s example_lst) 0 = idx example_lst + num_elements example_lst
  /\ (forall i, i + 1 < stack_item (s example_lst) 0 ->
                lst_iter_next (Some example_lst) i = (item example_lst (i + 1), i + 1))
  /\ (forall i, stack_item (s example_lst) 0 <= i + 1 ->
                lst_iter_next (Some example_lst) i = (NULL, i))
  /\ (0 < num_elements example_lst ->
      lst_iter_collect (Z.to_nat (num_elements example_lst)) example_lst
        (lst_iter_init (Some example_lst) 0)
      = residents example_lst)
  /\ NoDup (residents example_lst)
  /\ (forall x, In x (residents example_lst) <-> resident example_lst x).
Proof.
  apply (C9_iteration_visits_residents_once example_cmp example_lst 0).
  exact example_lst_Inv.
Defined.

(** C10: in a non-empty state satisfying the invariants, for any random
    draws, [lst_peek] leaves [num_elements], [idx], [capacity] and the set of
    resident elements as they were: elements may change places and pivots may
    be pushed, but afterwards every element that was resident is resident,
    with its handle field equal to the reduced index of its slot, and no
    element has been added or removed. *)
Theorem C10_peek_keeps_residents
  (cmp : ptr -> ptr -> Z) (fuel : nat) (lst : lst_t) :
  total_preorder cmp ->
  Inv cmp lst ->
  0 < num_elements lst ->
  num_elements lst + 3 <= Z.of_nat fuel ->
  exists x lst',
    lst_peek cmp fuel lst = Some (x, lst')
    /\ num_elements lst' = num_elements lst
    /\ idx lst' = idx lst
    /\ capacity lst' = capacity lst
    /\ depth (s lst) <= depth (s lst')
    /\ (forall y, resident lst' y <-> resident lst y)
    /\ Permutation (residents lst') (residents lst)
    /\ (forall j, idx lst' <= j < idx lst' + num_elements lst' ->
                  index_of lst' (item lst' j) = index_reduce lst' j)
    /\ Inv cmp lst'.
Proof.
  intros Hcmp HI Hn Hf. pose proof HI as (_ & _ & HL).
  pose proof (L_s0 _ _ _ _ _ _ _ _ _ _ HL) as Hs0.
  destruct (lst_peek_spec cmp Hcmp fuel lst HI Hn Hf)
    as (lst' & E & HI' & Ec & Ei & En & Ed & ES & Et & Hp & Hdd).
  assert (Hres : forall y, resident lst' y <-> resident lst y).
  { intros y. apply (perm_in_resident_gen (idx lst) (stack_item (s lst) 0 - 1)); auto; lia. }
  exists (item lst' (idx lst')), lst'.
  split; [exact E|]. split; [exact En|]. split; [exact Ei|]. split; [exact Ec|].
  split; [exact Hdd|].
  split; [exact Hres|]. split.
  { apply NoDup_Permutation.
    - exact (NoDup_residents cmp lst' HI').
    - exact (NoDup_residents cmp lst HI).
    - intros y. rewrite !in_residents. apply Hres. }
  split; [|exact HI'].
  intros j Hj. destruct HI' as (Hwf' & _ & HL').
  rewrite index_reduce_mod by apply Hwf'. apply (L_hd _ _ _ _ _ _ _ _ _ _ HL'); lia.
Qed.

Lemma C10_witness :
  exists x lst',
    lst_peek example_cmp 13 example_lst = Some (x, lst')
    /\ num_elements lst' = num_elements example_lst
    /\ idx lst' = idx example_lst
    /\ capacity lst' = capacity example_lst
    /\ depth (s example_lst) <= depth (s lst')
    /\ (forall y, resident lst' y <-> resident example_lst y)
    /\ Permutation (residents lst') (residents example_lst)
    /\ (forall j, idx lst' <= j < idx lst' + num_elements lst' ->
                  index_of lst' (item lst' j) = index_reduce lst' j)
    /\ Inv example_cmp lst'.
Proof.
  apply (C10_peek_keeps_residents example_cmp 13 example_lst).
  - exact example_cmp_ok.
  - exact example_lst_Inv.
  - vm_compute. reflexivity.
  - vm_compute. discriminate.
Defined.

(** C4 (as the code has it): [lst_insert] returns failure for a record whose
    handle field is positive, and for a record whose handle field is zero
    while the LST is non-empty, [idx] is 0 and slot 0 holds that record.  A
    record whose handle field is negative is accepted, and so is a record
    whose handle field is zero and that is not resident. *)
Theorem C4_insert_rejects_positive_handle
  (cmp : ptr -> ptr -> Z) (fuel : nat) (lst : lst_t) (x : ptr) :
  total_preorder cmp ->
  Inv cmp lst ->
  num_elements lst + 1 <= Z.of_nat fuel ->
  (0 < index_of lst x -> exists lst', lst_insert cmp fuel lst x = Some (-1, lst'))
  /\ (index_of lst x = 0 -> 0 < num_elements lst -> idx lst = 0 -> item lst 0 = x ->
      exists lst', lst_insert cmp fuel lst x = Some (-1, lst'))
  /\ (index_of lst x < 0 -> exists lst', lst_insert cmp fuel lst x = Some (1, lst'))
  /\ (index_of lst x = 0 -> ~ resident lst x ->
      exists lst', lst_insert cmp fuel lst x = Some (1, lst')).
Proof.
  intros Hcmp HI Hf.
  destruct (insert_expand_spec cmp lst HI)
    as (HI0 & HN0 & Ei0 & En0 & Ec0 & Hres0 & Hhd0 & Eit0).
  pose proof HI as (Hwf & Hidx & HL). pose proof HI0 as (Hwf0 & Hidx0 & HL0).
  pose proof (pow2_pos _ (wf_cap _ Hwf)) as Hc.
  pose proof (pow2_pos _ (wf_cap _ Hwf0)) as Hc0.
  pose proof (L_N _ _ _ _ _ _ _ _ _ _ HL) as HN.
  assert (Hres_hd : forall y, resident lst y -> 0 <= index_of lst y).
  { intros y (j & Hj & <-). rewrite (L_hd _ _ _ _ _ _ _ _ _ _ HL) by lia.
    apply Z.mod_pos_bound. lia. }
  split; [|split; [|split]].
  - intros Hpos. eexists. unfold lst_insert, item_index.
    set (lst0 := if num_elements lst =? capacity lst then lst_expand lst else lst) in *.
    assert (Hpos0 : 0 < index_of lst0 x).
    { destruct (Z.eq_dec (capacity lst0) (capacity lst)) as [E|E].
      - (* not expanded *)
        subst lst0. destruct (Z.eqb_spec (num_elements lst) (capacity lst)); [|exact Hpos].
        destruct (lst_expand_spec cmp lst HI) as (_ & X2 & _); auto. lia.
      - assert (Ec2 : capacity lst0 = 2 * capacity lst) by (destruct Ec0; [contradiction|auto]).
        assert (Hfull : num_elements lst = capacity lst).
        { subst lst0. destruct (Z.eqb_spec (num_elements lst) (capacity lst)); [auto|].
          contradiction. }
        destruct (classic_resident lst x) as [Hr|Hr].
        + pose proof Hr as (j & Hj & Ej).
          assert (E0 : index_of lst0 x = j mod capacity lst0).
          { rewrite <- Ej, <- Eit0 by lia.
            apply (L_hd _ _ _ _ _ _ _ _ _ _ HL0); lia. }
          rewrite E0, Ec2, Z.mod_small by lia.
          destruct (Z.eq_dec j 0) as [->|]; [|lia].
          rewrite <- Ej in Hpos. rewrite (L_hd _ _ _ _ _ _ _ _ _ _ HL) in Hpos by lia.
          rewrite Zmod_0_l in Hpos. lia.
        + rewrite Hhd0 by exact Hr. exact Hpos. }
    destruct (Z.gtb_spec (index_of lst0 x) 0); [|lia]. reflexivity.
  - intros Hz Hn Hi0 Ex. eexists. unfold lst_insert, item_index.
    set (lst0 := if num_elements lst =? capacity lst then lst_expand lst else lst) in *.
    assert (Ex0 : item lst0 0 = x) by (rewrite Eit0 by lia; exact Ex).
    assert (Ez0 : index_of lst0 x = 0).
    { rewrite <- Ex0. rewrite (L_hd _ _ _ _ _ _ _ _ _ _ HL0) by lia. apply Zmod_0_l. }
    rewrite Ez0, Ex0, Ei0, Hi0, En0. cbn.
    destruct (Z.gtb_spec (num_elements lst) 0); [|lia]. rewrite Z.eqb_refl. reflexivity.
  - intros Hneg.
    assert (Hfresh : ~ resident lst x).
    { intros Hr. apply Hres_hd in Hr. lia. }
    destruct (lst_insert_spec cmp Hcmp fuel lst x HI Hfresh ltac:(lia) Hf) as (lst' & E & _).
    exists lst'. exact E.
  - intros Hz Hfresh.
    destruct (lst_insert_spec cmp Hcmp fuel lst x HI Hfresh ltac:(lia) Hf) as (lst' & E & _).
    exists lst'. exact E.
Qed.

Lemma C4_witness :
  (0 < index_of example_lst 2 ->
   exists lst', lst_insert example_cmp 13 example_lst 2 = Some (-1, lst'))
  /\ (index_of example_lst 2 = 0 -> 0 < num_elements example_lst ->
      idx example_lst = 0 -> item example_lst 0 = 2 ->
      exists lst', lst_insert example_cmp 13 example_lst 2 = Some (-1, lst'))
  /\ (index_of example_lst 2 < 0 ->
      exists lst', lst_insert example_cmp 13 example_lst 2 = Some (1, lst'))
  /\ (index_of example_lst 2 = 0 -> ~ resident example_lst 2 ->
      exists lst', lst_insert example_cmp 13 example_lst 2 = Some (1, lst')).
Proof.
  apply (C4_insert_rejects_positive_handle example_cmp 13 example_lst 2).
  - exact example_cmp_ok.
  - exact example_lst_Inv.
  - vm_compute. discriminate.
Defined.

(** A record whose handle field is -1 is accepted by [lst_insert] on the empty
    LST, although its handle field is nonzero. *)
Lemma C4_counterexample :
  index_of (_lst_alloc (fun _ => -1) nil) 1 <> 0
  /\ option_map fst (lst_insert example_cmp 5 (_lst_alloc (fun _ => -1) nil) 1) = Some 1.
Proof.
  split.
  - vm_compute. discriminate.
  - vm_compute. reflexivity.
Qed.

(** C5 (as the code has it): when [lst_insert] rejects a record, the state is
    unchanged unless the LST was full; a full LST has been expanded before the
    check, so its capacity has doubled, while [idx], [num_elements], the
    pivot stack and the elements of the occupied range are those of before. *)
Theorem C5_rejected_insert_state
  (cmp : ptr -> ptr -> Z) (fuel : nat) (lst lst' : lst_t) (x : ptr) :
  Inv cmp lst ->
  lst_insert cmp fuel lst x = Some (-1, lst') ->
  (num_elements lst <> capacity lst -> lst' = lst)
  /\ (num_elements lst = capacity lst ->
      lst' = lst_expand lst
      /\ capacity lst' = 2 * capacity lst
      /\ idx lst' = idx lst
      /\ num_elements lst' = num_elements lst
      /\ depth (s lst') = depth (s lst)
      /\ (forall i, 0 <= i -> stack_item (s lst') i = stack_item (s lst) i)
      /\ (forall j, idx lst <= j < idx lst + num_elements lst ->
                    item lst' j = item lst j)
      /\ Inv cmp lst').
Proof.
  intros HI E.
  assert (E' : lst' = if num_elements lst =? capacity lst then lst_expand lst else lst).
  { unfold lst_insert in E.
    set (lst0 := if num_elements lst =? capacity lst then lst_expand lst else lst) in *.
    cbv zeta in E.
    match type of E with (if ?b then _ else _) = _ => destruct b end.
    - injection E as <-. reflexivity.
    - destruct (_lst_insert cmp fuel lst0 0 x) as [l|]; discriminate. }
  split.
  - intros Hne. rewrite E'. destruct (Z.eqb_spec (num_elements lst) (capacity lst)); [contradiction|reflexivity].
  - intros Hfull. rewrite Hfull, Z.eqb_refl in E'. subst lst'.
    destruct (lst_expand_spec cmp lst HI Hfull) as (X1 & X2 & X3 & X4 & X5 & X6 & X7 & X8 & X9).
    repeat split; auto; try lia; apply X1.
Qed.

Lemma C5_witness :
  (num_elements example_lst <> capacity example_lst -> example_lst = example_lst)
  /\ (num_elements example_lst = capacity example_lst ->
      example_lst = lst_expand example_lst
      /\ capacity example_lst = 2 * capacity example_lst
      /\ idx example_lst = idx example_lst
      /\ num_elements example_lst = num_elements example_lst
      /\ depth (s example_lst) = depth (s example_lst)
      /\ (forall i, 0 <= i -> stack_item (s example_lst) i = stack_item (s example_lst) i)
      /\ (forall j, idx example_lst <= j < idx example_lst + num_elements example_lst ->
                    item example_lst j = item example_lst j)
      /\ Inv example_cmp example_lst).
Proof.
  apply (C5_rejected_insert_state example_cmp 0 example_lst example_lst 2).
  - exact example_lst_Inv.
  - vm_compute. reflexivity.
Defined.

(** Inserting a record that is already resident into a full LST fails, but the
    capacity has doubled. *)
Lemma C5_counterexample :
  num_elements full_lst = capacity full_lst
  /\ option_map fst (lst_insert full_cmp 0 full_lst 2) = Some (-1)
  /\ option_map (fun r => capacity (snd r)) (lst_insert full_cmp 0 full_lst 2)
     = Some (2 * capacity full_lst).
Proof.
  split; [|split]; vm_compute; reflexivity.
Qed.

(** C3: entry 0 of the pivot stack equals [idx + num_elements] exactly in the
    state that [_lst_alloc] returns, and [lst_insert], [lst_extract],
    [lst_expand] and [lst_indices_reduce] keep the equality for any record,
    as [lst_pop] and [lst_peek] do from a state satisfying the invariants. *)
Theorem C3_fictitious_pivot_preserved
  (cmp : ptr -> ptr -> Z) (fuel : nat) (lst : lst_t) (x : ptr)
  (mem : ptr -> Z) (seed : list nat) :
  stack_ok lst -> fictitious_pivot lst ->
  depth (s lst) <= Z.of_nat fuel ->
  fictitious_pivot (_lst_alloc mem seed)
  /\ (exists r lst', lst_insert cmp fuel lst x = Some (r, lst')
                     /\ stack_ok lst' /\ fictitious_pivot lst')
  /\ (exists r lst', lst_extract cmp fuel lst x = Some (r, lst')
                     /\ stack_ok lst' /\ fictitious_pivot lst')
  /\ (stack_ok (lst_expand lst) /\ fictitious_pivot (lst_expand lst))
  /\ (stack_ok (lst_indices_reduce lst) /\ fictitious_pivot (lst_indices_reduce lst))
  /\ (total_preorder cmp -> Inv cmp lst -> num_elements lst + 3 <= Z.of_nat fuel ->
      (exists y lst', lst_pop cmp fuel lst = Some (y, lst')
                      /\ stack_ok lst' /\ fictitious_pivot lst')
      /\ (exists y lst', lst_peek cmp fuel lst = Some (y, lst')
                         /\ stack_ok lst' /\ fictitious_pivot lst')).
Proof.
  intros Hok Hf Hfuel.
  split; [apply (Inv_stack_ok (fun _ _ => 0)), Inv_alloc|].
  split; [now apply lst_insert_shape|].
  split.
  { destruct (lst_extract_shape cmp fuel lst x Hok Hf Hfuel) as (r & lst' & E & P1 & P2 & _).
    exists r, lst'. auto. }
  split.
  { destruct (lst_expand_shape lst Hok Hf) as (E1 & E2 & _). auto. }
  split.
  { destruct (lst_indices_reduce_shape lst Hok Hf) as (E1 & E2 & _). auto. }
  intros Hcmp HI Hfuel'. split.
  - now apply lst_pop_shape.
  - now apply lst_peek_shape.
Qed.

Lemma C3_witness :
  fictitious_pivot (_lst_alloc (fun _ => 0) example_seed)
  /\ (exists r lst', lst_insert example_cmp 13 example_lst 11 = Some (r, lst')
                     /\ stack_ok lst' /\ fictitious_pivot lst')
  /\ (exists r lst', lst_extract example_cmp 13 example_lst 11 = Some (r, lst')
                     /\ stack_ok lst' /\ fictitious_pivot lst')
  /\ (stack_ok (lst_expand example_lst) /\ fictitious_pivot (lst_expand example_lst))
  /\ (stack_ok (lst_indices_reduce example_lst)
      /\ fictitious_pivot (lst_indices_reduce example_lst))
  /\ (total_preorder example_cmp -> Inv example_cmp example_lst ->
      num_elements example_lst + 3 <= Z.of_nat 13 ->
      (exists y lst', lst_pop example_cmp 13 example_lst = Some (y, lst')
                      /\ stack_ok lst' /\ fictitious_pivot lst')
      /\ (exists y lst', lst_peek example_cmp 13 example_lst = Some (y, lst')
                         /\ stack_ok lst' /\ fictitious_pivot lst')).
Proof.
  apply (C3_fictitious_pivot_preserved example_cmp 13 example_lst 11
           (fun _ => 0) example_seed).
  - exact (proj1 (Inv_stack_ok example_cmp example_lst example_lst_Inv)).
  - exact (proj2 (Inv_stack_ok example_cmp example_lst example_lst_Inv)).
  - vm_compute. discriminate.
Defined.




(** The condition on equal records in the statement about [lst_extract] is
    needed: records 1 and 2 have key 0, records 3 and 4 have key 1.  After
    two pops the residents are 3 and 4, and 4 is a pivot; extracting 3, which
    compares equal to that pivot, leaves the popped record 1 resident in the
    place of 4. *)
Definition tie_key (a : ptr) : Z := nth (Z.to_nat (a - 1)) [0; 0; 1; 1] 0.

Definition tie_cmp : ptr -> ptr -> Z := heap_cmp tie_key.

Definition tie_run : option (list ptr * list ptr) :=
  match lst_insert_all tie_cmp 20 (_lst_alloc (fun _ => 0) [3; 0]%nat) [1; 3; 2; 4] with
  | None => None
  | Some l =>
      match lst_pop_n tie_cmp 20 2 l with
      | None => None
      | Some (_, l1) =>
          match lst_extract tie_cmp 20 l1 3 with
          | None => None
          | Some (_, l2) => Some (residents l1, residents l2)
          end
      end
  end.

Example extract_equal_to_pivot_loses_a_record :
  tie_run = Some ([4; 3], [1]).
Proof. vm_compute. reflexivity. Qed.

(** The state of that run before the extraction is in the situation
    [tied_pivot_at_idx] for record 3: record 4 is the pivot stored at [idx]. *)
Definition tie_lst : lst_t :=
  match lst_insert_all tie_cmp 20 (_lst_alloc (fun _ => 0) [3; 0]%nat) [1; 3; 2; 4] with
  | None => _lst_alloc (fun _ => 0) nil
  | Some l =>
      match lst_pop_n tie_cmp 20 2 l with
      | None => l
      | Some (_, l1) => l1
      end
  end.

Example tie_lst_is_the_open_situation :
  resident tie_lst 3 /\ tied_pivot_at_idx tie_cmp tie_lst 3.
Proof.
  assert (Ed : depth (s tie_lst) = 2) by (vm_compute; reflexivity).
  split.
  - apply in_residents. vm_compute. auto.
  - unfold tied_pivot_at_idx. rewrite Ed.
    split; [lia|]. split; [vm_compute; reflexivity|].
    split; [vm_compute; discriminate|]. split; [vm_compute; reflexivity|].
    intros k Hk. lia.
Qed.

(** * Part XIII: further properties of the operations *)

(** The handle field of a resident record is the physical slot that holds
    it. *)
Lemma Inv_handle_locates cmp lst x :
  Inv cmp lst -> resident lst x ->
  0 <= item_index lst x < capacity lst /\ item lst (item_index lst x) = x.
Proof.
  intros (Hwf & Hidx & HL) (j & Hj & E).
  pose proof (pow2_pos _ (wf_cap _ Hwf)) as Hc.
  assert (Eh : item_index lst x = j mod capacity lst).
  { unfold item_index. rewrite <- E. apply (L_hd _ _ _ _ _ _ _ _ _ _ HL); lia. }
  rewrite Eh. split; [apply Z.mod_pos_bound; lia|].
  rewrite <- E. unfold item.
  rewrite !index_reduce_mod by apply Hwf. now rewrite Z.mod_mod by lia.
Qed.

(** The capacity after [lst_insert], whatever it returns. *)
Lemma lst_insert_capacity cmp fuel lst x r lst' :
  stack_ok lst -> fictitious_pivot lst -> depth (s lst) <= Z.of_nat fuel ->
  lst_insert cmp fuel lst x = Some (r, lst') ->
  capacity lst' = if num_elements lst =? capacity lst then 2 * capacity lst
                  else capacity lst.
Proof.
  intros Hok Hf Hfuel. unfold lst_insert. cbv zeta.
  set (lst0 := if num_elements lst =? capacity lst then lst_expand lst else lst).
  assert (H0 : stack_ok lst0 /\ fictitious_pivot lst0 /\ depth (s lst0) = depth (s lst)
               /\ capacity lst0 = if num_elements lst =? capacity lst
                                  then 2 * capacity lst else capacity lst).
  { subst lst0. destruct (num_elements lst =? capacity lst).
    - destruct (lst_expand_shape lst Hok Hf) as (E1 & E2 & E3 & E4 & E5). auto.
    - auto. }
  destruct H0 as (Hok0 & Hf0 & Ed0 & Ec0).
  destruct (_ || _).
  - intros E. injection E as <- <-. exact Ec0.
  - destruct (_lst_insert_shape cmp fuel lst0 0 x Hok0 Hf0) as (l & E & _ & _ & Pc & _);
      [destruct Hok0; lia | lia |].
    rewrite E. intros E'. injection E' as <- <-. now rewrite Pc.
Qed.

(** X1: on an empty LST [lst_pop] returns null and changes nothing; on a
    non-empty LST satisfying the invariants it returns a resident record that
    no resident compares less than, removes exactly that record, sets its
    handle field to -1, and the invariants hold again. *)
Theorem X1_pop_removes_a_minimum (cmp : ptr -> ptr -> Z) (fuel : nat) (lst : lst_t) :
  total_preorder cmp ->
  Inv cmp lst ->
  num_elements lst + 3 <= Z.of_nat fuel ->
  (num_elements lst = 0 -> lst_pop cmp fuel lst = Some (NULL, lst))
  /\ (0 < num_elements lst ->
      exists x lst',
        lst_pop cmp fuel lst = Some (x, lst')
        /\ resident lst x
        /\ (forall y, resident lst y -> cmp x y <= 0)
        /\ num_elements lst' = num_elements lst - 1
        /\ capacity lst' = capacity lst
        /\ item_index lst' x = -1
        /\ ~ resident lst' x
        /\ (forall y, resident lst' y <-> resident lst y /\ y <> x)
        /\ Inv cmp lst').
Proof.
  intros Hcmp HI Hfuel. split.
  - intros E. unfold lst_pop. now rewrite E.
  - intros Hn.
    destruct (lst_pop_spec cmp Hcmp fuel lst HI Hn Hfuel)
      as (x & lst' & E & HI' & Hres & Hmin & Ec & En & Eh & Hset).
    exists x, lst'. repeat (split; [assumption|]).
    split; [|split; assumption].
    intros H. apply Hset in H. now destruct H.
Qed.

Lemma X1_witness :
  (num_elements example_lst = 0 -> lst_pop example_cmp 13 example_lst = Some (NULL, example_lst))
  /\ (0 < num_elements example_lst ->
      exists x lst',
        lst_pop example_cmp 13 example_lst = Some (x, lst')
        /\ resident example_lst x
        /\ (forall y, resident example_lst y -> example_cmp x y <= 0)
        /\ num_elements lst' = num_elements example_lst - 1
        /\ capacity lst' = capacity example_lst
        /\ item_index lst' x = -1
        /\ ~ resident lst' x
        /\ (forall y, resident lst' y <-> resident example_lst y /\ y <> x)
        /\ Inv example_cmp lst').
Proof.
  apply (X1_pop_removes_a_minimum example_cmp 13 example_lst).
  - exact example_cmp_ok.
  - exact example_lst_Inv.
  - vm_compute. discriminate.
Defined.

(** X2: [lst_insert] of a record that is not resident and whose handle field
    is not positive succeeds from a state satisfying the invariants: the
    record becomes resident and nothing else changes in the set of
    residents, [num_elements] grows by one, [idx] stays, the capacity doubles
    if the LST was full and stays otherwise, the handle field of the record
    is the slot that holds it, and the invariants hold again. *)
Theorem X2_insert_adds_the_record
  (cmp : ptr -> ptr -> Z) (fuel : nat) (lst : lst_t) (x : ptr) :
  total_preorder cmp ->
  Inv cmp lst ->
  ~ resident lst x ->
  item_index lst x <= 0 ->
  num_elements lst + 1 <= Z.of_nat fuel ->
  exists lst',
    lst_insert cmp fuel lst x = Some (1, lst')
    /\ num_elements lst' = num_elements lst + 1
    /\ idx lst' = idx lst
    /\ capacity lst' = (if num_elements lst =? capacity lst then 2 * capacity lst
                        else capacity lst)
    /\ (forall y, resident lst' y <-> resident lst y \/ y = x)
    /\ 0 <= item_index lst' x < capacity lst'
    /\ item lst' (item_index lst' x) = x
    /\ Inv cmp lst'.
Proof.
  intros Hcmp HI Hfresh Hh Hfuel.
  destruct (lst_insert_spec cmp Hcmp fuel lst x HI Hfresh Hh Hfuel)
    as (lst' & E & (HI' & Ei & En & Hset) & _).
  destruct (Inv_stack_ok cmp lst HI) as (Hok & Hf).
  pose proof (Inv_depth_bound cmp lst HI) as Hd.
  pose proof (lst_insert_capacity cmp fuel lst x 1 lst' Hok Hf ltac:(lia) E) as Ec.
  destruct (Inv_handle_locates cmp lst' x HI') as (Hr & Hl);
    [apply Hset; now right|].
  exists lst'. repeat (split; [assumption|]). exact HI'.
Qed.

Lemma X2_witness :
  exists lst',
    lst_insert example_cmp 13 example_lst 11 = Some (1, lst')
    /\ num_elements lst' = num_elements example_lst + 1
    /\ idx lst' = idx example_lst
    /\ capacity lst' = (if num_elements example_lst =? capacity example_lst
                        then 2 * capacity example_lst else capacity example_lst)
    /\ (forall y, resident lst' y <-> resident example_lst y \/ y = 11)
    /\ 0 <= item_index lst' 11 < capacity lst'
    /\ item lst' (item_index lst' 11) = 11
    /\ Inv example_cmp lst'.
Proof.
  apply (X2_insert_adds_the_record example_cmp 13 example_lst 11).
  - exact example_cmp_ok.
  - exact example_lst_Inv.
  - intros H. apply in_residents in H. vm_compute in H.
    repeat (destruct H as [H|H]; [discriminate H|]). exact H.
  - vm_compute. discriminate.
  - vm_compute. discriminate.
Defined.

(** X3: inserting a record and extracting it again gives back the set of
    residents, when the record compares equal to no resident: both calls
    succeed, [num_elements] is as before, the handle field of the record is
    -1, and the invariants hold. *)
Theorem X3_insert_then_extract
  (cmp : ptr -> ptr -> Z) (fuel : nat) (lst : lst_t) (x : ptr) :
  total_preorder cmp ->
  Inv cmp lst ->
  ~ resident lst x ->
  item_index lst x <= 0 ->
  (forall y, resident lst y -> cmp x y <> 0) ->
  num_elements lst + 3 <= Z.of_nat fuel ->
  exists lst1 lst2,
    lst_insert cmp fuel lst x = Some (1, lst1)
    /\ lst_extract cmp fuel lst1 x = Some (1, lst2)
    /\ num_elements lst2 = num_elements lst
    /\ (forall y, resident lst2 y <-> resident lst y)
    /\ item_index lst2 x = -1
    /\ Inv cmp lst2.
Proof.
  intros Hcmp HI Hfresh Hh Hne Hfuel.
  destruct (lst_insert_spec cmp Hcmp fuel lst x HI Hfresh Hh ltac:(lia))
    as (lst1 & E1 & (HI1 & Ei1 & En1 & Hset1) & _).
  pose proof (Inv_depth_bound cmp lst1 HI1) as Hd1.
  destruct (lst_extract_spec cmp Hcmp fuel lst1 x HI1) as (lst2 & E2 & HP); try lia.
  - apply Hset1. now right.
  - intros y Hy Hc. apply Hset1 in Hy. destruct Hy as [Hy|Hy]; [|exact Hy].
    exfalso. apply (Hne y Hy Hc).
  - destruct HP as (HI2 & _ & En2 & _ & _ & Eh2 & _ & Hset2).
    exists lst1, lst2. split; [exact E1|]. split; [exact E2|].
    split; [lia|]. split; [|split; assumption].
    intros y. rewrite Hset2, Hset1. split.
    + intros ([Hy|Hy] & Hneq); [exact Hy|contradiction].
    + intros Hy. split; [now left|]. intros ->. contradiction.
Qed.

Lemma X3_witness :
  exists lst1 lst2,
    lst_insert example_cmp 13 example_lst 11 = Some (1, lst1)
    /\ lst_extract example_cmp 13 lst1 11 = Some (1, lst2)
    /\ num_elements lst2 = num_elements example_lst
    /\ (forall y, resident lst2 y <-> resident example_lst y)
    /\ item_index lst2 11 = -1
    /\ Inv example_cmp lst2.
Proof.
  apply (X3_insert_then_extract example_cmp 13 example_lst 11).
  - exact example_cmp_ok.
  - exact example_lst_Inv.
  - intros H. apply in_residents in H. vm_compute in H.
    repeat (destruct H as [H|H]; [discriminate H|]). exact H.
  - vm_compute. discriminate.
  - intros y H. apply in_residents in H. vm_compute in H.
    repeat (destruct H as [H|H]; [subst y; vm_compute; discriminate|]). contradiction.
  - vm_compute. discriminate.
Defined.

(** X4: a record returned by [lst_pop] can be inserted again straight away;
    the LST then holds the same records as before the pop, and the invariants
    hold. *)
Theorem X4_pop_then_insert (cmp : ptr -> ptr -> Z) (fuel : nat) (lst : lst_t) :
  total_preorder cmp ->
  Inv cmp lst ->
  0 < num_elements lst ->
  num_elements lst + 3 <= Z.of_nat fuel ->
  exists x lst1 lst2,
    lst_pop cmp fuel lst = Some (x, lst1)
    /\ lst_insert cmp fuel lst1 x = Some (1, lst2)
    /\ num_elements lst2 = num_elements lst
    /\ (forall y, resident lst2 y <-> resident lst y)
    /\ Inv cmp lst2.
Proof.
  intros Hcmp HI Hn Hfuel.
  destruct (lst_pop_spec cmp Hcmp fuel lst HI Hn Hfuel)
    as (x & lst1 & E1 & HI1 & Hres & Hmin & Ec & En & Eh & Hset).
  assert (Hfresh : ~ resident lst1 x).
  { intros H. apply Hset in H. now destruct H. }
  destruct (lst_insert_spec cmp Hcmp fuel lst1 x HI1 Hfresh ltac:(lia) ltac:(lia))
    as (lst2 & E2 & (HI2 & Ei2 & En2 & Hset2) & _).
  exists x, lst1, lst2. split; [exact E1|]. split; [exact E2|].
  split; [lia|]. split; [|exact HI2].
  intros y. rewrite Hset2, Hset. split.
  - intros [(Hy & _)| ->]; assumption.
  - intros Hy. destruct (Z.eq_dec y x) as [->|Hne]; [now right|now left].
Qed.

Lemma X4_witness :
  exists x lst1 lst2,
    lst_pop example_cmp 13 example_lst = Some (x, lst1)
    /\ lst_insert example_cmp 13 lst1 x = Some (1, lst2)
    /\ num_elements lst2 = num_elements example_lst
    /\ (forall y, resident lst2 y <-> resident example_lst y)
    /\ Inv example_cmp lst2.
Proof.
  apply (X4_pop_then_insert example_cmp 13 example_lst).
  - exact example_cmp_ok.
  - exact example_lst_Inv.
  - vm_compute. reflexivity.
  - vm_compute. discriminate.
Defined.

(** X5: [lst_peek] is idempotent: a second [lst_peek] returns the same record
    and leaves the state exactly as the first one left it. *)
Theorem X5_peek_twice (cmp : ptr -> ptr -> Z) (fuel : nat) (lst : lst_t) :
  total_preorder cmp ->
  Inv cmp lst ->
  0 < num_elements lst ->
  num_elements lst + 3 <= Z.of_nat fuel ->
  exists x lst1,
    lst_peek cmp fuel lst = Some (x, lst1)
    /\ lst_peek cmp fuel lst1 = Some (x, lst1).
Proof.
  intros Hcmp HI Hn Hfuel.
  destruct (lst_peek_spec cmp Hcmp fuel lst HI Hn Hfuel)
    as (lst1 & E1 & HI1 & Ec & Ei & En & Hk & Hst & Et & Hp & Hdd).
  exists (item lst1 (idx lst1)), lst1. split; [exact E1|].
  pose proof (Inv_depth_bound cmp lst1 HI1) as Hd1.
  unfold lst_peek. destruct (Z.eqb_spec (num_elements lst1) 0); [lia|].
  rewrite _lst_peek_descend.
  rewrite (descend_again cmp fuel lst1 0 HI1) by (try assumption; lia).
  unfold pivot_item. now rewrite Et, Ei.
Qed.

Lemma X5_witness :
  exists x lst1,
    lst_peek example_cmp 13 example_lst = Some (x, lst1)
    /\ lst_peek example_cmp 13 lst1 = Some (x, lst1).
Proof.
  apply (X5_peek_twice example_cmp 13 example_lst).
  - exact example_cmp_ok.
  - exact example_lst_Inv.
  - vm_compute. reflexivity.
  - vm_compute. discriminate.
Defined.

(** X6: from any state satisfying the invariants, popping [num_elements]
    times returns all the resident records, each once, in nondecreasing
    comparator order, and leaves the LST empty. *)
Theorem X6_popping_all_drains_in_order
  (cmp : ptr -> ptr -> Z) (fuel : nat) (lst : lst_t) :
  total_preorder cmp ->
  Inv cmp lst ->
  num_elements lst + 3 <= Z.of_nat fuel ->
  exists out lst',
    lst_pop_n cmp fuel (Z.to_nat (num_elements lst)) lst = Some (out, lst')
    /\ Permutation out (residents lst)
    /\ StronglySorted (fun a b => cmp a b <= 0) out
    /\ num_elements lst' = 0
    /\ (forall y, ~ resident lst' y)
    /\ Inv cmp lst'.
Proof.
  intros Hcmp HI Hfuel. pose proof (Inv_num_elements cmp lst HI) as HN.
  destruct (lst_pop_n_spec cmp Hcmp fuel (Z.to_nat (num_elements lst)) lst HI)
    as (out & lst' & E & HI' & En & Hin & Hnd & Hs); try lia.
  exists out, lst'. split; [exact E|]. split.
  - apply NoDup_Permutation; [exact Hnd | apply (NoDup_residents cmp lst HI) |].
    intros y. rewrite Hin. symmetry. apply in_residents.
  - split; [exact Hs|]. split; [exact En|]. split; [|exact HI'].
    intros y (j & Hj & _). lia.
Qed.

Lemma X6_witness :
  exists out lst',
    lst_pop_n example_cmp 13 (Z.to_nat (num_elements example_lst)) example_lst
    = Some (out, lst')
    /\ Permutation out (residents example_lst)
    /\ StronglySorted (fun a b => example_cmp a b <= 0) out
    /\ num_elements lst' = 0
    /\ (forall y, ~ resident lst' y)
    /\ Inv example_cmp lst'.
Proof.
  apply (X6_popping_all_drains_in_order example_cmp 13 example_lst).
  - exact example_cmp_ok.
  - exact example_lst_Inv.
  - vm_compute. discriminate.
Defined.

(** X7: in a state satisfying the invariants, [lst_size] of the subtree at
    stack index [k] is the number of elements at the logical indices from
    [idx] up to, and not including, stack entry [k], also when that range
    wraps around the end of the array; it is between 0 and [num_elements]. *)
Theorem X7_lst_size_counts_the_subtree (cmp : ptr -> ptr -> Z) (lst : lst_t) (k : Z) :
  Inv cmp lst ->
  0 <= k < depth (s lst) ->
  lst_size lst k = stack_item (s lst) k - idx lst
  /\ 0 <= lst_size lst k <= num_elements lst.
Proof.
  intros HI Hk. pose proof HI as (Hwf & Hidx & HL).
  assert (E : lst_size lst k = stack_item (s lst) k - idx lst).
  { destruct (Z.eq_dec k 0) as [->|Hne].
    - unfold lst_size. cbn [Z.eqb]. rewrite (L_s0 _ _ _ _ _ _ _ _ _ _ HL). lia.
    - apply (lst_size_spec cmp); [exact HI|lia]. }
  split; [exact E|]. rewrite E.
  pose proof (L_bounds cmp HL k Hk). lia.
Qed.

Lemma X7_witness :
  lst_size example_peeked 1 = stack_item (s example_peeked) 1 - idx example_peeked
  /\ 0 <= lst_size example_peeked 1 <= num_elements example_peeked.
Proof.
  apply (X7_lst_size_counts_the_subtree example_cmp example_peeked 1).
  - exact example_peeked_Inv.
  - vm_compute. split; [discriminate|reflexivity].
Defined.

(** X8: [lst_indices_reduce] brings [idx] into the range of the array and
    lowers [idx] and every entry of the pivot stack by the same multiple of
    the capacity: the distance of each entry from [idx] and the element each
    entry refers to are the same as before, as are the array, the handle
    fields and [num_elements]. *)
Theorem X8_indices_reduce_shifts_by_a_multiple_of_capacity (lst : lst_t) :
  wf lst ->
  let lst' := lst_indices_reduce lst in
  0 <= idx lst' < capacity lst'
  /\ (idx lst - idx lst') mod capacity lst = 0
  /\ (forall k, 0 <= k < depth (s lst) ->
        stack_item (s lst') k - idx lst' = stack_item (s lst) k - idx lst
        /\ item lst' (stack_item (s lst') k) = item lst (stack_item (s lst) k))
  /\ (forall j, item lst' j = item lst j)
  /\ (forall q, item_index lst' q = item_index lst q)
  /\ capacity lst' = capacity lst
  /\ num_elements lst' = num_elements lst
  /\ depth (s lst') = depth (s lst)
  /\ wf lst'.
Proof.
  intros Hwf lst'. pose proof Hwf as [W1 W2 W3 W4].
  pose proof (pow2_pos _ W1) as Hc.
  destruct (lst_indices_reduce_spec lst W3 ltac:(lia))
    as (A1 & A2 & A3 & A4 & A5 & A6 & A7 & A8 & A9 & A10).
  fold lst' in A1, A2, A3, A4, A5, A6, A7, A8, A9, A10.
  rewrite index_reduce_mod in A9, A10 by exact W1.
  assert (Hit : forall j, item lst' j = item lst j).
  { intros j. unfold item, index_reduce. now rewrite A1, A3. }
  assert (Hper : forall j t, item lst (j - capacity lst * t) = item lst j).
  { intros j t. unfold item. rewrite !index_reduce_mod by exact W1.
    replace (j - capacity lst * t) with (j + (- t) * capacity lst) by ring.
    now rewrite Z_mod_plus_full. }
  pose proof (Z.div_mod (idx lst) (capacity lst) ltac:(lia)) as Hdm.
  split; [rewrite A9, A1; apply Z.mod_pos_bound; lia|].
  split.
  { rewrite A9. rewrite Zminus_mod_idemp_r, Z.sub_diag. apply Zmod_0_l. }
  split.
  { intros k Hk. rewrite A10 by lia.
    destruct (Z.ltb_spec k (depth (s lst))); [|lia].
    split; [lia|]. rewrite Hit.
    replace (idx lst mod capacity lst + stack_item (s lst) k - idx lst)
      with (stack_item (s lst) k - capacity lst * (idx lst / capacity lst)) by lia.
    apply Hper. }
  split; [exact Hit|]. split; [intros q; unfold item_index; now rewrite A4|].
  split; [exact A1|]. split; [exact A2|]. split; [exact A6|].
  constructor; [rewrite A1; exact W1 | rewrite A3, A1; exact W2
               | rewrite A7; exact A8 | rewrite A6, A7; exact W4].
Qed.

Lemma X8_witness :
  let lst' := lst_indices_reduce example_lst in
  0 <= idx lst' < capacity lst'
  /\ (idx example_lst - idx lst') mod capacity example_lst = 0
  /\ (forall k, 0 <= k < depth (s example_lst) ->
        stack_item (s lst') k - idx lst' = stack_item (s example_lst) k - idx example_lst
        /\ item lst' (stack_item (s lst') k) = item example_lst (stack_item (s example_lst) k))
  /\ (forall j, item lst' j = item example_lst j)
  /\ (forall q, item_index lst' q = item_index example_lst q)
  /\ capacity lst' = capacity example_lst
  /\ num_elements lst' = num_elements example_lst
  /\ depth (s lst') = depth (s example_lst)
  /\ wf lst'.
Proof.
  apply (X8_indices_reduce_shifts_by_a_multiple_of_capacity example_lst).
  exact (Inv_wf example_cmp example_lst example_lst_Inv).
Defined.

(** X9: [stack_push] on a stack whose array has [size] cells writes the value
    at index [depth] and raises [depth] by one; the entries below are kept,
    also when the stack was full, in which case the array is doubled
    first. *)
Theorem X9_stack_push_keeps_entries (st : pivot_stack_t) (v : Z) :
  Z.of_nat (length (data st)) = size st ->
  0 <= depth st <= size st ->
  1 <= size st ->
  let st' := stack_push st v in
  depth st' = depth st + 1
  /\ size st' = (if depth st =? size st then 2 * size st else size st)
  /\ Z.of_nat (length (data st')) = size st'
  /\ depth st' <= size st'
  /\ stack_item st' (depth st) = v
  /\ (forall k, 0 <= k < depth st -> stack_item st' k = stack_item st k).
Proof.
  intros Hlen Hd Hsz st'.
  destruct (stack_push_wf st v Hlen Hd Hsz) as (P1 & P2).
  split; [apply stack_push_depth|]. split.
  { subst st'. unfold stack_push. destruct (depth st =? size st); reflexivity. }
  split; [exact P1|]. split; [exact P2|]. split.
  - subst st'. rewrite stack_item_push by (try assumption; lia). now rewrite Z.eqb_refl.
  - intros k Hk. subst st'. rewrite stack_item_push by (try assumption; lia).
    destruct (Z.eqb_spec k (depth st)); [lia|reflexivity].
Qed.

Lemma X9_witness :
  let st := mk_stack 2 2 [7; 3] in
  let st' := stack_push st 1 in
  depth st' = depth st + 1
  /\ size st' = (if depth st =? size st then 2 * size st else size st)
  /\ Z.of_nat (length (data st')) = size st'
  /\ depth st' <= size st'
  /\ stack_item st' (depth st) = 1
  /\ (forall k, 0 <= k < depth st -> stack_item st' k = stack_item st k).
Proof.
  apply (X9_stack_push_keeps_entries (mk_stack 2 2 [7; 3]) 1).
  - reflexivity.
  - vm_compute. split; discriminate.
  - vm_compute. discriminate.
Defined.

(** ** The helpers of the tests *)

Lemma lst_contains_loop_spec lst x : forall count i,
  lst_contains_loop count lst i x = true
  <-> exists j, i <= j < i + Z.of_nat count /\ item lst (j + idx lst) = x.
Proof.
  induction count as [|c IH]; intros i; cbn [lst_contains_loop].
  - split; [discriminate|]. intros (j & Hj & _). lia.
  - destruct (Z.eqb_spec (item lst (i + idx lst)) x) as [E|E].
    + split; [|reflexivity]. intros _. exists i. split; [lia|exact E].
    + rewrite IH. split; intros (j & Hj & Ej).
      * exists j. split; [lia|exact Ej].
      * exists j. split; [|exact Ej].
        destruct (Z.eq_dec j i) as [->|]; [contradiction|lia].
Qed.

(** X10: [lst_contains] of the tests returns true exactly for the records at
    the logical indices from [idx] to [idx + num_elements - 1]; an empty LST
    contains nothing. *)
Theorem X10_lst_contains_decides_residency (lst : lst_t) (x : ptr) :
  (lst_contains lst x = true <-> resident lst x)
  /\ (num_elements lst <= 0 -> lst_contains lst x = false).
Proof.
  assert (H : lst_contains lst x = true <-> resident lst x).
  { unfold lst_contains, lst_num_elements, resident. cbv zeta.
    rewrite lst_contains_loop_spec. split.
    - intros (j & Hj & E). exists (j + idx lst). split; [lia|exact E].
    - intros (j & Hj & E). exists (j - idx lst). split; [lia|].
      now replace (j - idx lst + idx lst) with j by lia. }
  split; [exact H|]. intros Hn.
  apply not_true_is_false. intros E.
  apply H in E. destruct E as (j & Hj & _). lia.
Qed.

(** X11: the comparator of the tests is a three-way comparison of the [data]
    fields, and it meets the requirement that the theorems about the LST put
    on a comparator. *)
Theorem X11_heap_cmp_is_a_three_way_comparison (key : ptr -> Z) :
  (forall a b, heap_cmp key a b = Z.sgn (key a - key b))
  /\ (forall a b, heap_cmp key a b = - heap_cmp key b a)
  /\ (forall a b c, heap_cmp key a b <= 0 -> heap_cmp key b c <= 0 ->
                    heap_cmp key a c <= 0)
  /\ total_preorder (heap_cmp key).
Proof.
  assert (H : forall a b, heap_cmp key a b = Z.sgn (key a - key b)).
  { intros a b. unfold heap_cmp.
    destruct (Z.gtb_spec (key a) (key b)), (Z.gtb_spec (key b) (key a)); lia. }
  split; [exact H|]. split; [intros a b; rewrite !H; lia|].
  split; [intros a b c; rewrite !H; lia|]. apply heap_cmp_total_preorder.
Qed.

Lemma for_loop_inv {A : Type} (body : Z -> A -> A) (Q : A -> Prop) :
  forall (n : nat) (lo : Z) (a : A),
  Q a ->
  (forall i x, lo <= i < lo + Z.of_nat n -> Q x -> Q (body i x)) ->
  Q (for_loop body lo n a).
Proof.
  induction n as [|n IH]; intros lo a Ha Hstep; cbn [for_loop]; [exact Ha|].
  apply IH.
  - apply Hstep; [lia|exact Ha].
  - intros i x Hi Hx. apply Hstep; [lia|exact Hx].
Qed.

Section ValidateProofs.

Variable cmp : ptr -> ptr -> Z.
Hypothesis cmp_ok : total_preorder cmp.
Variable lst : lst_t.
Hypothesis HI : Inv cmp lst.
Hypothesis Hnonnull : forall x, resident lst x -> x <> NULL.

Lemma validate_bucket_sizes_ok :
  validate_bucket_sizes lst (depth (s lst)) true = true.
Proof.
  pose proof HI as (Hwf & Hidx & HL).
  pose proof (L_s0 _ _ _ _ _ _ _ _ _ _ HL) as Hs0.
  pose proof (L_d _ _ _ _ _ _ _ _ _ _ HL) as Hd.
  pose proof (L_N _ _ _ _ _ _ _ _ _ _ HL) as HN.
  unfold validate_bucket_sizes.
  destruct (Z.eqb_spec (num_elements lst) 0) as [E|E]; [reflexivity|]. cbn [negb].
  set (d := depth (s lst)) in *.
  set (f := fun i => if i =? d then num_elements lst - (d - 1)
                     else stack_item (s lst) 0 - stack_item (s lst) i - i).
  match goal with
  | |- context [for_loop ?b 0 ?n ?a] =>
      assert (HL' : for_loop b 0 n a = (true, f (Z.of_nat n)))
  end.
  { apply (for_loop_ind _ (fun i acc => acc = (true, f i))).
    - unfold f. destruct (Z.eqb_spec 0 d); [lia|]. f_equal. lia.
    - intros i acc Hi ->. rewrite Z2Nat.id in Hi by lia.
      unfold f. destruct (Z.eqb_spec i d); [lia|].
      unfold bucket_upb, bucket_lwb. rewrite is_bucket_spec. fold d.
      pose proof (L_bounds cmp HL i ltac:(lia)) as Hbi.
      destruct (Z.eqb_spec i (d - 1)) as [Ei|Ei].
      + destruct (Z.eqb_spec (i + 1) d); [|lia].
        destruct (Z.gtb_spec (stack_item (s lst) i - 1 - idx lst + 1) (num_elements lst));
          [lia|]. f_equal. lia.
      + destruct (Z.eqb_spec (i + 1) d); [lia|].
        pose proof (L_bounds cmp HL (i + 1) ltac:(lia)) as Hbi1.
        destruct (Z.gtb_spec (stack_item (s lst) i - 1 - (stack_item (s lst) (i + 1) + 1) + 1)
                             (num_elements lst)); [lia|]. f_equal. lia. }
  rewrite HL'. rewrite Z2Nat.id by lia. unfold f. rewrite Z.eqb_refl.
  destruct (Z.eqb_spec (num_elements lst - (d - 1) + d - 1) (num_elements lst)); [reflexivity|lia].
Qed.

Lemma validate_elements_ok : validate_elements lst true = true.
Proof.
  pose proof (Inv_num_elements cmp lst HI) as HN.
  unfold validate_elements. apply for_loop_inv with (Q := fun v => v = true); [reflexivity|].
  intros i v Hi ->. rewrite Z2Nat.id in Hi by lia.
  destruct (Z.eqb_spec (item lst (idx lst + i)) NULL) as [E|E]; [|reflexivity].
  exfalso. apply (Hnonnull (item lst (idx lst + i))); [|exact E].
  exists (idx lst + i). split; [lia|reflexivity].
Qed.

Lemma validate_pivots_in_order_ok :
  validate_pivots_in_order cmp lst (depth (s lst)) true = true.
Proof.
  pose proof HI as (Hwf & Hidx & HL).
  unfold validate_pivots_in_order. apply for_loop_inv with (Q := fun v => v = true);
    [reflexivity|].
  intros k v Hk ->. cbv zeta. unfold pivot_item.
  assert (Hk' : 1 <= k /\ k + 1 < depth (s lst)) by lia.
  pose proof (L_dec _ _ _ _ _ _ _ _ _ _ HL k ltac:(lia)) as Hdec.
  pose proof (L_bounds_pivot cmp HL (k + 1) ltac:(lia)) as Hb1.
  pose proof (L_bounds_pivot cmp HL k ltac:(lia)) as Hb.
  pose proof (L_left _ _ _ _ _ _ _ _ _ _ HL k (stack_item (s lst) (k + 1))
                ltac:(lia) ltac:(lia) ltac:(lia)) as Hle.
  apply (cmp_flip_le cmp cmp_ok) in Hle.
  destruct (Z.ltb_spec (cmp (item lst (stack_item (s lst) k))
                            (item lst (stack_item (s lst) (k + 1)))) 0); [lia|].
  now rewrite andb_false_r.
Qed.

Lemma validate_pivots_ok : validate_pivots lst (depth (s lst)) true = true.
Proof.
  pose proof HI as (Hwf & Hidx & HL).
  unfold validate_pivots. apply for_loop_inv with (Q := fun v => v = true); [reflexivity|].
  intros k v Hk ->. unfold pivot_item.
  pose proof (L_bounds_pivot cmp HL k ltac:(lia)) as Hb.
  destruct (Z.eqb_spec (item lst (stack_item (s lst) k)) NULL) as [E|E]; [|reflexivity].
  exfalso. apply (Hnonnull (item lst (stack_item (s lst) k))); [|exact E].
  exists (stack_item (s lst) k). split; [lia|reflexivity].
Qed.

Lemma validate_pivot_indices_ok :
  validate_pivot_indices lst (depth (s lst)) true = true.
Proof.
  pose proof HI as (Hwf & Hidx & HL).
  unfold validate_pivot_indices. apply for_loop_inv with (Q := fun v => v = true);
    [reflexivity|].
  intros k v Hk ->. cbv zeta.
  pose proof (L_dec _ _ _ _ _ _ _ _ _ _ HL k ltac:(lia)) as Hdec.
  destruct (Z.geb_spec (stack_item (s lst) (k + 1)) (stack_item (s lst) k)); [lia|reflexivity].
Qed.

Lemma validate_buckets_ok : validate_buckets cmp lst (depth (s lst)) true = true.
Proof.
  pose proof HI as (Hwf & Hidx & HL).
  pose proof (L_d _ _ _ _ _ _ _ _ _ _ HL) as Hd.
  unfold validate_buckets. apply for_loop_inv with (Q := fun v => v = true); [reflexivity|].
  intros k v Hk ->. rewrite Z2Nat.id in Hk by lia. cbv zeta.
  pose proof (L_bounds cmp HL k ltac:(lia)) as Hbk.
  assert (H1 : (if k >? 0
                then for_loop
                       (fun index is_valid =>
                          if negb (item lst index =? NULL)
                             && negb (item lst (stack_item (s lst) k) =? NULL)
                             && (cmp (item lst index) (item lst (stack_item (s lst) k)) >? 0)
                          then false else is_valid)
                       (if k + 1 =? depth (s lst) then idx lst
                        else stack_item (s lst) (k + 1))
                       (Z.to_nat (stack_item (s lst) k
                                  - (if k + 1 =? depth (s lst) then idx lst
                                     else stack_item (s lst) (k + 1))))
                       true
                else true) = true).
  { destruct (Z.gtb_spec k 0) as [Hk0|Hk0]; [|reflexivity].
    set (lwb := if k + 1 =? depth (s lst) then idx lst else stack_item (s lst) (k + 1)).
    assert (Hlwb : idx lst <= lwb <= stack_item (s lst) k).
    { subst lwb. destruct (Z.eqb_spec (k + 1) (depth (s lst))); [lia|].
      pose proof (L_bounds cmp HL (k + 1) ltac:(lia)).
      pose proof (L_dec _ _ _ _ _ _ _ _ _ _ HL k ltac:(lia)). lia. }
    apply for_loop_inv with (Q := fun v => v = true); [reflexivity|].
    intros j v Hj ->. rewrite Z2Nat.id in Hj by lia.
    pose proof (L_left _ _ _ _ _ _ _ _ _ _ HL k j ltac:(lia) ltac:(lia) ltac:(lia)) as Hle.
    destruct (Z.gtb_spec (cmp (item lst j) (item lst (stack_item (s lst) k))) 0); [lia|].
    now rewrite andb_false_r. }
  rewrite H1.
  destruct (Z.ltb_spec (k + 1) (depth (s lst))) as [Hk1|Hk1]; [|reflexivity].
  pose proof (L_bounds_pivot cmp HL (k + 1) ltac:(lia)) as Hb1.
  pose proof (L_dec _ _ _ _ _ _ _ _ _ _ HL k ltac:(lia)) as Hdec.
  apply for_loop_inv with (Q := fun v => v = true); [reflexivity|].
  intros j v Hj ->. rewrite Z2Nat.id in Hj by lia.
  assert (Hle : cmp (item lst (stack_item (s lst) (k + 1))) (item lst j) <= 0).
  { destruct (Z.eq_dec j (stack_item (s lst) (k + 1))) as [->|Hne].
    - rewrite (cmp_refl cmp cmp_ok). lia.
    - apply (cmp_flip_le cmp cmp_ok).
      apply (L_right _ _ _ _ _ _ _ _ _ _ HL (k + 1) j); lia. }
  destruct (Z.gtb_spec (cmp (item lst (stack_item (s lst) (k + 1))) (item lst j)) 0); [lia|].
  now rewrite andb_false_r.
Qed.

Lemma lst_validate_ok : lst_validate cmp lst = true.
Proof.
  pose proof HI as (Hwf & Hidx & HL).
  pose proof (L_s0 _ _ _ _ _ _ _ _ _ _ HL) as Hs0.
  pose proof (L_d _ _ _ _ _ _ _ _ _ _ HL) as Hd.
  unfold lst_validate, stack_depth. cbv zeta.
  destruct (Z.ltb_spec (depth (s lst)) 1); [lia|].
  rewrite Hs0, Z.eqb_refl. cbn [negb].
  rewrite validate_bucket_sizes_ok, validate_elements_ok.
  destruct (is_bucket lst 0); [reflexivity|].
  rewrite validate_pivots_in_order_ok. cbn [negb].
  rewrite validate_pivots_ok, validate_pivot_indices_ok. cbn [negb].
  apply validate_buckets_ok.
Qed.

End ValidateProofs.

(** X12: a state that satisfies the invariants and whose resident records are
    not null passes every check of [lst_validate], the validator of the
    tests. *)
Theorem X12_lst_validate_accepts (cmp : ptr -> ptr -> Z) (lst : lst_t) :
  total_preorder cmp ->
  Inv cmp lst ->
  (forall x, resident lst x -> x <> NULL) ->
  lst_validate cmp lst = true.
Proof. intros Hcmp HI Hnn. now apply lst_validate_ok. Qed.

Lemma X12_witness : lst_validate example_cmp example_peeked = true.
Proof.
  apply (X12_lst_validate_accepts example_cmp example_peeked).
  - exact example_cmp_ok.
  - exact example_peeked_Inv.
  - intros x H. apply in_residents in H. vm_compute in H.
    repeat (destruct H as [H|H]; [subst x; discriminate|]). contradiction.
Defined.

(** ** The states that the interface reaches

    The states reached from a fresh LST by calls of the interface that respect
    its contract: [lst_insert] of a record that is not resident (it succeeds
    when the handle field is not positive, and is rejected otherwise), any
    [lst_insert] that is rejected, [lst_pop], [lst_peek], and [lst_extract]
    of a resident record that compares equal to no other resident.  The fuel of each call is what its
    theorem asks for. *)
Inductive reachable (cmp : ptr -> ptr -> Z) : lst_t -> Prop :=
| reach_alloc mem seed :
    reachable cmp (_lst_alloc mem seed)
| reach_insert fuel lst x r lst' :
    reachable cmp lst ->
    ~ resident lst x ->
    num_elements lst + 1 <= Z.of_nat fuel ->
    lst_insert cmp fuel lst x = Some (r, lst') ->
    reachable cmp lst'
| reach_insert_rejected fuel lst x lst' :
    reachable cmp lst ->
    lst_insert cmp fuel lst x = Some (-1, lst') ->
    reachable cmp lst'
| reach_pop fuel lst x lst' :
    reachable cmp lst ->
    num_elements lst + 3 <= Z.of_nat fuel ->
    lst_pop cmp fuel lst = Some (x, lst') ->
    reachable cmp lst'
| reach_peek fuel lst x lst' :
    reachable cmp lst ->
    num_elements lst + 3 <= Z.of_nat fuel ->
    lst_peek cmp fuel lst = Some (x, lst') ->
    reachable cmp lst'
| reach_extract fuel lst x r lst' :
    reachable cmp lst ->
    resident lst x ->
    (forall y, resident lst y -> cmp x y = 0 -> y = x) ->
    depth (s lst) <= Z.of_nat fuel ->
    lst_extract cmp fuel lst x = Some (r, lst') ->
    reachable cmp lst'.

Lemma reachable_Inv cmp lst :
  total_preorder cmp -> reachable cmp lst -> Inv cmp lst.
Proof.
  intros Hcmp H. induction H as
    [mem seed
    | fuel lst x r lst' _ IH Hfresh Hfuel E
    | fuel lst x lst' _ IH E
    | fuel lst x lst' _ IH Hfuel E
    | fuel lst x lst' _ IH Hfuel E
    | fuel lst x r lst' _ IH Hres Huniq Hfuel E].
  - apply Inv_alloc.
  - destruct (Z_le_gt_dec (item_index lst x) 0) as [Hh|Hh].
    + destruct (lst_insert_spec cmp Hcmp fuel lst x IH Hfresh Hh Hfuel)
        as (l & E' & (HI' & _) & _).
      rewrite E in E'. injection E' as -> ->. exact HI'.
    + destruct (insert_expand_spec cmp lst IH) as (HI0 & _ & _ & _ & _ & _ & Hhd0 & _).
      unfold lst_insert, item_index in E. cbv zeta in E.
      rewrite (Hhd0 x Hfresh) in E. unfold item_index in Hh.
      destruct (Z.gtb_spec (index_of lst x) 0); [|lia]. cbn [orb] in E.
      injection E as <- <-. exact HI0.
  - destruct (insert_expand_spec cmp lst IH) as (HI0 & _).
    unfold lst_insert in E. cbv zeta in E.
    match type of E with (if ?b then _ else _) = _ => destruct b end.
    + injection E as <-. exact HI0.
    + match type of E with match ?m with _ => _ end = _ => destruct m end; discriminate.
  - destruct (Z.eq_dec (num_elements lst) 0) as [En|En].
    + unfold lst_pop in E. rewrite En in E. cbn [Z.eqb] in E.
      injection E as <- <-. exact IH.
    + pose proof (Inv_num_elements cmp lst IH).
      destruct (lst_pop_spec cmp Hcmp fuel lst IH ltac:(lia) Hfuel)
        as (y & l & E' & HI' & _).
      rewrite E in E'. injection E' as -> ->. exact HI'.
  - destruct (Z.eq_dec (num_elements lst) 0) as [En|En].
    + unfold lst_peek in E. rewrite En in E. cbn [Z.eqb] in E.
      injection E as <- <-. exact IH.
    + pose proof (Inv_num_elements cmp lst IH).
      destruct (lst_peek_spec cmp Hcmp fuel lst IH ltac:(lia) Hfuel)
        as (l & E' & HI' & _).
      rewrite E in E'. injection E' as _ ->. exact HI'.
  - destruct (lst_extract_spec cmp Hcmp fuel lst x IH Hres Huniq Hfuel)
      as (l & E' & HI' & _).
    rewrite E in E'. injection E' as -> ->. exact HI'.
Qed.

Lemma reachable_insert_all cmp fuel :
  total_preorder cmp ->
  forall records lst lst',
  reachable cmp lst -> idx lst = 0 ->
  num_elements lst + Z.of_nat (length records) + 1 <= Z.of_nat fuel ->
  lst_insert_all cmp fuel lst records = Some lst' ->
  reachable cmp lst'.
Proof.
  intros Hcmp. induction records as [|x rest IH]; intros lst lst' Hr Hi Hfuel E.
  - cbn in E. injection E as <-. exact Hr.
  - cbn [lst_insert_all] in E. cbn [length] in Hfuel. rewrite Nat2Z.inj_succ in Hfuel.
    destruct (lst_insert cmp fuel lst x) as [[r l1]|] eqn:E1; [|discriminate].
    destruct (Z.eqb_spec r 1) as [->|]; [|discriminate].
    pose proof (reachable_Inv cmp lst Hcmp Hr) as HI.
    destruct (lst_insert_success_fresh cmp fuel lst x l1 HI Hi E1) as (Hfresh & Hh).
    destruct (lst_insert_spec cmp Hcmp fuel lst x HI Hfresh Hh ltac:(lia))
      as (l & E' & (HI' & Ei' & En' & _) & _).
    rewrite E1 in E'. injection E' as <-.
    apply (IH l1 lst'); [|lia|lia|exact E].
    apply (reach_insert cmp fuel lst x 1 l1); auto. lia.
Qed.

(** The array never shrinks. *)
Lemma reachable_capacity cmp lst :
  total_preorder cmp -> reachable cmp lst -> INITIAL_CAPACITY <= capacity lst.
Proof.
  intros Hcmp H. induction H as
    [mem seed
    | fuel lst x r lst' Hr IH Hfresh Hfuel E
    | fuel lst x lst' Hr IH E
    | fuel lst x lst' Hr IH Hfuel E
    | fuel lst x lst' Hr IH Hfuel E
    | fuel lst x r lst' Hr IH Hres Huniq Hfuel E];
    try (pose proof (reachable_Inv cmp lst Hcmp Hr) as HI;
         pose proof (Inv_num_elements cmp lst HI) as HN;
         pose proof (Inv_depth_bound cmp lst HI) as Hd;
         destruct (Inv_stack_ok cmp lst HI) as (Hok & Hf)).
  - cbn. lia.
  - rewrite (lst_insert_capacity cmp fuel lst x r lst' Hok Hf ltac:(lia) E).
    destruct (num_elements lst =? capacity lst); lia.
  - destruct (Z_le_gt_dec (depth (s lst)) (Z.of_nat fuel)) as [Hfuel|Hfuel].
    + rewrite (lst_insert_capacity cmp fuel lst x (-1) lst' Hok Hf Hfuel E).
      destruct (num_elements lst =? capacity lst); lia.
    + unfold lst_insert in E. cbv zeta in E.
      match type of E with (if ?b then _ else _) = _ => destruct b end.
      * injection E as <-.
        destruct (num_elements lst =? capacity lst); [|exact IH].
        destruct (lst_expand_shape lst Hok Hf) as (_ & _ & Ec & _). lia.
      * match type of E with match ?m with _ => _ end = _ => destruct m end; discriminate.
  - destruct (Z.eq_dec (num_elements lst) 0) as [En|En].
    + unfold lst_pop in E. rewrite En in E. cbn [Z.eqb] in E.
      injection E as <- <-. exact IH.
    + destruct (lst_pop_spec cmp Hcmp fuel lst HI ltac:(lia) Hfuel)
        as (y & l & E' & _ & _ & _ & Ec & _).
      rewrite E in E'. injection E' as -> ->. lia.
  - destruct (Z.eq_dec (num_elements lst) 0) as [En|En].
    + unfold lst_peek in E. rewrite En in E. cbn [Z.eqb] in E.
      injection E as <- <-. exact IH.
    + destruct (lst_peek_spec cmp Hcmp fuel lst HI ltac:(lia) Hfuel)
        as (l & E' & _ & Ec & _).
      rewrite E in E'. injection E' as _ ->. lia.
  - destruct (lst_extract_spec cmp Hcmp fuel lst x HI Hres Huniq Hfuel)
      as (l & E' & _ & Ec & _).
    rewrite E in E'. injection E' as -> ->. lia.
Qed.

(** X13: every state that the interface reaches when it is used as its
    contract asks satisfies the invariants; in such a state the handle field
    of each resident record is the slot that holds the record, no record is
    resident twice, the pivot stack holds at most [num_elements + 1] entries,
    and the capacity is at least the initial one. *)
Theorem X13_reachable_states_satisfy_the_invariants
  (cmp : ptr -> ptr -> Z) (lst : lst_t) :
  total_preorder cmp ->
  reachable cmp lst ->
  Inv cmp lst
  /\ (forall x, resident lst x ->
                0 <= item_index lst x < capacity lst /\ item lst (item_index lst x) = x)
  /\ NoDup (residents lst)
  /\ 1 <= depth (s lst) <= num_elements lst + 1
  /\ INITIAL_CAPACITY <= capacity lst.
Proof.
  intros Hcmp Hr. pose proof (reachable_Inv cmp lst Hcmp Hr) as HI.
  split; [exact HI|]. split; [intros x; now apply (Inv_handle_locates cmp)|].
  split; [now apply NoDup_residents with (cmp := cmp)|].
  pose proof (Inv_depth_bound cmp lst HI).
  destruct (Inv_stack_ok cmp lst HI) as ((_ & Hd) & _).
  split; [lia|]. now apply (reachable_capacity cmp).
Qed.

Lemma X13_witness :
  Inv example_cmp example_lst
  /\ (forall x, resident example_lst x ->
                0 <= item_index example_lst x < capacity example_lst
                /\ item example_lst (item_index example_lst x) = x)
  /\ NoDup (residents example_lst)
  /\ 1 <= depth (s example_lst) <= num_elements example_lst + 1
  /\ INITIAL_CAPACITY <= capacity example_lst.
Proof.
  apply (X13_reachable_states_satisfy_the_invariants example_cmp example_lst).
  - exact example_cmp_ok.
  - apply (reachable_insert_all example_cmp 13 example_cmp_ok example_records
             example_empty example_lst).
    + apply reach_alloc.
    + reflexivity.
    + vm_compute. discriminate.
    + exact example_lst_run.
Defined.

(** X14: [partition] of the leftmost bucket changes nothing outside of that
    bucket: each element at a logical index outside of it stays where it
    is, the records in the bucket are the same as before, and [capacity],
    [idx], [num_elements] and the invariants are kept. *)
Theorem X14_partition_permutes_within_the_bucket
  (cmp : ptr -> ptr -> Z) (fuel : nat) (lst : lst_t) (k : Z) :
  total_preorder cmp ->
  Inv cmp lst ->
  is_bucket lst k = true ->
  bucket_lwb lst k <= bucket_upb lst k ->
  bucket_upb lst k - bucket_lwb lst k + 3 <= Z.of_nat fuel ->
  exists lst',
    partition cmp fuel lst k = Some lst'
    /\ capacity lst' = capacity lst
    /\ idx lst' = idx lst
    /\ num_elements lst' = num_elements lst
    /\ (forall j, idx lst <= j < idx lst + num_elements lst ->
                  ~ (bucket_lwb lst k <= j <= bucket_upb lst k) ->
                  item lst' j = item lst j)
    /\ (forall j, bucket_lwb lst k <= j <= bucket_upb lst k ->
                  exists j', bucket_lwb lst k <= j' <= bucket_upb lst k
                             /\ item lst' j' = item lst j)
    /\ (forall x, resident lst' x <-> resident lst x)
    /\ Inv cmp lst'.
Proof.
  intros Hcmp HI Hb Hne Hfuel.
  rewrite is_bucket_spec in Hb. apply Z.eqb_eq in Hb.
  pose proof HI as (Hwf & Hidx & HL).
  pose proof (L_d _ _ _ _ _ _ _ _ _ _ HL) as Hd.
  pose proof (L_bounds cmp HL k ltac:(lia)) as Hbk.
  assert (Elwb : bucket_lwb lst k = idx lst).
  { unfold bucket_lwb. rewrite is_bucket_spec.
    destruct (Z.eqb_spec k (depth (s lst) - 1)); [reflexivity|lia]. }
  unfold bucket_upb in *. rewrite Elwb in *.
  destruct (partition_spec cmp Hcmp fuel lst k HI Hb ltac:(lia) ltac:(lia))
    as (lst' & h & E & P1 & P2 & P3 & P4 & P5 & P6 & P7 & P8 & P9 & P10 & P11).
  rewrite <- Hb in P8. pose proof P8 as (Q1 & Q2 & Q3).
  exists lst'. split; [exact E|]. split; [exact P2|]. split; [exact P3|].
  split; [exact P4|]. split; [exact Q1|]. split; [exact Q2|]. split; [|exact P1].
  intros x.
  apply (perm_in_resident_gen (idx lst) (stack_item (s lst) k - 1) lst lst'); auto; lia.
Qed.

Lemma X14_witness :
  exists lst',
    partition example_cmp 13 example_lst 0 = Some lst'
    /\ capacity lst' = capacity example_lst
    /\ idx lst' = idx example_lst
    /\ num_elements lst' = num_elements example_lst
    /\ (forall j, idx example_lst <= j < idx example_lst + num_elements example_lst ->
                  ~ (bucket_lwb example_lst 0 <= j <= bucket_upb example_lst 0) ->
                  item lst' j = item example_lst j)
    /\ (forall j, bucket_lwb example_lst 0 <= j <= bucket_upb example_lst 0 ->
                  exists j', bucket_lwb example_lst 0 <= j' <= bucket_upb example_lst 0
                             /\ item lst' j' = item example_lst j)
    /\ (forall x, resident lst' x <-> resident example_lst x)
    /\ Inv example_cmp lst'.
Proof.
  apply (X14_partition_permutes_within_the_bucket example_cmp 13 example_lst 0).
  - exact example_cmp_ok.
  - exact example_lst_Inv.
  - vm_compute. reflexivity.
  - vm_compute. discriminate.
  - vm_compute. discriminate.
Defined.

(** X15: [lst_flatten] to stack index [K] merges the buckets and pivots of
    the subtree into one bucket: the stack keeps its [K] lowest entries,
    the array and the residents are untouched, and the invariants still
    hold. *)
Theorem X15_flatten_keeps_the_invariants
  (cmp : ptr -> ptr -> Z) (lst : lst_t) (K : Z) :
  Inv cmp lst ->
  1 <= K <= depth (s lst) ->
  let lst' := lst_flatten lst K in
  depth (s lst') = K
  /\ is_bucket lst' (K - 1) = true
  /\ (forall i, 0 <= i < K -> stack_item (s lst') i = stack_item (s lst) i)
  /\ (forall j, item lst' j = item lst j)
  /\ (forall x, resident lst' x <-> resident lst x)
  /\ Inv cmp lst'.
Proof.
  intros HI HK lst'.
  destruct (Inv_flatten cmp lst K HI HK) as (HI' & Ed & Es & Eit).
  fold lst' in HI', Ed, Es, Eit.
  split; [exact Ed|]. split.
  { rewrite is_bucket_spec, Ed. apply Z.eqb_refl. }
  split; [intros i _; apply Es|]. split; [exact Eit|]. split; [|exact HI'].
  intros x. unfold resident.
  change (idx lst') with (idx lst). change (num_elements lst') with (num_elements lst).
  split; intros (j & Hj & E); exists j; (split; [exact Hj|]);
    [rewrite <- Eit|rewrite Eit]; exact E.
Qed.

Lemma X15_witness :
  let lst' := lst_flatten example_peeked 1 in
  depth (s lst') = 1
  /\ is_bucket lst' (1 - 1) = true
  /\ (forall i, 0 <= i < 1 -> stack_item (s lst') i = stack_item (s example_peeked) i)
  /\ (forall j, item lst' j = item example_peeked j)
  /\ (forall x, resident lst' x <-> resident example_peeked x)
  /\ Inv example_cmp lst'.
Proof.
  apply (X15_flatten_keeps_the_invariants example_cmp example_peeked 1).
  - exact example_peeked_Inv.
  - vm_compute. split; discriminate.
Defined.

(** X16: a record that [lst_pop] has returned, or that a successful
    [lst_extract] has removed, is not in the LST any more as far as
    [lst_extract] can tell: extracting it fails and changes nothing. *)
Theorem X16_extract_after_removal_fails
  (cmp : ptr -> ptr -> Z) (fuel : nat) (lst : lst_t) :
  total_preorder cmp ->
  Inv cmp lst ->
  num_elements lst + 3 <= Z.of_nat fuel ->
  (0 < num_elements lst ->
   exists x lst1,
     lst_pop cmp fuel lst = Some (x, lst1)
     /\ lst_extract cmp fuel lst1 x = Some (-1, lst1))
  /\ (forall x lst1,
        lst_extract cmp fuel lst x = Some (1, lst1) ->
        lst_extract cmp fuel lst1 x = Some (-1, lst1)).
Proof.
  intros Hcmp HI Hfuel.
  assert (Hfail : forall l x, index_of l x = -1 -> lst_extract cmp fuel l x = Some (-1, l)).
  { intros l x Eh. unfold lst_extract, item_index. rewrite Eh.
    cbn [Z.ltb Z.compare]. now rewrite orb_true_r. }
  pose proof (Inv_depth_bound cmp lst HI) as Hd.
  split.
  - intros Hn.
    destruct (lst_pop_spec cmp Hcmp fuel lst HI Hn Hfuel)
      as (x & lst1 & E1 & _ & _ & _ & _ & _ & Eh & _).
    exists x, lst1. split; [exact E1|]. now apply Hfail.
  - intros x lst1 E1.
    destruct (Inv_stack_ok cmp lst HI) as (Hok & Hf).
    destruct (lst_extract_shape cmp fuel lst x Hok Hf ltac:(lia))
      as (r0 & l0 & E0 & _ & _ & _ & _ & P5).
    rewrite E0 in E1. injection E1 as Er El. subst r0 l0.
    destruct (P5 ltac:(discriminate)) as (_ & _ & _ & Eh).
    now apply Hfail.
Qed.

Lemma X16_witness :
  (0 < num_elements example_peeked ->
   exists x lst1,
     lst_pop example_cmp 13 example_peeked = Some (x, lst1)
     /\ lst_extract example_cmp 13 lst1 x = Some (-1, lst1))
  /\ (forall x lst1,
        lst_extract example_cmp 13 example_peeked x = Some (1, lst1) ->
        lst_extract example_cmp 13 lst1 x = Some (-1, lst1)).
Proof.
  apply (X16_extract_after_removal_fails example_cmp 13 example_peeked).
  - exact example_cmp_ok.
  - exact example_peeked_Inv.
  - vm_compute. discriminate.
Defined.
